(** * tg-file-downloader: the download orchestration engine

    A shallow embedding of the job store ([storage/data-file.ts]), the
    transfer executor and retry policy ([download/downloader.ts]), the
    scheduler ([download/manager.ts]) and the secret store
    ([storage/encryption.ts]), with the properties the design document
    states about them.  Part III adds the file helpers ([utils/file.ts]),
    the configuration validator ([config/validator.ts]), the discovery
    pass with its filters ([discovery/index.ts]) and the session file
    ([storage/session-file.ts]), with properties read off the code, and
    Part IV follows the statistics of a run whose outputs are already on
    the disk.

    Conventions of the embedding.
    - A JavaScript [number] that holds a size, a count or a delay is a [Z].
    - An optional field ([x?: T]) is an [option T]; JavaScript truthiness
      ([a || b], [if (s)]) is written out: [0], the empty string and an
      absent value are falsy.
    - A place on the disk is a pair (directory, name), which is how
      [path.dirname] and [path.basename] split the path of a file.  The
      paths that [downloadFile] builds are normalised as the POSIX
      [path.join] normalises them, and lie at the text before and the
      text after their last slash.
    - The disk is a finite map from places to the contents of files; a
      content is either the text [JSON.stringify] produced for a snapshot,
      or other bytes (which [JSON.parse] rejects with a [SyntaxError]).
      Directories are not entries of the map: the directory of a path
      that the program writes exists ([ensureDir] makes the output
      directory), and a path that the program uses for a file holds no
      directory.  The one directory that the program itself names as a
      file is the output directory, for a name that sanitises to the
      empty string: there [fs.access] succeeds, and [fs.rename] fails as
      it does on Linux, unless the place already holds a file.
    - What an asynchronous operation observes from outside the program (the
      clock, the remote peer, an I/O fault) is an explicit argument. *)

From Stdlib Require Import ZArith String Ascii List Bool Lia DecimalString.
From Stdlib Require Import Sorting.Sorted Sorting.Permutation.
From stdpp Require Import base option list strings gmap.

Local Open Scope string_scope.

(* ===================================================================== *)
(** * Part I: definitions                                                 *)
(* ===================================================================== *)

(** ** JavaScript helpers *)

(** [if (s)] on a string. *)
Definition truthy (s : string) : bool :=
  match s with EmptyString => false | _ => true end.

(** [if (x)] on an optional string argument ([x?: string]). *)
Definition truthy_opt (o : option string) : bool :=
  match o with Some s => truthy s | None => false end.

(** [a || b] where [a] is an optional number. *)
Definition num_or (a : option Z) (b : Z) : Z :=
  match a with
  | Some n => if (n =? 0)%Z then b else n
  | None => b
  end.

(** [a || b] where [a] is an optional string. *)
Definition str_or (a : option string) (b : string) : string :=
  match a with
  | Some s => if truthy s then s else b
  | None => b
  end.

(** [`${n}`] for an integral number. *)
Definition show_Z (n : Z) : string := NilZero.string_of_int (Z.to_int n).

(** An [Error] object: [message] and the optional [code] of [BaseError]. *)
Record JsError := mkError {
  e_name : string;
  e_message : string;
  e_code : option string
}.

(** [new DownloadError(message, code)]. *)
Definition DownloadError (message code : string) : JsError :=
  mkError "DownloadError" message (Some code).

(** The result of a call that may throw. *)
Inductive outcome (A : Type) : Type :=
  | Returned (a : A)
  | Thrown (e : JsError).
Arguments Returned {A} a.
Arguments Thrown {A} e.

(** ** Data model ([types/index.ts]) *)

Inductive GroupType := group | channel | supergroup.

Inductive DownloadStatus := pending | in_progress | completed | failed.

Global Instance DownloadStatus_eq_dec : EqDecision DownloadStatus.
Proof. solve_decision. Defined.

Record TelegramGroup := mkGroup {
  g_id : string;
  g_handle : option string;
  g_name : string;
  g_type : GroupType;
  g_memberCount : option Z;
  g_accessHash : string;
  g_discoveredAt : string
}.

Record FileEntry := mkFile {
  f_id : string;
  f_groupId : string;
  f_name : string;
  f_size : Z;
  f_mimeType : option string;
  f_extension : option string;
  f_telegramFileId : string;
  f_messageId : Z;
  f_uploadedAt : option string;
  f_discoveredAt : string;
  f_downloadStatus : DownloadStatus;
  f_downloadedAt : option string;
  f_downloadPath : option string;
  f_errorMessage : option string
}.

Record Statistics := mkStatistics {
  totalGroups : Z;
  totalFiles : Z;
  totalSize : Z;
  pendingFiles : Z;
  completedFiles : Z;
  failedFiles : Z;
  totalDownloadedSize : Z
}.

Record DataFile := mkDataFile {
  d_version : string;
  d_createdAt : string;
  d_lastUpdatedAt : string;
  d_groups : list TelegramGroup;
  d_files : list FileEntry;
  d_statistics : Statistics
}.

(** ** Configuration ([types/config.ts]), the download settings *)

Record DownloadSettings := mkSettings {
  outputDir : option string;
  organizeByGroup : option bool;
  overwriteExisting : option bool;
  chunkSize : option Z;
  concurrency : option Z;
  retryAttempts : option Z;
  retryDelay : option Z
}.

Record Configuration := mkConfig {
  download : option DownloadSettings
}.

(** [config.download?.field]. *)
Definition download_field {A} (field : DownloadSettings -> option A)
    (config : Configuration) : option A :=
  match download config with Some d => field d | None => None end.

(** [if (config.download?.flag)]. *)
Definition download_flag (flag : DownloadSettings -> option bool)
    (config : Configuration) : bool :=
  match download_field flag config with Some b => b | None => false end.

(** ** Job store ([storage/data-file.ts]) *)

Definition DATA_VERSION : string := "1.0.0".

(** [createDataFile()]; [now] is [new Date().toISOString()]. *)
Definition createDataFile (now : string) : DataFile :=
  {| d_version := DATA_VERSION;
     d_createdAt := now;
     d_lastUpdatedAt := now;
     d_groups := [];
     d_files := [];
     d_statistics :=
       {| totalGroups := 0; totalFiles := 0; totalSize := 0;
          pendingFiles := 0; completedFiles := 0; failedFiles := 0;
          totalDownloadedSize := 0 |} |}.

(** [files.reduce((sum, file) => sum + file.size, 0)]. *)
Definition reduce_size (files : list FileEntry) : Z :=
  fold_left (fun sum file => (sum + f_size file)%Z) files 0%Z.

(** [files.filter((f) => f.downloadStatus === status)]. *)
Definition filter_status (status : DownloadStatus) (files : list FileEntry)
    : list FileEntry :=
  filter (fun f => f_downloadStatus f = status) files.

(** [updateStatistics(dataFile)]; [now] is [new Date().toISOString()]. *)
Definition updateStatistics (dataFile : DataFile) (now : string) : DataFile :=
  let statistics :=
    {| totalGroups := Z.of_nat (length (d_groups dataFile));
       totalFiles := Z.of_nat (length (d_files dataFile));
       totalSize := reduce_size (d_files dataFile);
       pendingFiles :=
         Z.of_nat (length (filter_status pending (d_files dataFile)));
       completedFiles :=
         Z.of_nat (length (filter_status completed (d_files dataFile)));
       failedFiles :=
         Z.of_nat (length (filter_status failed (d_files dataFile)));
       totalDownloadedSize :=
         reduce_size (filter_status completed (d_files dataFile)) |} in
  {| d_version := d_version dataFile;
     d_createdAt := d_createdAt dataFile;
     d_lastUpdatedAt := now;
     d_groups := d_groups dataFile;
     d_files := d_files dataFile;
     d_statistics := statistics |}.

(** [arr.findIndex(pred)]: the first index whose element satisfies
    [pred], [None] for JavaScript's [-1]. *)
Fixpoint findIndex {A} (pred : A -> bool) (arr : list A) : option nat :=
  match arr with
  | [] => None
  | x :: rest =>
      if pred x then Some 0 else option_map S (findIndex pred rest)
  end.

(** The object literal of [upsertFile]: the incoming entry spread first,
    then the four download fields of the stored record. *)
Definition merge_file (file existingFile : FileEntry) : FileEntry :=
  {| f_id := f_id file;
     f_groupId := f_groupId file;
     f_name := f_name file;
     f_size := f_size file;
     f_mimeType := f_mimeType file;
     f_extension := f_extension file;
     f_telegramFileId := f_telegramFileId file;
     f_messageId := f_messageId file;
     f_uploadedAt := f_uploadedAt file;
     f_discoveredAt := f_discoveredAt file;
     f_downloadStatus := f_downloadStatus existingFile;
     f_downloadedAt := f_downloadedAt existingFile;
     f_downloadPath := f_downloadPath existingFile;
     f_errorMessage := f_errorMessage existingFile |}.

Definition with_files (dataFile : DataFile) (files : list FileEntry)
    : DataFile :=
  {| d_version := d_version dataFile;
     d_createdAt := d_createdAt dataFile;
     d_lastUpdatedAt := d_lastUpdatedAt dataFile;
     d_groups := d_groups dataFile;
     d_files := files;
     d_statistics := d_statistics dataFile |}.

Definition with_groups (dataFile : DataFile) (groups : list TelegramGroup)
    : DataFile :=
  {| d_version := d_version dataFile;
     d_createdAt := d_createdAt dataFile;
     d_lastUpdatedAt := d_lastUpdatedAt dataFile;
     d_groups := groups;
     d_files := d_files dataFile;
     d_statistics := d_statistics dataFile |}.

(** [upsertGroup(dataFile, group)]. *)
Definition upsertGroup (dataFile : DataFile) (group : TelegramGroup)
    : DataFile :=
  match findIndex (fun g => String.eqb (g_id g) (g_id group))
                  (d_groups dataFile) with
  | Some existingIndex =>
      with_groups dataFile (<[existingIndex := group]> (d_groups dataFile))
  | None => with_groups dataFile (d_groups dataFile ++ [group])
  end.

(** [upsertFile(dataFile, file)]. *)
Definition upsertFile (dataFile : DataFile) (file : FileEntry) : DataFile :=
  match findIndex (fun f => String.eqb (f_id f) (f_id file))
                  (d_files dataFile) with
  | Some existingIndex =>
      match d_files dataFile !! existingIndex with
      | Some existingFile =>
          with_files dataFile
            (<[existingIndex := merge_file file existingFile]>
               (d_files dataFile))
      | None => dataFile
      end
  | None => with_files dataFile (d_files dataFile ++ [file])
  end.

(** ** Paths and the file system *)

(** A place on the disk: the directory and the name in it, which is how
    [path.dirname] and [path.basename] split the path of a file. *)
Abbreviation Path := (string * string)%type.

Definition path_dirname (p : Path) : string := fst p.
Definition path_basename (p : Path) : string := snd p.

(** The place of the entry [name] of the directory [dir], which is what
    [path.join(dir, name)] names for a name without a slash. *)
Definition path_join (dir name : string) : Path := (dir, name).

(** [`${p}${suffix}`] for a suffix without a slash: the text is appended
    to the name. *)
Definition path_suffix (p : Path) (suffix : string) : Path :=
  (fst p, snd p +:+ suffix).

(** The path of a place, directory first. *)
Definition path_string (p : Path) : string := fst p +:+ "/" +:+ snd p.

(** *** [node:path], POSIX flavour *)

(** [s.split(sep)] for a one-character separator. *)
Fixpoint split_on (sep : ascii) (s : string) : list string :=
  match s with
  | EmptyString => [EmptyString]
  | String c rest =>
      if Ascii.eqb c sep then EmptyString :: split_on sep rest
      else
        match split_on sep rest with
        | first :: others => String c first :: others
        | [] => [String c EmptyString]
        end
  end.

(** One segment of [normalizeString]; [res] holds the segments kept so
    far, the last one first.  Empty segments and [.] are dropped, [..]
    removes the segment before it, and is kept where there is none to
    remove only in a relative path. *)
Definition push_segment (allowAboveRoot : bool) (res : list string)
    (segment : string) : list string :=
  if (String.eqb segment "" || String.eqb segment ".")%bool then res
  else if String.eqb segment ".." then
    match res with
    | last :: init =>
        if String.eqb last ".."
        then (if allowAboveRoot then ".." :: res else res)
        else init
    | [] => if allowAboveRoot then [".."] else []
    end
  else segment :: res.

(** [normalizeString(path, allowAboveRoot, '/', isPosixPathSeparator)]. *)
Definition normalizeString (path : string) (allowAboveRoot : bool) : string :=
  String.concat "/"
    (rev (fold_left (push_segment allowAboveRoot) (split_on "/" path) [])).

(** [path.charCodeAt(0) === CHAR_FORWARD_SLASH]. *)
Definition is_absolute (path : string) : bool :=
  match path with
  | String c _ => Ascii.eqb c "/"
  | EmptyString => false
  end.

(** [path.charCodeAt(path.length - 1) === CHAR_FORWARD_SLASH]. *)
Fixpoint trailing_slash (path : string) : bool :=
  match path with
  | EmptyString => false
  | String c EmptyString => Ascii.eqb c "/"
  | String _ rest => trailing_slash rest
  end.

(** [path.posix.normalize(path)]. *)
Definition normalize (path : string) : string :=
  if String.eqb path "" then "."
  else
    let isAbsolute := is_absolute path in
    let trailingSeparator := trailing_slash path in
    let normalized := normalizeString path (negb isAbsolute) in
    if String.eqb normalized "" then
      if isAbsolute then "/"
      else if trailingSeparator then "./" else "."
    else
      let normalized :=
        if trailingSeparator then normalized +:+ "/" else normalized in
      if isAbsolute then "/" +:+ normalized else normalized.

(** [path.posix.join(a, b)]: empty arguments are left out, the others
    are joined by a slash and normalised. *)
Definition posix_join (a b : string) : string :=
  match a, b with
  | EmptyString, EmptyString => "."
  | EmptyString, _ => normalize b
  | _, EmptyString => normalize a
  | _, _ => normalize (a +:+ "/" +:+ b)
  end.

(** The text before the last slash of [s], if there is a slash, and the
    text after it. *)
Fixpoint split_last_slash (s : string) : option string * string :=
  match s with
  | EmptyString => (None, EmptyString)
  | String c rest =>
      match split_last_slash rest with
      | (Some dir, name) => (Some (String c dir), name)
      | (None, name) =>
          if Ascii.eqb c "/" then (Some EmptyString, name)
          else (None, String c name)
      end
  end.

(** The place that the path [s] names: the text before its last slash
    and the text after it, with [.] for the directory of a path without a
    slash and [/] for the root.  For a path that does not end in a slash
    these are [path.dirname(s)] and [path.basename(s)]; the name is empty
    for a path written as a directory. *)
Definition path_of_string (s : string) : Path :=
  match split_last_slash s with
  | (Some EmptyString, name) => ("/", name)
  | (Some dir, name) => (dir, name)
  | (None, name) => (".", name)
  end.

(** What a file holds: the text of a serialised snapshot, or other bytes. *)
Inductive content :=
  | Json (d : DataFile)
  | Blob (bytes : string).

Abbreviation FS := (gmap (string * string) content).

(** [JSON.parse(content)] at type [DataFile]; the message of the
    [SyntaxError] is the engine's. *)
Definition SyntaxError : JsError :=
  mkError "SyntaxError" "Unexpected token in JSON" None.

Definition JSON_parse (c : content) : outcome DataFile :=
  match c with
  | Json d => Returned d
  | Blob _ => Thrown SyntaxError
  end.

Definition ENOENT : JsError :=
  mkError "Error" "ENOENT: no such file or directory" (Some "ENOENT").

(** [fileExists(filePath)] ([utils/file.ts]). *)
Definition fileExists (fs : FS) (filePath : Path) : bool :=
  match fs !! filePath with Some _ => true | None => false end.

(** [fs.unlink(p)] inside [try { ... } catch { }]: errors are ignored. *)
Definition unlink_quiet (fs : FS) (p : Path) : FS := delete p fs.

(** [fs.readdir(dir)]: the names of the files in [dir]. *)
Definition readdir (fs : FS) (dir : string) : list string :=
  map snd (filter (fun p : string * string => fst p = dir)
                  (map fst (map_to_list fs))).

(** [fs.stat(p).size]; the byte length of a serialised snapshot is not
    tracked, and no caller stats one. *)
Definition stat_size (fs : FS) (p : Path) : outcome Z :=
  match fs !! p with
  | Some (Blob bytes) => Returned (Z.of_nat (String.length bytes))
  | Some (Json _) => Thrown (mkError "Error" "size not tracked" None)
  | None => Thrown ENOENT
  end.

(** What the environment contributes to one [saveDataFile]: the clock
    readings and, possibly, an I/O fault. *)
Inductive io_fault :=
  | NoFault
  | CopyFault (e : JsError)      (* fs.copyFile rejects *)
  | WriteFault (e : JsError)     (* fs.writeFile rejects *)
  | RenameFault (e : JsError).   (* fs.rename rejects *)

Record SaveEnv := mkSaveEnv {
  fault : io_fault;
  backup_stamp : string;   (* new Date().toISOString() in createBackup *)
  update_stamp : string;   (* new Date().toISOString() in updateStatistics *)
  tmp_millis : Z           (* Date.now() in atomicWrite *)
}.

Fixpoint string_map (f : ascii -> ascii) (s : string) : string :=
  match s with
  | EmptyString => EmptyString
  | String c rest => String (f c) (string_map f rest)
  end.

(** [s.replace(/[:.]/g, '-')]. *)
Definition replace_colon_dot (s : string) : string :=
  string_map (fun c =>
    if (Ascii.eqb c ":" || Ascii.eqb c ".")%bool then "-"%char else c) s.

(** [fs.copyFile(src, dst)]. *)
Definition copyFile (env : SaveEnv) (fs : FS) (src dst : Path)
    : outcome FS :=
  match fault env with
  | CopyFault e => Thrown e
  | _ =>
      match fs !! src with
      | Some c => Returned (<[dst := c]> fs)
      | None => Thrown ENOENT
      end
  end.

(** [createBackup(filePath)] ([utils/file.ts]). *)
Definition createBackup (env : SaveEnv) (fs : FS) (filePath : Path)
    : FS * outcome string :=
  let timestamp := replace_colon_dot (backup_stamp env) in
  let backupPath := path_suffix filePath (".backup." +:+ timestamp) in
  match copyFile env fs filePath backupPath with
  | Returned fs' => (fs', Returned (path_string backupPath))
  | Thrown e =>
      match e_code e with
      | Some code =>
          if String.eqb code "ENOENT" then (fs, Returned "")
          else (fs, Thrown e)
      | None => (fs, Thrown e)
      end
  end.

(** [atomicWrite(filePath, content)] ([utils/file.ts]). *)
Definition atomicWrite (env : SaveEnv) (fs : FS) (filePath : Path)
    (c : content) : FS * outcome unit :=
  let tempPath := path_suffix filePath (".tmp." +:+ show_Z (tmp_millis env)) in
  match fault env with
  | WriteFault e => (unlink_quiet fs tempPath, Thrown e)
  | _ =>
      let fs1 := <[tempPath := c]> fs in
      match fault env with
      | RenameFault e => (unlink_quiet fs1 tempPath, Thrown e)
      | _ => (<[filePath := c]> (delete tempPath fs1), Returned tt)
      end
  end.

(** [saveDataFile(filePath, dataFile, createBackupFirst)]; its [catch]
    logs and rethrows. *)
Definition saveDataFile (env : SaveEnv) (fs : FS) (filePath : Path)
    (dataFile : DataFile) (createBackupFirst : bool) : FS * outcome unit :=
  let '(fs1, backup) :=
    if (createBackupFirst && fileExists fs filePath)%bool
    then createBackup env fs filePath
    else (fs, Returned "") in
  match backup with
  | Thrown e => (fs1, Thrown e)
  | Returned _ =>
      let updatedData := updateStatistics dataFile (update_stamp env) in
      atomicWrite env fs1 filePath (Json updatedData)
  end.

(** [Array.prototype.sort()] without a comparator orders strings by code
    unit.  Two paths that compare equal are the same path, so every sorting
    algorithm returns the list that insertion sort returns. *)
Fixpoint insert_sorted (p : Path) (l : list Path) : list Path :=
  match l with
  | [] => [p]
  | q :: rest =>
      if String.leb (path_string p) (path_string q) then p :: l
      else q :: insert_sorted p rest
  end.

Definition sort_paths (l : list Path) : list Path :=
  foldr insert_sorted [] l.

(** [findLatestBackup(filePath)]; [readdir] cannot fail here, so the
    [catch] that returns [null] is not reached. *)
Definition findLatestBackup (fs : FS) (filePath : Path) : option Path :=
  let dir := path_dirname filePath in
  let basename := path_basename filePath in
  let files := readdir fs dir in
  let backups :=
    reverse (sort_paths
               (map (path_join dir)
                    (List.filter (String.prefix (basename +:+ ".backup."))
                                 files))) in
  head backups.

(** [fs.readFile(p, 'utf-8')] followed by [JSON.parse]. *)
Definition read_and_parse (fs : FS) (p : Path) : outcome DataFile :=
  match fs !! p with
  | Some c => JSON_parse c
  | None => Thrown ENOENT
  end.

(** [loadDataFile(filePath)]; [now] is the clock [createDataFile] reads. *)
Definition loadDataFile (now : string) (fs : FS) (filePath : Path)
    : outcome DataFile :=
  if negb (fileExists fs filePath) then Returned (createDataFile now)
  else
    match read_and_parse fs filePath with
    | Returned dataFile => Returned dataFile
    | Thrown error =>
        if String.eqb (e_name error) "SyntaxError" then
          match findLatestBackup fs filePath with
          | Some backupPath => read_and_parse fs backupPath
          | None => Thrown error
          end
        else Thrown error
    end.

(** ** Transfer executor ([download/downloader.ts]) *)

(** The character class of the first [replace]: the control characters
    below 0x20 and the nine characters less-than, greater-than, colon,
    double quote (34), slash, backslash (92), bar, question mark, star. *)
Definition invalid_char (c : ascii) : bool :=
  ((nat_of_ascii c <? 32)%nat
   || Ascii.eqb c "<" || Ascii.eqb c ">" || Ascii.eqb c ":"
   || Ascii.eqb c (ascii_of_nat 34) || Ascii.eqb c "/"
   || Ascii.eqb c (ascii_of_nat 92) || Ascii.eqb c "|"
   || Ascii.eqb c "?" || Ascii.eqb c "*")%bool.

(** The class [\s] on code units below 256: tab, line feed, vertical tab,
    form feed, carriage return, space and no-break space. *)
Definition space_char (c : ascii) : bool :=
  ((nat_of_ascii c =? 32)%nat || (nat_of_ascii c =? 160)%nat
   || (nat_of_ascii c =? 9)%nat || (nat_of_ascii c =? 10)%nat
   || (nat_of_ascii c =? 11)%nat || (nat_of_ascii c =? 12)%nat
   || (nat_of_ascii c =? 13)%nat)%bool.

(** [s.replace(/^\.+/, '')]. *)
Fixpoint drop_leading_dots (s : string) : string :=
  match s with
  | String c rest => if Ascii.eqb c "." then drop_leading_dots rest else s
  | EmptyString => EmptyString
  end.

(** [s.replace(/\s+/g, '_')]; [in_run] says the previous character was
    white space. *)
Fixpoint collapse_spaces (in_run : bool) (s : string) : string :=
  match s with
  | EmptyString => EmptyString
  | String c rest =>
      if space_char c then
        if in_run then collapse_spaces true rest
        else String "_" (collapse_spaces true rest)
      else String c (collapse_spaces false rest)
  end.

(** [sanitizeFilename(filename)] ([utils/file.ts]). *)
Definition sanitizeFilename (filename : string) : string :=
  String.substring 0 255
    (collapse_spaces false
       (drop_leading_dots
          (string_map (fun c => if invalid_char c then "_"%char else c)
                      filename))).

Record DownloadResult := mkResult {
  r_success : bool;
  r_file : FileEntry;
  r_downloadPath : option string;
  r_error : option string
}.

(** What the remote peer does during one transfer attempt. *)
Inductive Remote :=
  | EntityRejected (e : JsError)     (* client.getEntity rejects *)
  | MessagesRejected (e : JsError)   (* client.getMessages rejects *)
  | NoMessages                       (* no message comes back *)
  | NoDocument                       (* the message carries no document *)
  | MediaRejected (e : JsError)      (* client.downloadMedia rejects *)
  | NoBuffer                         (* downloadMedia resolves to nothing *)
  | Media (buffer : string).         (* downloadMedia resolves to a Buffer *)

(** The [outputDir] of [downloadFile]. *)
Definition output_dir (config : Configuration) (file : FileEntry)
    (groupHandle : string) : string :=
  let baseDir := str_or (download_field outputDir config) "./data/downloads" in
  if download_flag organizeByGroup config
  then posix_join baseDir
         (sanitizeFilename
            (if truthy groupHandle then groupHandle else f_groupId file))
  else baseDir.

(** The [outputPath] of [downloadFile], the string that ends up as the
    [downloadPath] of the result. *)
Definition outputPath_string (config : Configuration) (file : FileEntry)
    (groupHandle : string) : string :=
  posix_join (output_dir config file groupHandle)
             (sanitizeFilename (f_name file)).

(** The place of [outputPath] on the disk. *)
Definition output_path (config : Configuration) (file : FileEntry)
    (groupHandle : string) : Path :=
  path_of_string (outputPath_string config file groupHandle).

(** [outputPath] is [outputDir]: a name that sanitises to the empty
    string adds nothing in [path.join(outputDir, '')]. *)
Definition names_output_dir (file : FileEntry) : bool :=
  String.eqb (sanitizeFilename (f_name file)) "".

(** [fs.access(outputPath)] succeeds, after [ensureDir(outputDir)]: the
    path holds a file, or it is [outputDir], which [ensureDir] has made
    (or found taken by a file, an [EEXIST] that it ignores). *)
Definition output_exists (fs : FS) (config : Configuration)
    (file : FileEntry) (groupHandle : string) : bool :=
  (names_output_dir file
   || fileExists fs (output_path config file groupHandle))%bool.

(** [outputPath] is a directory: it is [outputDir], and no file was in
    the way when [ensureDir] made it. *)
Definition output_is_directory (fs : FS) (config : Configuration)
    (file : FileEntry) (groupHandle : string) : bool :=
  (names_output_dir file
   && negb (fileExists fs (output_path config file groupHandle)))%bool.

(** The last component of a path, trailing slashes left aside; [None]
    for the root and for the empty path. *)
Definition last_component (path : string) : option string :=
  last (List.filter (fun segment => negb (String.eqb segment ""))
                    (split_on "/" path)).

(** What [fs.rename(tempPath, outputPath)] throws when [tempPath] is a
    file and [outputPath] a directory, as Linux reports it: [EBUSY] for
    the root and for a path whose last component is [.] or [..],
    [ENOTDIR] for a path written with a trailing slash, [EISDIR]
    otherwise. *)
Definition rename_onto_directory (tempPath outputPath : string) : JsError :=
  let '(code, text) :=
    match last_component outputPath with
    | None => ("EBUSY", "resource busy or locked")
    | Some component =>
        if (String.eqb component "." || String.eqb component "..")%bool
        then ("EBUSY", "resource busy or locked")
        else if trailing_slash outputPath
        then ("ENOTDIR", "not a directory")
        else ("EISDIR", "illegal operation on a directory")
    end in
  mkError "Error"
    (code +:+ ": " +:+ text +:+ ", rename '" +:+ tempPath +:+
     "' -> '" +:+ outputPath +:+ "'")
    (Some code).

(** The inner [try] block of [downloadFile]: fetch, write the temp file,
    verify the size, rename.  [outputPath] and [tempPath] are the places
    of the two paths, [outputString] is the text of the first and
    [isDirectory] says that it is a directory. *)
Definition transfer (remote : Remote) (fs : FS) (file : FileEntry)
    (outputPath tempPath : Path) (outputString : string)
    (isDirectory : bool) : FS * outcome DownloadResult :=
  match remote with
  | EntityRejected _ =>
      (fs, Thrown (DownloadError
             ("Could not find group with ID " +:+ f_groupId file +:+
              ". The group may have been deleted or access was revoked.")
             "ENTITY_NOT_FOUND"))
  | MessagesRejected e => (fs, Thrown e)
  | NoMessages =>
      (fs, Thrown (DownloadError
             ("Message not found for file " +:+ f_id file)
             "MESSAGE_NOT_FOUND"))
  | NoDocument =>
      (fs, Thrown (DownloadError
             ("Message does not contain a document for file " +:+ f_id file)
             "NOT_A_DOCUMENT"))
  | MediaRejected e => (fs, Thrown e)
  | NoBuffer =>
      (fs, Thrown (DownloadError
             ("Failed to download file " +:+ f_id file) "DOWNLOAD_FAILED"))
  | Media buffer =>
      let fs1 := <[tempPath := Blob buffer]> fs in
      match stat_size fs1 tempPath with
      | Thrown e => (fs1, Thrown e)
      | Returned written =>
          if negb (written =? f_size file)%Z then
            (fs1, Thrown (DownloadError
                    ("Downloaded size (" +:+ show_Z written +:+
                     ") does not match expected size (" +:+
                     show_Z (f_size file) +:+ ") for file " +:+ f_id file)
                    "SIZE_MISMATCH"))
          else if isDirectory then
            (fs1, Thrown (rename_onto_directory (outputString +:+ ".part")
                                                outputString))
          else
            (<[outputPath := Blob buffer]> (delete tempPath fs1),
             Returned (mkResult true file (Some outputString) None))
      end
  end.

(** The outer [try] block of [downloadFile]: the skip of an existing
    output, then the transfer with its clean-up handler.  The temp path
    is the output path with [.part] appended, which lies in the same
    directory under the name with [.part] appended. *)
Definition downloadFile_try (remote : Remote) (fs : FS) (file : FileEntry)
    (groupHandle : string) (config : Configuration)
    : FS * outcome DownloadResult :=
  let outputString := outputPath_string config file groupHandle in
  let outputPath := output_path config file groupHandle in
  if (negb (download_flag overwriteExisting config)
      && output_exists fs config file groupHandle)%bool
  then (fs, Returned (mkResult true file (Some outputString) None))
  else
    let tempPath := path_suffix outputPath ".part" in
    match transfer remote fs file outputPath tempPath outputString
                   (output_is_directory fs config file groupHandle) with
    | (fs1, Returned result) => (fs1, Returned result)
    | (fs1, Thrown error) => (unlink_quiet fs1 tempPath, Thrown error)
    end.

(** [downloadFile(client, file, groupHandle, options)]: the outer [catch]
    turns an error into a failure result. *)
Definition downloadFile (remote : Remote) (fs : FS) (file : FileEntry)
    (groupHandle : string) (config : Configuration) : FS * DownloadResult :=
  match downloadFile_try remote fs file groupHandle config with
  | (fs1, Returned result) => (fs1, result)
  | (fs1, Thrown error) =>
      (fs1, mkResult false file None (Some (e_message error)))
  end.

(** ** Retry policy *)

(** What [downloadFileWithRetry] does, in order. *)
Inductive RetryEvent :=
  | Attempt (attempt : Z)   (* a call of downloadFile *)
  | Delay (ms : Z).         (* setTimeout(resolve, ms) awaited *)

Definition maxAttempts_of (config : Configuration) : Z :=
  num_or (download_field retryAttempts config) 3.

Definition retryDelay_of (config : Configuration) : Z :=
  num_or (download_field retryDelay config) 5000.

(** The [for] loop of [downloadFileWithRetry], with [remaining] iterations
    to go from [attempt]; [peer n] is what the remote does during attempt
    [n].  [None] is falling out of the loop. *)
Fixpoint retry_loop (remaining : nat) (attempt maxAttempts retryDelay : Z)
    (peer : Z -> Remote) (fs : FS) (file : FileEntry) (groupHandle : string)
    (config : Configuration)
    : FS * list RetryEvent * option DownloadResult :=
  match remaining with
  | O => (fs, [], None)
  | S remaining' =>
      let '(fs1, result) :=
        downloadFile (peer attempt) fs file groupHandle config in
      if r_success result then (fs1, [Attempt attempt], Some result)
      else
        let pause :=
          if (attempt <? maxAttempts)%Z then [Delay retryDelay] else [] in
        let '(fs2, events, final) :=
          retry_loop remaining' (attempt + 1)%Z maxAttempts retryDelay
                     peer fs1 file groupHandle config in
        (fs2, Attempt attempt :: pause ++ events, final)
  end.

(** [downloadFileWithRetry(client, file, groupHandle, options)]. *)
Definition downloadFileWithRetry (peer : Z -> Remote) (fs : FS)
    (file : FileEntry) (groupHandle : string) (config : Configuration)
    : FS * list RetryEvent * DownloadResult :=
  let maxAttempts := maxAttempts_of config in
  let retryDelay := retryDelay_of config in
  match retry_loop (Z.to_nat maxAttempts) 1%Z maxAttempts retryDelay
                   peer fs file groupHandle config with
  | (fs1, events, Some result) => (fs1, events, result)
  | (fs1, events, None) =>
      (fs1, events,
       mkResult false file None
         (Some ("Failed after " +:+ show_Z maxAttempts +:+ " attempts")))
  end.

(** ** Scheduler ([download/manager.ts]) *)

Record DownloadManagerOptions := mkOptions {
  config : Configuration;
  dataFilePath : Path;
  showProgress : option bool;
  resumeExisting : option bool
}.

Record DownloadStats := mkStats {
  total : Z;
  s_completed : Z;
  s_failed : Z;
  skipped : Z;
  s_totalSize : Z;
  downloadedSize : Z
}.

(** [this.stats] as the constructor sets it. *)
Definition constructor_stats : DownloadStats :=
  {| total := 0; s_completed := 0; s_failed := 0; skipped := 0;
     s_totalSize := 0; downloadedSize := 0 |}.

(** The three suspension points of [downloadSingleFile]. *)
Inductive phase :=
  | SavingStart      (* awaiting saveDataFile after marking in-progress *)
  | Transferring     (* awaiting downloadFileWithRetry *)
  | SavingOutcome.   (* awaiting saveDataFile after recording the outcome *)

(** An in-flight [downloadSingleFile(file)], suspended at [t_phase].  The
    method reads only [id], [groupId], [name] and [size] of [file], which
    the run never changes, so the task carries the entry by value. *)
Record Task := mkTask {
  t_file : FileEntry;
  t_phase : phase
}.

(** The fields of the manager a run changes (with the [queue] and [active]
    locals of [downloadWithConcurrency]) and the disk. *)
Record Manager := mkManager {
  dataFile : DataFile;
  stats : DownloadStats;
  queue : list FileEntry;
  active : list Task;
  disk : FS
}.

(** The assignments of [updateFileStatus] to [files[fileIndex]]; [now] is
    [new Date().toISOString()]. *)
Definition set_status (status : DownloadStatus) (downloadPath : option string)
    (errorMessage : option string) (now : string) (f : FileEntry)
    : FileEntry :=
  {| f_id := f_id f;
     f_groupId := f_groupId f;
     f_name := f_name f;
     f_size := f_size f;
     f_mimeType := f_mimeType f;
     f_extension := f_extension f;
     f_telegramFileId := f_telegramFileId f;
     f_messageId := f_messageId f;
     f_uploadedAt := f_uploadedAt f;
     f_discoveredAt := f_discoveredAt f;
     f_downloadStatus := status;
     f_downloadedAt :=
       if truthy_opt downloadPath then Some now else f_downloadedAt f;
     f_downloadPath :=
       if truthy_opt downloadPath then downloadPath else f_downloadPath f;
     f_errorMessage :=
       if truthy_opt errorMessage then errorMessage else f_errorMessage f |}.

(** [updateFileStatus(fileId, status, downloadPath?, errorMessage?)]. *)
Definition updateFileStatus (dataFile : DataFile) (fileId : string)
    (status : DownloadStatus) (downloadPath errorMessage : option string)
    (now : string) : DataFile :=
  match findIndex (fun f => String.eqb (f_id f) fileId) (d_files dataFile) with
  | Some fileIndex =>
      with_files dataFile
        (alter (set_status status downloadPath errorMessage now) fileIndex
               (d_files dataFile))
  | None => dataFile
  end.

(** [getFilesToDownload()]. *)
Definition getFilesToDownload (opts : DownloadManagerOptions)
    (dataFile : DataFile) : list FileEntry :=
  match resumeExisting opts with
  | Some true =>
      filter (fun f => f_downloadStatus f = pending
                       \/ f_downloadStatus f = failed) (d_files dataFile)
  | _ => filter_status pending (d_files dataFile)
  end.

Definition concurrency_of (opts : DownloadManagerOptions) : Z :=
  num_or (download_field concurrency (config opts)) 3.

(** [group?.handle || file.groupId] of [downloadSingleFile]. *)
Definition groupHandle_of (dataFile : DataFile) (file : FileEntry) : string :=
  match List.find (fun g => String.eqb (g_id g) (f_groupId file))
                  (d_groups dataFile) with
  | Some g => str_or (g_handle g) (f_groupId file)
  | None => f_groupId file
  end.

(** The inner [while] of [downloadWithConcurrency]: start queued jobs while
    a slot is free.  Starting [downloadSingleFile(file)] runs it up to its
    first [await]: the job is marked in-progress and the save is issued. *)
Fixpoint fill (limit : Z) (queue : list FileEntry) (active : list Task)
    (dataFile : DataFile) : list FileEntry * list Task * DataFile :=
  match queue with
  | [] => (queue, active, dataFile)
  | file :: rest =>
      if (Z.of_nat (length active) <? limit)%Z then
        fill limit rest (active ++ [mkTask file SavingStart])
             (updateFileStatus dataFile (f_id file) in_progress None None "")
      else (queue, active, dataFile)
  end.

(** One pass of the outer [while]: the main loop wakes up and refills. *)
Definition refill (opts : DownloadManagerOptions) (m : Manager) : Manager :=
  let '(queue', active', dataFile') :=
    fill (concurrency_of opts) (queue m) (active m) (dataFile m) in
  {| dataFile := dataFile'; stats := stats m; queue := queue';
     active := active'; disk := disk m |}.

(** What settles while the main loop awaits [Promise.race(active)]: the
    operation that the in-flight execution [active[i]] is suspended on.
    The awaited operation takes effect on the disk when it settles: a save
    writes the snapshot as it is then, a transfer runs its attempts then. *)
Inductive Event :=
  | SaveSettled (i : nat) (env : SaveEnv)
  | TransferSettled (i : nat) (peer : Z -> Remote) (now : string).

Definition add_failed (s : DownloadStats) : DownloadStats :=
  {| total := total s; s_completed := s_completed s;
     s_failed := (s_failed s + 1)%Z; skipped := skipped s;
     s_totalSize := s_totalSize s; downloadedSize := downloadedSize s |}.

Definition add_completed (s : DownloadStats) (size : Z) : DownloadStats :=
  {| total := total s; s_completed := (s_completed s + 1)%Z;
     s_failed := s_failed s; skipped := skipped s;
     s_totalSize := s_totalSize s;
     downloadedSize := (downloadedSize s + size)%Z |}.

(** The [catch] block of [downloadSingleFile], after which the execution
    is over; [now] is not read because no download path is passed. *)
Definition catch_failure (m : Manager) (file : FileEntry) (error : JsError)
    (disk' : FS) : Manager :=
  {| dataFile :=
       updateFileStatus (dataFile m) (f_id file) failed None
                        (Some (e_message error)) "";
     stats := add_failed (stats m);
     queue := queue m; active := active m; disk := disk' |}.

(** [active.splice(index, 1)] in the [then] callback. *)
Definition remove_active (i : nat) (m : Manager) : Manager :=
  {| dataFile := dataFile m; stats := stats m; queue := queue m;
     active := delete i (active m); disk := disk m |}.

(** The execution moves on to its next suspension point. *)
Definition set_task_phase (ph : phase) (t : Task) : Task :=
  mkTask (t_file t) ph.

Definition set_phase (i : nat) (p : phase) (m : Manager) : Manager :=
  {| dataFile := dataFile m; stats := stats m; queue := queue m;
     active := alter (set_task_phase p) i (active m);
     disk := disk m |}.

(** The status update after [downloadFileWithRetry] returned [result]. *)
Definition record_result (m : Manager) (file : FileEntry)
    (result : DownloadResult) (now : string) (disk' : FS) : Manager :=
  if r_success result then
    {| dataFile :=
         updateFileStatus (dataFile m) (f_id file) completed
                          (r_downloadPath result) None now;
       stats := add_completed (stats m) (f_size file);
       queue := queue m; active := active m; disk := disk' |}
  else
    {| dataFile :=
         updateFileStatus (dataFile m) (f_id file) failed None
                          (r_error result) now;
       stats := add_failed (stats m);
       queue := queue m; active := active m; disk := disk' |}.

(** One step of the run: execution [i] resumes with what settled, runs to
    its next [await] or to its end; when it ends it leaves [active] and
    the main loop refills.  [None]: the event does not match what
    [active[i]] is waiting for. *)
Definition step (opts : DownloadManagerOptions) (m : Manager) (ev : Event)
    : option Manager :=
  match ev with
  | SaveSettled i env =>
      match active m !! i with
      | Some (mkTask file SavingStart) =>
          match saveDataFile env (disk m) (dataFilePath opts) (dataFile m)
                             true with
          | (disk', Returned _) =>
              Some (set_phase i Transferring
                      {| dataFile := dataFile m; stats := stats m;
                         queue := queue m; active := active m;
                         disk := disk' |})
          | (disk', Thrown error) =>
              Some (refill opts
                      (remove_active i (catch_failure m file error disk')))
          end
      | Some (mkTask file SavingOutcome) =>
          match saveDataFile env (disk m) (dataFilePath opts) (dataFile m)
                             true with
          | (disk', Returned _) =>
              Some (refill opts
                      (remove_active i
                         {| dataFile := dataFile m; stats := stats m;
                            queue := queue m; active := active m;
                            disk := disk' |}))
          | (disk', Thrown error) =>
              Some (refill opts
                      (remove_active i (catch_failure m file error disk')))
          end
      | _ => None
      end
  | TransferSettled i peer now =>
      match active m !! i with
      | Some (mkTask file Transferring) =>
          let '(disk', _, result) :=
            downloadFileWithRetry peer (disk m) file
              (groupHandle_of (dataFile m) file) (config opts) in
          Some (set_phase i SavingOutcome
                  (record_result m file result now disk'))
      | _ => None
      end
  end.

(** The events of a schedule, one after the other. *)
Fixpoint run_events (opts : DownloadManagerOptions) (schedule : list Event)
    (m : Manager) : option Manager :=
  match schedule with
  | [] => Some m
  | ev :: rest =>
      match step opts m ev with
      | Some m' => run_events opts rest m'
      | None => None
      end
  end.

(** The outer [while] condition is false: nothing queued, nothing active. *)
Definition finished (m : Manager) : bool :=
  match queue m, active m with
  | [], [] => true
  | _, _ => false
  end.

(** [this.stats.total = ...; this.stats.totalSize = ...] in [start]. *)
Definition set_totals (s : DownloadStats) (filesToDownload : list FileEntry)
    : DownloadStats :=
  {| total := Z.of_nat (length filesToDownload);
     s_completed := s_completed s; s_failed := s_failed s;
     skipped := skipped s;
     s_totalSize := reduce_size filesToDownload;
     downloadedSize := downloadedSize s |}.

(** The manager when [downloadWithConcurrency(files)] first awaits. *)
Definition begin_run (opts : DownloadManagerOptions) (data : DataFile)
    (st : DownloadStats) (fs : FS) (files : list FileEntry) : Manager :=
  refill opts
    {| dataFile := data; stats := st; queue := files; active := [];
       disk := fs |}.

(** [start()] of a freshly constructed manager.  [schedule] is the order in
    which the awaited operations settle and [finalEnv] what the last save
    meets.  [None]: the schedule does not take the run to its end. *)
Definition start (opts : DownloadManagerOptions) (fs : FS) (now : string)
    (schedule : list Event) (finalEnv : SaveEnv)
    : option (FS * outcome DownloadStats) :=
  match loadDataFile now fs (dataFilePath opts) with
  | Thrown error => Some (fs, Thrown error)
  | Returned data =>
      let filesToDownload := getFilesToDownload opts data in
      match filesToDownload with
      | [] => Some (fs, Returned constructor_stats)
      | _ =>
          let st := set_totals constructor_stats filesToDownload in
          match run_events opts schedule
                           (begin_run opts data st fs filesToDownload) with
          | Some m =>
              if finished m then
                match saveDataFile finalEnv (disk m) (dataFilePath opts)
                                   (dataFile m) true with
                | (disk', Returned _) => Some (disk', Returned (stats m))
                | (disk', Thrown error) => Some (disk', Thrown error)
                end
              else None
          | None => None
          end
      end
  end.

(** ** Secret store ([storage/encryption.ts]) *)

(** What the module takes from [node:crypto] and [Buffer].  Byte buffers
    are strings of code units below 256. *)
Class Crypto := {
  Key : Type;
  (** [crypto.createHash('sha256').update(s).digest()] *)
  sha256 : string -> string;
  (** [crypto.pbkdf2Sync(keyMaterial, salt, 100000, 32, 'sha256')] *)
  pbkdf2Sync : string -> string -> Key;
  (** AES-256-GCM under [key] and [iv]: the ciphertext that
      [update]/[final] produce and the tag of [getAuthTag()] *)
  gcm_encrypt : Key -> string -> string -> string * string;
  (** the decipher with [setAuthTag(tag)]: the plaintext, or [None] when
      [createDecipheriv], [setAuthTag], [update] or [final] throw *)
  gcm_decrypt : Key -> string -> string -> string -> option string;
  (** [buffer.toString('base64')] *)
  to_base64 : string -> string;
  (** [Buffer.from(s, 'base64')] *)
  from_base64 : string -> string
}.

Section SecretStore.
Context `{Crypto}.

(** The result of [getMachineId()], which reads the host name and the
    network interfaces. *)
Variable machineId : string.

(** [deriveKey(password?)]. *)
Definition deriveKey (password : option string) : Key :=
  let salt := sha256 machineId in
  let keyMaterial := str_or password machineId in
  pbkdf2Sync keyMaterial salt.

(** [encrypt(data, password?)]; [iv] is [crypto.randomBytes(IV_LENGTH)].
    The base64 pieces of [cipher.update] and [cipher.final] make up the
    base64 text of the whole ciphertext. *)
Definition encrypt (iv : string) (data : string) (password : option string)
    : string :=
  let key := deriveKey password in
  let '(encrypted, authTag) := gcm_encrypt key iv data in
  to_base64 iv +:+ ":" +:+ to_base64 authTag +:+ ":" +:+ to_base64 encrypted.

Definition InvalidFormat : JsError :=
  mkError "Error" "Invalid encrypted data format" None.

(** What the decipher throws when it rejects its input; the message is
    the one of a tag that does not verify. *)
Definition AuthenticationFailure : JsError :=
  mkError "Error" "Unsupported state or unable to authenticate data" None.

(** [decrypt(encryptedData, password?)]. *)
Definition decrypt (encryptedData : string) (password : option string)
    : outcome string :=
  let key := deriveKey password in
  match split_on ":" encryptedData with
  | [ivBase64; authTagBase64; encryptedBase64] =>
      let iv := from_base64 ivBase64 in
      let authTag := from_base64 authTagBase64 in
      let encrypted := from_base64 encryptedBase64 in
      match gcm_decrypt key iv (from_base64 (to_base64 encrypted))
                        authTag with
      | Some decrypted => Returned decrypted
      | None => Thrown AuthenticationFailure
      end
  | _ => Thrown InvalidFormat
  end.
End SecretStore.

(** The laws that hold of the real primitives: base64 decodes what it
    encoded and has no colon in its alphabet, and the decipher returns the
    plaintext when given the key, nonce, ciphertext and tag of the cipher. *)
Class CryptoLaws (C : Crypto) : Prop := {
  base64_round_trip : forall b, from_base64 (to_base64 b) = b;
  base64_no_colon : forall b, split_on ":" (to_base64 b) = [to_base64 b];
  gcm_round_trip :
    forall key iv data,
      gcm_decrypt key iv (fst (gcm_encrypt key iv data))
                  (snd (gcm_encrypt key iv data)) = Some data
}.

(** A symbolic instance of the interface, to run the module on: the key
    is the key material, the ciphertext is the plaintext, the tag is the
    key, and bytes are encoded by escaping the colon. *)
Fixpoint escape_colon (s : string) : string :=
  match s with
  | EmptyString => EmptyString
  | String c rest =>
      if Ascii.eqb c ":" then String "%" (String "c" (escape_colon rest))
      else if Ascii.eqb c "%" then String "%" (String "%" (escape_colon rest))
      else String c (escape_colon rest)
  end.

Fixpoint unescape_colon (s : string) : string :=
  match s with
  | EmptyString => EmptyString
  | String c rest =>
      if Ascii.eqb c "%" then
        match rest with
        | String d rest' =>
            String (if Ascii.eqb d "c" then ":"%char else d)
                   (unescape_colon rest')
        | EmptyString => String c EmptyString
        end
      else String c (unescape_colon rest)
  end.

Definition symbolic_crypto : Crypto :=
  {| Key := string;
     sha256 := fun s => s;
     pbkdf2Sync := fun keyMaterial _ => keyMaterial;
     gcm_encrypt := fun key _ data => (data, key);
     gcm_decrypt := fun key _ encrypted authTag =>
       if String.eqb authTag key then Some encrypted else None;
     to_base64 := escape_colon;
     from_base64 := unescape_colon |}.

(** Scenario 3, on the symbolic instance. *)
Definition sealed_hello : string :=
  @encrypt symbolic_crypto "host-1" "nonce" "hello world" (Some "pw").

(** ** Vocabulary of the properties, and the scenarios they are run on *)

(** The discovery-owned fields of [r] are those of [file]. *)
Definition descriptive_from (r file : FileEntry) : Prop :=
  f_id r = f_id file /\ f_groupId r = f_groupId file
  /\ f_name r = f_name file /\ f_size r = f_size file
  /\ f_mimeType r = f_mimeType file /\ f_extension r = f_extension file
  /\ f_telegramFileId r = f_telegramFileId file
  /\ f_messageId r = f_messageId file
  /\ f_uploadedAt r = f_uploadedAt file
  /\ f_discoveredAt r = f_discoveredAt file.

(** The scheduler-owned fields of [r] are those of [prior]. *)
Definition download_state_from (r prior : FileEntry) : Prop :=
  f_downloadStatus r = f_downloadStatus prior
  /\ f_downloadedAt r = f_downloadedAt prior
  /\ f_downloadPath r = f_downloadPath prior
  /\ f_errorMessage r = f_errorMessage prior.

(** The record of scenario 2: job ["g1:10"], first stored as completed
    with size 100, then rediscovered with size 120. *)
Definition stored_g1_10 : FileEntry :=
  mkFile "g1:10" "g1" "report.pdf" 100 (Some "application/pdf")
         (Some ".pdf") "doc-1" 10 None "2024-01-01T00:00:00.000Z"
         completed (Some "2024-01-02T00:00:00.000Z")
         (Some "/srv/downloads/g1/report.pdf") None.

Definition incoming_g1_10 : FileEntry :=
  mkFile "g1:10" "g1" "report-v2.pdf" 120 (Some "application/pdf")
         (Some ".pdf") "doc-1" 10 None "2024-01-03T00:00:00.000Z"
         pending None None None.

Definition snapshot_of (files : list FileEntry) : DataFile :=
  mkDataFile DATA_VERSION "2024-01-01T00:00:00.000Z"
             "2024-01-01T00:00:00.000Z" [] files
             (mkStatistics 0 0 0 0 0 0 0).

(** The recomputation as the design document words it: sums and counts
    over the files collection, by recursion on the list. *)
Fixpoint sum_of_sizes (files : list FileEntry) : Z :=
  match files with
  | [] => 0
  | f :: rest => f_size f + sum_of_sizes rest
  end%Z.

Fixpoint count_with_status (status : DownloadStatus) (files : list FileEntry)
    : Z :=
  match files with
  | [] => 0
  | f :: rest =>
      (if decide (f_downloadStatus f = status) then 1 else 0)
      + count_with_status status rest
  end%Z.

Fixpoint sum_of_completed_sizes (files : list FileEntry) : Z :=
  match files with
  | [] => 0
  | f :: rest =>
      (if decide (f_downloadStatus f = completed) then f_size f else 0)
      + sum_of_completed_sizes rest
  end%Z.

Definition recompute (groups : list TelegramGroup) (files : list FileEntry)
    : Statistics :=
  {| totalGroups := Z.of_nat (length groups);
     totalFiles := Z.of_nat (length files);
     totalSize := sum_of_sizes files;
     pendingFiles := count_with_status pending files;
     completedFiles := count_with_status completed files;
     failedFiles := count_with_status failed files;
     totalDownloadedSize := sum_of_completed_sizes files |}.

Definition quiet_env : SaveEnv :=
  mkSaveEnv NoFault "2024-01-01T00:00:00.000Z" "2024-01-01T00:00:00.000Z"
            1704067200000.

(** A snapshot whose stored statistics are stale. *)
Definition stale_snapshot : DataFile :=
  mkDataFile DATA_VERSION "2024-01-01T00:00:00.000Z"
             "2024-01-01T00:00:00.000Z" [] [stored_g1_10; incoming_g1_10]
             (mkStatistics 7 7 7 7 7 7 7).

(** [p] sorts no later than [q]. *)
Definition path_le (p q : Path) : Prop :=
  String.leb (path_string p) (path_string q) = true.

(** [name] is a backup of [filePath] present on disk. *)
Definition is_backup (fs : FS) (filePath : Path) (name : string) : Prop :=
  is_Some (fs !! (path_dirname filePath, name))
  /\ String.prefix (path_basename filePath +:+ ".backup.") name = true.

(** [name] is the backup whose file name is greatest in code-unit order. *)
Definition latest_backup (fs : FS) (filePath : Path) (name : string) : Prop :=
  is_backup fs filePath name
  /\ forall other, is_backup fs filePath other ->
                   String.leb other name = true.

(** Scenario 5, with an older second backup beside the named one. *)
Definition backup_2024 : string := "data.json.backup.2024-01-01T00-00-00-000Z".
Definition backup_2023 : string := "data.json.backup.2023-06-30T12-00-00-000Z".

Definition corrupted_disk : FS :=
  <[("data", "data.json") := Blob "{ version: "]>
    (<[("data", backup_2023) := Json (snapshot_of [])]>
       (<[("data", backup_2024) := Json (snapshot_of [stored_g1_10])]> ∅)).




Definition job_of_100 : FileEntry :=
  mkFile "g1:7" "g1" "archive.zip" 100 None None "doc-7" 7 None
         "2024-01-01T00:00:00.000Z" pending None None None.

Definition sample_config : Configuration :=
  mkConfig (Some (mkSettings (Some "/srv/downloads") (Some true)
                             (Some false) (Some 524288%Z) (Some 3%Z)
                             (Some 3%Z) (Some 5000%Z))).

(** The file system after the first [n] attempts, numbered from [attempt],
    have all run. *)
Fixpoint fs_after (n : nat) (attempt : Z) (peer : Z -> Remote) (fs : FS)
    (file : FileEntry) (groupHandle : string) (config : Configuration) : FS :=
  match n with
  | O => fs
  | S n' =>
      fs_after n' (attempt + 1)%Z peer
        (fst (downloadFile (peer attempt) fs file groupHandle config))
        file groupHandle config
  end.

(** The result of the attempt that follows [n] earlier ones. *)
Definition result_after (n : nat) (attempt : Z) (peer : Z -> Remote)
    (fs : FS) (file : FileEntry) (groupHandle : string)
    (config : Configuration) : DownloadResult :=
  snd (downloadFile (peer (attempt + Z.of_nat n)%Z)
         (fs_after n attempt peer fs file groupHandle config)
         file groupHandle config).

(** [k] attempts numbered from [attempt], a delay of [ms] between two
    consecutive ones and none after the last. *)
Fixpoint attempts_with_delays (k : nat) (attempt ms : Z) : list RetryEvent :=
  match k with
  | O => []
  | S O => [Attempt attempt]
  | S k' =>
      Attempt attempt :: Delay ms :: attempts_with_delays k' (attempt + 1)%Z ms
  end.

Definition is_attempt (ev : RetryEvent) : bool :=
  match ev with Attempt _ => true | Delay _ => false end.

(** Two attempts, a quarter of a second apart. *)
Definition two_tries : Configuration :=
  mkConfig (Some (mkSettings (Some "/srv/downloads") (Some true)
                             (Some false) None None (Some 2%Z)
                             (Some 250%Z))).

(** A negative number of attempts. *)
Definition no_tries : Configuration :=
  mkConfig (Some (mkSettings (Some "/srv/downloads") (Some true)
                             (Some false) None None (Some (-1)%Z) None)).

(** Attempts 1 and 2 fail, attempt 3 delivers the three declared bytes. *)
Definition flaky_peer (attempt : Z) : Remote :=
  if (attempt <? 3)%Z then NoBuffer else Media "abc".

Definition job_of_3 : FileEntry :=
  mkFile "g1:8" "g1" "note.txt" 3 None None "doc-8" 8 None
         "2024-01-01T00:00:00.000Z" pending None None None.

(** The first record with [id], the one [updateFileStatus] addresses. *)
Definition record_at (files : list FileEntry) (id : string)
    : option FileEntry :=
  List.find (fun f => String.eqb (f_id f) id) files.

Definition status_at (files : list FileEntry) (id : string)
    : option DownloadStatus :=
  f_downloadStatus <$> record_at files id.

Definition task_id (t : Task) : string := f_id (t_file t).

(** The job is over: completed or failed. *)
Definition done_status (st : option DownloadStatus) : Prop :=
  st = Some completed \/ st = Some failed.

(** The status an execution suspended at [ph] has left on its job. *)
Definition phase_expects (ph : phase) (st : DownloadStatus) : Prop :=
  match ph with
  | SavingStart | Transferring => st = in_progress
  | SavingOutcome => st = completed \/ st = failed
  end.

Definition phase_ok (files : list FileEntry) (t : Task) : Prop :=
  exists st, status_at files (task_id t) = Some st
             /\ phase_expects (t_phase t) st.

(** The ids the run still owns: queued or in flight. *)
Definition owned (queue : list FileEntry) (active : list Task) : list string :=
  (f_id <$> queue) ++ (task_id <$> active).

(** Where each job of the run is, and what the snapshot says of it: queued
    jobs are not in-progress, a job in flight has the status its phase
    expects, and a candidate that is neither queued nor in flight is
    done. *)
Record Inv (ids0 cand_ids : list string)
    (files : list FileEntry) (queue : list FileEntry) (active : list Task)
    : Prop := mkInv {
  inv_ids : f_id <$> files = ids0;
  inv_nodup : NoDup (owned queue active);
  inv_known : forall id, id ∈ owned queue active -> id ∈ ids0;
  inv_queue :
    Forall (fun f => status_at files (f_id f) <> Some in_progress) queue;
  inv_active : Forall (phase_ok files) active;
  inv_cover :
    forall id, id ∈ cand_ids ->
               id ∈ owned queue active \/ done_status (status_at files id)
}.

Definition Tracked (ids0 cand_ids : list string) (m : Manager) : Prop :=
  Inv ids0 cand_ids (d_files (dataFile m)) (queue m) (active m).

Definition phase_weight (t : Task) : nat :=
  match t_phase t with
  | SavingStart => 3
  | Transferring => 2
  | SavingOutcome => 1
  end.

Definition work_left (queue : list FileEntry) (active : list Task) : nat :=
  3 * length queue + sum_list_with phase_weight active.

(** The state between two events: no more executions in flight than the
    bound, and every slot taken while jobs are queued. *)
Definition Slots (opts : DownloadManagerOptions) (m : Manager) : Prop :=
  (Z.of_nat (length (active m)) <= concurrency_of opts)%Z
  /\ (queue m <> [] -> Z.of_nat (length (active m)) = concurrency_of opts).

Definition work (m : Manager) : nat := work_left (queue m) (active m).

(** The candidate jobs that the snapshot shows as in-progress. *)
Definition in_progress_candidates (candidates : list FileEntry) (m : Manager)
    : list FileEntry :=
  filter (fun r => f_downloadStatus r = in_progress
                   /\ f_id r ∈ (f_id <$> candidates))
         (d_files (dataFile m)).

(** [after] is [before] with no record changed but those of [ids]: the
    same ids in the same places, and every record whose id is not in
    [ids] as it was. *)
Definition changed_only (ids : list string) (before after : list FileEntry)
    : Prop :=
  Forall2 (fun r0 r => f_id r = f_id r0 /\ (f_id r0 ∉ ids -> r = r0))
          before after.

(** Scenario 1: five pending jobs, concurrency 2. *)
Definition pending_job (n : Z) : FileEntry :=
  mkFile ("g1:" +:+ show_Z n) "g1" ("file-" +:+ show_Z n +:+ ".bin") 3
         None None "doc" n None "2024-01-01T00:00:00.000Z" pending
         None None None.

Definition five_pending : DataFile :=
  snapshot_of [pending_job 1; pending_job 2; pending_job 3; pending_job 4;
               pending_job 5].

Definition two_at_a_time : DownloadManagerOptions :=
  mkOptions
    (mkConfig (Some (mkSettings None None None None (Some 2%Z) None None)))
    ("data", "data.json") None None.

(** Job 1 is saved, transferred and saved again; then job 2's first save
    fails, which frees its slot for job 3. *)
Definition sample_schedule : list Event :=
  [SaveSettled 0 quiet_env;
   TransferSettled 0 (fun _ => Media "abc") "2024-01-01T00:00:05.000Z";
   SaveSettled 0 quiet_env;
   SaveSettled 0
     (mkSaveEnv (WriteFault (mkError "Error" "ENOSPC: no space left" None))
                "2024-01-01T00:00:06.000Z" "2024-01-01T00:00:06.000Z" 6)].

(** A job of declared size 3 whose output is already on disk, holding a
    single byte. *)
Definition already_there : FS :=
  <[("/srv/downloads/g1", "note.txt") := Blob "x"]>
    (<[("data", "data.json") := Json (snapshot_of [job_of_3])]> ∅).

Definition sample_options : DownloadManagerOptions :=
  mkOptions sample_config ("data", "data.json") None None.

Definition ENOSPC : JsError :=
  mkError "Error" "ENOSPC: no space left on device, write" (Some "ENOSPC").

Definition full_disk_env : SaveEnv :=
  mkSaveEnv (WriteFault ENOSPC) "2024-01-01T00:00:02.000Z"
            "2024-01-01T00:00:02.000Z" 1704067202000.

Definition one_job_disk : FS :=
  <[("data", "data.json") := Json (snapshot_of [job_of_3])]> ∅.

(** The run over that disk when it first awaits: the job is in flight,
    waiting for its first save. *)
Definition one_job_started : Manager :=
  begin_run sample_options (snapshot_of [job_of_3])
            (set_totals constructor_stats [job_of_3]) one_job_disk [job_of_3].

(** The files of the snapshot stored at [p]. *)
Definition stored_files (fs : FS) (p : Path) : list FileEntry :=
  match fs !! p with
  | Some (Json d) => d_files d
  | _ => []
  end.

(** A manager with one execution waiting for its first save, on an empty
    disk. *)
Definition waiting_for_save : Manager :=
  {| dataFile :=
       snapshot_of [set_status in_progress None None "" job_of_3];
     stats := set_totals constructor_stats [job_of_3];
     queue := [];
     active := [mkTask job_of_3 SavingStart];
     disk := ∅ |}.

(** One download at a time. *)
Definition one_at_a_time : DownloadManagerOptions :=
  mkOptions
    (mkConfig (Some (mkSettings None None None None (Some 1%Z) None None)))
    ("data", "data.json") None None.

Definition resume_options : DownloadManagerOptions :=
  mkOptions sample_config ("data", "data.json") None (Some true).

(** First run: the peer never delivers the message, all attempts fail. *)
Definition failing_schedule : list Event :=
  [SaveSettled 0 quiet_env;
   TransferSettled 0 (fun _ => NoMessages) "2024-01-01T00:00:20.000Z";
   SaveSettled 0 quiet_env].

(** Second run, in resume mode: the three declared bytes arrive. *)
Definition succeeding_schedule : list Event :=
  [SaveSettled 0 quiet_env;
   TransferSettled 0 (fun _ => Media "abc") "2024-01-02T00:00:05.000Z";
   SaveSettled 0 quiet_env].

(** Every completed record of [files] has a download path. *)
Definition completed_have_path (files : list FileEntry) : Prop :=
  Forall (fun r => f_downloadStatus r = completed ->
                   truthy_opt (f_downloadPath r) = true) files.

(** What the snapshot stored at [p] says about each job. *)
Definition stored_states (fs : FS) (p : Path)
    : list (DownloadStatus * option string * option string) :=
  (fun f => (f_downloadStatus f, f_downloadPath f, f_errorMessage f))
    <$> stored_files fs p.

(** ** Vocabulary of the further properties *)

(** The ids of a snapshot's job records, in their stored order. *)
Definition file_ids (dataFile : DataFile) : list string :=
  f_id <$> d_files dataFile.

(** The first group with [id], the one [downloadSingleFile] looks up. *)
Definition group_at (groups : list TelegramGroup) (id : string)
    : option TelegramGroup :=
  List.find (fun g => String.eqb (g_id g) id) groups.

(** The records [upsertFile] leaves, by recursion on the stored records
    instead of by index; [upsertFile_files] relates the two. *)
Fixpoint upsert_at_first (files : list FileEntry) (file : FileEntry)
    : list FileEntry :=
  match files with
  | [] => [file]
  | f :: rest =>
      if String.eqb (f_id f) (f_id file) then merge_file file f :: rest
      else f :: upsert_at_first rest file
  end.

(** The same for [upsertGroup]. *)
Fixpoint upsert_group_at_first (groups : list TelegramGroup)
    (group : TelegramGroup) : list TelegramGroup :=
  match groups with
  | [] => [group]
  | g :: rest =>
      if String.eqb (g_id g) (g_id group) then group :: rest
      else g :: upsert_group_at_first rest group
  end.

(** The two [for ... of] loops of [discoverFiles] ([discovery/index.ts])
    that carry the scan into the snapshot. *)
Definition upsert_groups (dataFile : DataFile) (groups : list TelegramGroup)
    : DataFile :=
  fold_left upsertGroup groups dataFile.

Definition upsert_files (dataFile : DataFile) (files : list FileEntry)
    : DataFile :=
  fold_left upsertFile files dataFile.

(** A snapshot that holds [stored_g1_10] and a pending job. *)
Definition small_store : DataFile :=
  snapshot_of [stored_g1_10; job_of_3].

Definition group_g1 (handle : option string) : TelegramGroup :=
  mkGroup "g1" handle "Group one" supergroup None "77"
          "2024-01-01T00:00:00.000Z".

(** The two paths beside [filePath] that a save under [env] writes: the
    temporary file of [atomicWrite] and the copy of [createBackup]. *)
Definition temp_path_of (env : SaveEnv) (filePath : Path) : Path :=
  path_suffix filePath (".tmp." +:+ show_Z (tmp_millis env)).

Definition backup_path_of (env : SaveEnv) (filePath : Path) : Path :=
  path_suffix filePath
    (".backup." +:+ replace_colon_dot (backup_stamp env)).

(** A later save of [small_store] over the scenario disk, which holds an
    older backup. *)
Definition later_env : SaveEnv :=
  mkSaveEnv NoFault "2024-03-01T08:30:00.000Z" "2024-03-01T08:30:00.000Z"
            1709281800000.

Definition disk_with_backup : FS :=
  <[("data", "data.json") := Json (snapshot_of [stored_g1_10])]>
    (<[("data", backup_2023) := Json (snapshot_of [])]> ∅).

(** Every code unit of [s] satisfies [p]. *)
Fixpoint every_char (p : ascii -> bool) (s : string) : bool :=
  match s with
  | EmptyString => true
  | String c rest => p c && every_char p rest
  end.




(** The temporary file of a transfer: [`${outputPath}.part`]. *)
Definition part_path (config : Configuration) (file : FileEntry)
    (groupHandle : string) : Path :=
  path_suffix (output_path config file groupHandle) ".part".

(** Two jobs of one group whose names differ only in how a blank is
    written. *)
Definition job_with_blank : FileEntry :=
  mkFile "g1:21" "g1" "my file.txt" 3 None None "doc-21" 21 None
         "2024-01-01T00:00:00.000Z" pending None None None.

Definition job_with_underscore : FileEntry :=
  mkFile "g1:22" "g1" "my_file.txt" 5 None None "doc-22" 22 None
         "2024-01-01T00:00:00.000Z" pending None None None.

(** [after] lists the records of [before] in the same order, each with
    its discovery-owned fields unchanged. *)
Definition same_catalogue (before after : list FileEntry) : Prop :=
  Forall2 (fun r r' => descriptive_from r' r) before after.

(** A snapshot with a job of each status, as an interrupted run leaves
    it. *)
Definition interrupted_job : FileEntry :=
  mkFile "g1:9" "g1" "draft.txt" 4 None None "doc-9" 9 None
         "2024-01-01T00:00:00.000Z" in_progress None None None.

Definition interrupted_store : DataFile :=
  snapshot_of [stored_g1_10; interrupted_job; job_of_3].

(** The executions in flight that have recorded their outcome and await
    the save that follows it. *)
Definition recorded (active : list Task) : nat :=
  sum_list_with
    (fun t => match t_phase t with SavingOutcome => 1 | _ => 0 end)%nat
    active.

(** The jobs of the run that are over: neither queued nor in flight. *)
Definition settled (m : Manager) : Z :=
  (total (stats m) - Z.of_nat (length (queue m))
   - Z.of_nat (length (active m)))%Z.

(** The outcomes the statistics have counted. *)
Definition counted (m : Manager) : Z :=
  (s_completed (stats m) + s_failed (stats m))%Z.

(** Every job that is over or has recorded its outcome is counted at
    least once and at most twice, and at most once as completed. *)
Definition Accounted (m : Manager) : Prop :=
  (settled m + Z.of_nat (recorded (active m)) <= counted m
   <= 2 * settled m + Z.of_nat (recorded (active m)))%Z
  /\ (0 <= s_completed (stats m)
      <= settled m + Z.of_nat (recorded (active m)))%Z
  /\ (0 <= s_failed (stats m))%Z.

(** Every such job is counted exactly once. *)
Definition Counted_once (m : Manager) : Prop :=
  counted m = (settled m + Z.of_nat (recorded (active m)))%Z.

(** The save that settles meets no I/O fault. *)
Definition save_unfaulted (ev : Event) : Prop :=
  match ev with
  | SaveSettled _ env => fault env = NoFault
  | TransferSettled _ _ _ => True
  end.

(** One job: it is transferred, and the save after it meets a full
    disk. *)
Definition outcome_save_fails : list Event :=
  [SaveSettled 0 quiet_env;
   TransferSettled 0 (fun _ => Media "abc") "2024-01-01T00:00:05.000Z";
   SaveSettled 0 full_disk_env].

(** ** Configuration ([types/config.ts]), the other sections *)

Record GroupFilters := mkGroupFilters {
  gf_include : option (list string);
  gf_exclude : option (list string)
}.

(** [maxSize?: number | null]: absent, [null], or a number. *)
Record FileFilters := mkFileFilters {
  ff_include : option (list string);
  ff_exclude : option (list string);
  minSize : option Z;
  maxSize : option (option Z)
}.

Record SessionSettings := mkSessionSettings {
  encryptSession : option bool;
  sessionTimeout : option Z
}.

(** The whole [Configuration] object.  Its [download] section is kept in
    the record [Configuration] above, which is all the download engine
    reads. *)
Record ConfigurationFile := mkConfigurationFile {
  c_groups : option GroupFilters;
  c_files : option FileFilters;
  c_download : Configuration;
  c_session : option SessionSettings
}.

(** [config.groups?.include] and the like. *)
Definition groups_field (field : GroupFilters -> option (list string))
    (config : ConfigurationFile) : option (list string) :=
  match c_groups config with Some g => field g | None => None end.

Definition files_field {A} (field : FileFilters -> option A)
    (config : ConfigurationFile) : option A :=
  match c_files config with Some f => field f | None => None end.

(** ** Configuration validation ([config/validator.ts]) *)

(** [new ValidationError(message, code)]. *)
Definition ValidationError (message code : string) : JsError :=
  mkError "ValidationError" message (Some code).

(** Sequencing of calls that may throw. *)
Definition and_then {A B} (first : outcome A) (next : A -> outcome B)
    : outcome B :=
  match first with
  | Returned a => next a
  | Thrown e => Thrown e
  end.

(** The class [[a-zA-Z0-9_]]. *)
Definition handle_char (c : ascii) : bool :=
  let n := nat_of_ascii c in
  ((97 <=? n) && (n <=? 122) || (65 <=? n) && (n <=? 90)
   || (48 <=? n) && (n <=? 57) || (n =? 95))%nat%bool.

(** [/^[a-zA-Z0-9_]+$/.test(handle)]. *)
Definition handlePattern_test (handle : string) : bool :=
  truthy handle && every_char handle_char handle.

Definition double_quote : string := String (ascii_of_nat 34) EmptyString.

(** [validateHandles(handles)]. *)
Fixpoint validateHandles (handles : list string) : outcome unit :=
  match handles with
  | [] => Returned tt
  | handle :: rest =>
      if negb (handlePattern_test handle) then
        Thrown (ValidationError
                  ("Invalid group handle format: " +:+ double_quote +:+
                   handle +:+ double_quote +:+
                   ". Handles must contain only letters, numbers, and " +:+
                   "underscores.")
                  "INVALID_HANDLE")
      else validateHandles rest
  end.

(** [s.trim()] on code units below 256, where white space and line
    terminators make up the class of [space_char]. *)
Fixpoint trimStart (s : string) : string :=
  match s with
  | String c rest => if space_char c then trimStart rest else s
  | EmptyString => EmptyString
  end.

Fixpoint trimEnd (s : string) : string :=
  match s with
  | EmptyString => EmptyString
  | String c rest =>
      match trimEnd rest with
      | EmptyString => if space_char c then EmptyString else String c EmptyString
      | kept => String c kept
      end
  end.

Definition trim (s : string) : string := trimEnd (trimStart s).

(** [validateGlobPatterns(patterns)]. *)
Fixpoint validateGlobPatterns (patterns : list string) : outcome unit :=
  match patterns with
  | [] => Returned tt
  | pattern :: rest =>
      if (String.length (trim pattern) =? 0)%nat then
        Thrown (ValidationError "Empty glob pattern is not allowed"
                                "INVALID_PATTERN")
      else validateGlobPatterns rest
  end.

(** [validatePaths(config)]. *)
Definition validatePaths (config : ConfigurationFile) : outcome unit :=
  match download_field outputDir (c_download config) with
  | Some dir =>
      if (truthy dir && (String.length (trim dir) =? 0)%nat)%bool then
        Thrown (ValidationError "Download output directory cannot be empty"
                                "INVALID_PATH")
      else Returned tt
  | None => Returned tt
  end.

(** [checkLargeExcludeList(config)]. *)
Definition checkLargeExcludeList (config : ConfigurationFile) : list string :=
  (match groups_field gf_exclude config with
   | Some exclude =>
       if (50 <? length exclude)%nat then
         ["Large exclude list (" +:+ show_Z (Z.of_nat (length exclude)) +:+
          " groups) may impact performance"]
       else []
   | None => []
   end ++
   match files_field ff_exclude config with
   | Some exclude =>
       if (100 <? length exclude)%nat then
         ["Large file exclude list (" +:+
          show_Z (Z.of_nat (length exclude)) +:+
          " patterns) may impact performance"]
       else []
   | None => []
   end)%list.

(** [checkConflictingRules(config)]. *)
Definition checkConflictingRules (config : ConfigurationFile) : list string :=
  match groups_field gf_include config, groups_field gf_exclude config with
  | Some include, Some exclude =>
      if ((0 <? length include)%nat && (0 <? length exclude)%nat)%bool then
        ["Both include and exclude lists specified for groups. " +:+
         "Include list will take precedence."]
      else []
  | _, _ => []
  end.

(** [if (list) check(list)] for an optional array. *)
Definition when_present (items : option (list string))
    (check : list string -> outcome unit) : outcome unit :=
  match items with
  | Some l => check l
  | None => Returned tt
  end.

(** The four inline checks of [validateConfig], each the condition of its
    [if]. *)
Definition concurrency_out_of_range (config : ConfigurationFile) : bool :=
  match download_field concurrency (c_download config) with
  | Some n => ((n <? 1) || (10 <? n))%Z
  | None => false
  end.

Definition minSize_negative (config : ConfigurationFile) : bool :=
  match files_field minSize config with
  | Some n => (n <? 0)%Z
  | None => false
  end.

Definition maxSize_negative (config : ConfigurationFile) : bool :=
  match files_field maxSize config with
  | Some (Some n) => (n <? 0)%Z
  | _ => false
  end.

Definition minSize_above_maxSize (config : ConfigurationFile) : bool :=
  match files_field minSize config, files_field maxSize config with
  | Some lo, Some (Some hi) => (hi <? lo)%Z
  | _, _ => false
  end.

(** [validateConfig(config)]. *)
Definition validateConfig (config : ConfigurationFile)
    : outcome (list string) :=
  and_then (when_present (groups_field gf_include config) validateHandles)
  (fun _ =>
  and_then (when_present (groups_field gf_exclude config) validateHandles)
  (fun _ =>
  and_then (when_present (files_field ff_include config) validateGlobPatterns)
  (fun _ =>
  and_then (when_present (files_field ff_exclude config) validateGlobPatterns)
  (fun _ =>
  and_then (validatePaths config)
  (fun _ =>
  if concurrency_out_of_range config then
    Thrown (ValidationError "Concurrency must be between 1 and 10"
                            "INVALID_CONCURRENCY")
  else if minSize_negative config then
    Thrown (ValidationError "Minimum file size cannot be negative"
                            "INVALID_FILE_SIZE")
  else if maxSize_negative config then
    Thrown (ValidationError "Maximum file size cannot be negative"
                            "INVALID_FILE_SIZE")
  else if minSize_above_maxSize config then
    Thrown (ValidationError
              ("Minimum file size cannot be greater than maximum " +:+
               "file size")
              "INVALID_FILE_SIZE")
  else
    Returned (checkLargeExcludeList config
              ++ checkConflictingRules config)%list
  ))))).

(** *** What a valid configuration is *)

(** A handle the pattern accepts: not empty, made of ASCII letters, digits
    and underscores. *)
Definition handle_ok (handle : string) : Prop :=
  handle <> ""
  /\ forall c, In c (list_ascii_of_string handle) ->
       let n := nat_of_ascii c in
       (97 <= n <= 122 \/ 65 <= n <= 90 \/ 48 <= n <= 57 \/ n = 95)%nat.

(** A string with nothing but white space in it (the empty string is
    one). *)
Definition blank (s : string) : Prop :=
  forall c, In c (list_ascii_of_string s) -> space_char c = true.

Definition all_of (items : option (list string)) (P : string -> Prop)
    : Prop :=
  match items with
  | Some l => Forall P l
  | None => True
  end.

Record config_ok (config : ConfigurationFile) : Prop := mkConfigOk {
  ok_include_handles : all_of (groups_field gf_include config) handle_ok;
  ok_exclude_handles : all_of (groups_field gf_exclude config) handle_ok;
  ok_include_patterns :
    all_of (files_field ff_include config) (fun p => ~ blank p);
  ok_exclude_patterns :
    all_of (files_field ff_exclude config) (fun p => ~ blank p);
  ok_outputDir :
    forall dir, download_field outputDir (c_download config) = Some dir ->
                dir = "" \/ ~ blank dir;
  ok_concurrency :
    forall n, download_field concurrency (c_download config) = Some n ->
              (1 <= n <= 10)%Z;
  ok_minSize :
    forall n, files_field minSize config = Some n -> (0 <= n)%Z;
  ok_maxSize :
    forall n, files_field maxSize config = Some (Some n) -> (0 <= n)%Z;
  ok_sizes :
    forall lo hi, files_field minSize config = Some lo ->
                  files_field maxSize config = Some (Some hi) ->
                  (lo <= hi)%Z
}.

Definition validation_codes : list string :=
  ["INVALID_HANDLE"; "INVALID_PATTERN"; "INVALID_PATH";
   "INVALID_CONCURRENCY"; "INVALID_FILE_SIZE"].

(** The configuration of the README: two groups, three kinds of files. *)
Definition readme_config : ConfigurationFile :=
  mkConfigurationFile
    (Some (mkGroupFilters (Some ["example_group"; "another_group"])
                          (Some [])))
    (Some (mkFileFilters (Some ["*.pdf"; "*.zip"; "*.tar.gz"])
                         (Some ["*.tmp"; "*.part"]) (Some 0%Z) (Some None)))
    (mkConfig (Some (mkSettings (Some "./data/downloads") (Some true)
                                (Some false) (Some 524288%Z) (Some 3%Z)
                                (Some 3%Z) (Some 5000%Z))))
    (Some (mkSessionSettings (Some true) (Some 86400000%Z))).

(** The include list as [generateDefaultConfigWithComments] writes it,
    handles with their at-sign. *)
Definition generated_config : ConfigurationFile :=
  mkConfigurationFile
    (Some (mkGroupFilters (Some ["@example_group"; "@another_group"])
                          (Some [])))
    (c_files readme_config) (c_download readme_config)
    (c_session readme_config).

(** ** Discovery filters ([discovery/filter.ts]) *)

Section Filters.

(** [String.prototype.toLowerCase()] and
    [minimatch(name, pattern, { nocase: true })], as the engine and the
    minimatch package provide them. *)
Variable toLowerCase : string -> string.
Variable minimatch : string -> string -> bool.

(** [group.handle?.toLowerCase()]. *)
Definition lower_handle (group : TelegramGroup) : option string :=
  option_map toLowerCase (g_handle group).

(** [handles.some((h) => h.toLowerCase() === handle)]. *)
Definition some_handle (handles : list string) (handle : string) : bool :=
  existsb (fun h => String.eqb (toLowerCase h) handle) handles.

(** [handle && include.some(...)]: the include test. *)
Definition in_include (include : list string) (group : TelegramGroup)
    : bool :=
  match lower_handle group with
  | Some handle => truthy handle && some_handle include handle
  | None => false
  end.

(** [!handle || !exclude.some(...)]: the exclude test. *)
Definition not_in_exclude (exclude : list string) (group : TelegramGroup)
    : bool :=
  match lower_handle group with
  | Some handle => negb (truthy handle) || negb (some_handle exclude handle)
  | None => true
  end.

(** [if (list && list.length > 0) filtered = filtered.filter(test)]. *)
Definition filter_when_listed {A} (items : option (list string))
    (test : list string -> A -> bool) (filtered : list A) : list A :=
  match items with
  | Some l => if (0 <? length l)%nat then List.filter (test l) filtered
              else filtered
  | None => filtered
  end.

(** [applyGroupFilters(groups, config)]. *)
Definition applyGroupFilters (groups : list TelegramGroup)
    (config : ConfigurationFile) : list TelegramGroup :=
  let include := groups_field gf_include config in
  let exclude := groups_field gf_exclude config in
  let filtered := groups in
  let filtered := filter_when_listed include in_include filtered in
  let filtered := filter_when_listed exclude not_in_exclude filtered in
  filtered.

(** [include.some((pattern) => minimatch(file.name, pattern, ...))]. *)
Definition some_pattern (patterns : list string) (file : FileEntry) : bool :=
  existsb (fun pattern => minimatch (f_name file) pattern) patterns.

Definition no_pattern (patterns : list string) (file : FileEntry) : bool :=
  negb (some_pattern patterns file).

(** [applyFileFilters(files, config)]. *)
Definition applyFileFilters (files : list FileEntry)
    (config : ConfigurationFile) : list FileEntry :=
  let include := files_field ff_include config in
  let exclude := files_field ff_exclude config in
  let filtered := files in
  let filtered := filter_when_listed include some_pattern filtered in
  let filtered := filter_when_listed exclude no_pattern filtered in
  filtered.

(** [if (list && list.length > 0) return test; ...]: the first list that
    is given and not empty decides. *)
Definition decide_when_listed (items : option (list string))
    (test : list string -> bool) (otherwise : bool) : bool :=
  match items with
  | Some l => if (0 <? length l)%nat then test l else otherwise
  | None => otherwise
  end.

(** [shouldProcessGroup(group, config)]. *)
Definition shouldProcessGroup (group : TelegramGroup)
    (config : ConfigurationFile) : bool :=
  let include := groups_field gf_include config in
  let exclude := groups_field gf_exclude config in
  decide_when_listed include (fun l => in_include l group)
    (decide_when_listed exclude (fun l => not_in_exclude l group) true).

(** [shouldProcessFile(file, config)]. *)
Definition shouldProcessFile (file : FileEntry) (config : ConfigurationFile)
    : bool :=
  let include := files_field ff_include config in
  let exclude := files_field ff_exclude config in
  decide_when_listed include (fun l => some_pattern l file)
    (decide_when_listed exclude (fun l => no_pattern l file) true).

End Filters.

(** The list is given and not empty. *)
Definition listed (items : option (list string)) : Prop :=
  exists l, items = Some l /\ l <> [].

(** A lower-casing of the ASCII letters, and a matcher that knows the
    patterns [*] and [*.ext], to run the filters on. *)
Definition ascii_lower (c : ascii) : ascii :=
  let n := nat_of_ascii c in
  if ((65 <=? n) && (n <=? 90))%nat%bool then ascii_of_nat (n + 32) else c.

Fixpoint ends_with (suffix s : string) : bool :=
  String.eqb suffix s
  || match s with
     | EmptyString => false
     | String _ rest => ends_with suffix rest
     end.

Definition star_match (name pattern : string) : bool :=
  match pattern with
  | String "*" suffix =>
      ends_with (string_map ascii_lower suffix) (string_map ascii_lower name)
  | _ => String.eqb (string_map ascii_lower pattern)
                    (string_map ascii_lower name)
  end.

Definition group_books : TelegramGroup :=
  mkGroup "g1" (Some "Books") "Book club" supergroup None "77"
          "2024-01-01T00:00:00.000Z".

Definition group_spam : TelegramGroup :=
  mkGroup "g2" (Some "spam") "Offers" channel None "78"
          "2024-01-01T00:00:00.000Z".

Definition group_private : TelegramGroup :=
  mkGroup "g3" None "Family" group None "" "2024-01-01T00:00:00.000Z".

(** Both lists given: [spam] is on both. *)
Definition both_lists : ConfigurationFile :=
  mkConfigurationFile
    (Some (mkGroupFilters (Some ["books"; "spam"]) (Some ["spam"])))
    (Some (mkFileFilters (Some ["*.pdf"; "*.txt"]) (Some ["note.txt"])
                         (Some 1000%Z) (Some None)))
    (mkConfig None) None.

Definition lower_case (s : string) : string := string_map ascii_lower s.

Definition scanned_groups : list TelegramGroup :=
  [group_books; group_spam; group_private].

Definition scanned_files : list FileEntry :=
  [incoming_g1_10; job_of_3; job_with_blank].

(** ** File scanner ([discovery/file-scanner.ts]), the extension *)

Definition not_dot (c : ascii) : bool := negb (Ascii.eqb c ".").

(** [[^.]+$] on what follows a dot: one code unit or more up to the end,
    none of them a dot. *)
Definition dot_free_tail (s : string) : bool :=
  truthy s && every_char not_dot s.

(** [getFileExtension(filename)]: [filename.match(/\.([^.]+)$/)] finds the
    leftmost position where the pattern matches, and [match[0]] is the
    text from there on. *)
Fixpoint getFileExtension (filename : string) : option string :=
  match filename with
  | EmptyString => None
  | String c rest =>
      if (Ascii.eqb c "." && dot_free_tail rest)%bool then Some filename
      else getFileExtension rest
  end.

(** ** Discovery orchestrator ([discovery/index.ts]) *)

Record DiscoveryOptions := mkDiscoveryOptions {
  o_configPath : option string;
  o_dataFilePath : option Path;
  o_update : option bool;
  o_groupsOnly : option bool;
  o_showProgress : option bool
}.

Record DiscoveryResult := mkDiscoveryResult {
  dr_groups : list TelegramGroup;
  dr_files : list FileEntry;
  dr_dataFile : DataFile
}.

(** What one discovery observes from outside: the configuration that
    [loadConfigOrDefault] yields, the clock, what the two scanners yield,
    and what the save meets. *)
Record DiscoveryEnv := mkDiscoveryEnv {
  loaded_config : outcome ConfigurationFile;
  clock : string;
  scanned_dialogs : outcome (list TelegramGroup);
  scanned_in : TelegramGroup -> outcome (list FileEntry);
  save_env : SaveEnv
}.

(** A destructuring default: [{ flag = fallback } = options]. *)
Definition flag_or (flag : option bool) (fallback : bool) : bool :=
  match flag with Some b => b | None => fallback end.

(** [dataFilePath = './data/data.json']. *)
Definition dataFilePath_of (options : DiscoveryOptions) : Path :=
  match o_dataFilePath options with
  | Some p => p
  | None => ("./data", "data.json")
  end.

(** The scanning loop: a group whose scan throws is logged and passed
    over. *)
Definition scan_all (env : DiscoveryEnv) (groups : list TelegramGroup)
    : list FileEntry :=
  flat_map (fun group =>
              match scanned_in env group with
              | Returned files => files
              | Thrown _ => []
              end) groups.

Section Discovery.
Variable toLowerCase : string -> string.
Variable minimatch : string -> string -> bool.

(** [discoverFiles(client, options)]; its [catch] logs and rethrows.  The
    progress display is not modelled. *)
Definition discoverFiles (env : DiscoveryEnv) (fs : FS)
    (options : DiscoveryOptions) : FS * outcome DiscoveryResult :=
  let dataFilePath := dataFilePath_of options in
  let update := flag_or (o_update options) false in
  let groupsOnly := flag_or (o_groupsOnly options) false in
  match loaded_config env with
  | Thrown error => (fs, Thrown error)
  | Returned config =>
      match (if update then loadDataFile (clock env) fs dataFilePath
             else Returned (createDataFile (clock env))) with
      | Thrown error => (fs, Thrown error)
      | Returned dataFile =>
          match scanned_dialogs env with
          | Thrown error => (fs, Thrown error)
          | Returned allGroups =>
              let filteredGroups :=
                applyGroupFilters toLowerCase allGroups config in
              let dataFile := upsert_groups dataFile filteredGroups in
              if groupsOnly then
                match saveDataFile (save_env env) fs dataFilePath dataFile
                                   true with
                | (fs', Returned _) =>
                    (fs', Returned (mkDiscoveryResult filteredGroups []
                                                      dataFile))
                | (fs', Thrown error) => (fs', Thrown error)
                end
              else
                let allFiles := scan_all env filteredGroups in
                let filteredFiles :=
                  applyFileFilters minimatch allFiles config in
                let dataFile := upsert_files dataFile filteredFiles in
                match saveDataFile (save_env env) fs dataFilePath dataFile
                                   update with
                | (fs', Returned _) =>
                    (fs', Returned (mkDiscoveryResult filteredGroups
                                      filteredFiles dataFile))
                | (fs', Thrown error) => (fs', Thrown error)
                end
          end
      end
  end.

End Discovery.

(** A discovery over the scenario disk: group g1 is scanned and yields
    the rediscovered job and a new one, the scan of g2 is refused. *)
Definition FloodError : JsError :=
  mkError "Error" "A wait of 30 seconds is required" None.

Definition sample_discovery : DiscoveryEnv :=
  mkDiscoveryEnv
    (Returned (mkConfigurationFile None None (mkConfig None) None))
    "2024-03-01T08:30:00.000Z"
    (Returned [group_books; group_spam])
    (fun group =>
       if String.eqb (g_id group) "g1"
       then Returned [incoming_g1_10; job_with_blank]
       else Thrown FloodError)
    later_env.

Definition update_run : DiscoveryOptions :=
  mkDiscoveryOptions None (Some ("data", "data.json")) (Some true) None None.

Definition fresh_run : DiscoveryOptions :=
  mkDiscoveryOptions None (Some ("data", "data.json")) None None None.

(** The download state of every record of [files] is the one some entry
    of [incoming] with its id came with. *)
Definition state_as_scanned (incoming files : list FileEntry) : Prop :=
  forall r, r ∈ files ->
    exists f, f ∈ incoming /\ f_id f = f_id r /\ download_state_from r f.

(** ** Session file ([storage/session-file.ts]) *)

Record SessionFile := mkSessionFile {
  sf_version : string;
  sf_createdAt : string;
  sf_lastUsedAt : string;
  sf_sessionString : string;
  sf_userId : option string;
  sf_phoneNumber : option string
}.

Definition SESSION_FILENAME : string := "telegram-session.enc".

(** [path.join(sessionPath, SESSION_FILENAME)]. *)
Definition session_file (sessionPath : string) : Path :=
  path_join sessionPath SESSION_FILENAME.

(** [sessionData.lastUsedAt = now]. *)
Definition with_lastUsedAt (session : SessionFile) (now : string)
    : SessionFile :=
  {| sf_version := sf_version session;
     sf_createdAt := sf_createdAt session;
     sf_lastUsedAt := now;
     sf_sessionString := sf_sessionString session;
     sf_userId := sf_userId session;
     sf_phoneNumber := sf_phoneNumber session |}.

(** What one call observes from outside: a fault of [fs.writeFile] or
    [fs.unlink], the bytes of [crypto.randomBytes], the clock. *)
Record SessionEnv := mkSessionEnv {
  session_fault : option JsError;
  session_iv : string;
  used_at : string
}.

(** [sessionExists(sessionPath)]. *)
Definition sessionExists (fs : FS) (sessionPath : string) : bool :=
  fileExists fs (session_file sessionPath).

(** [deleteSession(sessionPath)]; its [catch] logs and rethrows. *)
Definition deleteSession (env : SessionEnv) (fs : FS) (sessionPath : string)
    : FS * outcome unit :=
  let filePath := session_file sessionPath in
  if fileExists fs filePath then
    match session_fault env with
    | Some error => (fs, Thrown error)
    | None => (delete filePath fs, Returned tt)
    end
  else (fs, Returned tt).

Section SessionStore.
Context `{Crypto}.
Variable machineId : string.

(** [JSON.stringify(session, null, 2)] and [JSON.parse] at type
    [SessionFile], and the text of a serialised snapshot. *)
Variable session_stringify : SessionFile -> string.
Variable session_parse : string -> outcome SessionFile.
Variable snapshot_text : DataFile -> string.

(** [fs.readFile(filePath, 'utf-8')]. *)
Definition readFile (fs : FS) (p : Path) : outcome string :=
  match fs !! p with
  | Some (Blob text) => Returned text
  | Some (Json d) => Returned (snapshot_text d)
  | None => Thrown ENOENT
  end.

(** [saveSession(sessionPath, session, encrypted, password)]; directories
    are implicit, so [ensureDir] has nothing to do. *)
Definition saveSession (env : SessionEnv) (fs : FS) (sessionPath : string)
    (session : SessionFile) (encrypted : bool) (password : option string)
    : FS * outcome unit :=
  let filePath := session_file sessionPath in
  let content := session_stringify session in
  let dataToWrite :=
    if encrypted then encrypt machineId (session_iv env) content password
    else content in
  match session_fault env with
  | Some error => (fs, Thrown error)
  | None => (<[filePath := Blob dataToWrite]> fs, Returned tt)
  end.

(** [loadSession(sessionPath, encrypted, password)]: [None] is [null]. *)
Definition loadSession (env : SessionEnv) (fs : FS) (sessionPath : string)
    (encrypted : bool) (password : option string)
    : FS * outcome (option SessionFile) :=
  let filePath := session_file sessionPath in
  if negb (fileExists fs filePath) then (fs, Returned None)
  else
    match and_then (readFile fs filePath)
            (fun content =>
               if encrypted then
                 and_then (decrypt machineId content password) session_parse
               else session_parse content) with
    | Thrown error => (fs, Thrown error)
    | Returned sessionData =>
        let sessionData := with_lastUsedAt sessionData (used_at env) in
        match saveSession env fs sessionPath sessionData encrypted
                          password with
        | (fs', Returned _) => (fs', Returned (Some sessionData))
        | (fs', Thrown error) => (fs', Thrown error)
        end
    end.

End SessionStore.

(** A line-per-field text form of a session, to run the store on. *)
Definition optional_line (field : option string) : string :=
  match field with
  | Some s => "=" +:+ s
  | None => ""
  end.

Definition line_of_optional (line : string) : option string :=
  match line with
  | String "=" s => Some s
  | _ => None
  end.

Definition session_lines (session : SessionFile) : string :=
  sf_version session +:+ "|" +:+ sf_createdAt session +:+ "|" +:+
  sf_lastUsedAt session +:+ "|" +:+ sf_sessionString session +:+ "|" +:+
  optional_line (sf_userId session) +:+ "|" +:+
  optional_line (sf_phoneNumber session).

Definition session_of_lines (text : string) : outcome SessionFile :=
  match split_on "|" text with
  | [version; createdAt; lastUsedAt; sessionString; userId; phoneNumber] =>
      Returned (mkSessionFile version createdAt lastUsedAt sessionString
                              (line_of_optional userId)
                              (line_of_optional phoneNumber))
  | _ => Thrown SyntaxError
  end.

Definition sample_session : SessionFile :=
  mkSessionFile "1.0.0" "2024-01-01T00:00:00.000Z"
                "2024-01-01T00:00:00.000Z" "1BQANOTEuMTA4" (Some "4242")
                (Some "+***6789").

Definition quiet_session_env (iv now : string) : SessionEnv :=
  mkSessionEnv None iv now.

(** ** Jobs whose output is already on the disk *)

Fixpoint sum_Z_with {A} (f : A -> Z) (l : list A) : Z :=
  match l with
  | [] => 0%Z
  | x :: rest => (f x + sum_Z_with f rest)%Z
  end.

(** An execution in flight that has not recorded its outcome yet. *)
Definition unrecorded (t : Task) : bool :=
  match t_phase t with
  | SavingOutcome => false
  | _ => true
  end.

(** The number and the declared size of the jobs of a run whose outcome
    is still to be recorded: the queued ones and the unrecorded ones in
    flight. *)
Definition open_count (m : Manager) : Z :=
  (Z.of_nat (length (queue m))
   + sum_Z_with (fun t => if unrecorded t then 1 else 0) (active m))%Z.

Definition open_size (m : Manager) : Z :=
  (sum_of_sizes (queue m)
   + sum_Z_with (fun t => if unrecorded t then f_size (t_file t) else 0)
                (active m))%Z.

(** A state of a run over candidates whose outputs were all on the disk
    [fs0]: nothing has failed, the disk is as [fs0] outside the directory
    of the data file, and every job whose outcome is recorded was counted
    as completed with its declared size. *)
Definition all_there (opts : DownloadManagerOptions) (data : DataFile)
    (fs0 : FS) (m : Manager) : Prop :=
  let candidates := getFilesToDownload opts data in
  d_groups (dataFile m) = d_groups data
  /\ (forall q, path_dirname q <> path_dirname (dataFilePath opts) ->
                disk m !! q = fs0 !! q)
  /\ (forall f, f ∈ queue m -> f ∈ candidates)
  /\ (forall t, t ∈ active m -> t_file t ∈ candidates)
  /\ stats m
     = mkStats (Z.of_nat (length candidates))
               (Z.of_nat (length candidates) - open_count m)%Z 0 0
               (reduce_size candidates)
               (reduce_size candidates - open_size m)%Z.

(** The retry count is not negative, overwriting is off, and the output
    of every candidate is on the disk [fs0], in a directory other than
    the one of the data file. *)
Definition outputs_there (opts : DownloadManagerOptions) (data : DataFile)
    (fs0 : FS) : Prop :=
  (forall n, download_field retryAttempts (config opts) = Some n ->
             (0 <= n)%Z)
  /\ download_flag overwriteExisting (config opts) = false
  /\ forall f, f ∈ getFilesToDownload opts data ->
       output_exists fs0 (config opts) f (groupHandle_of data f) = true
       /\ path_dirname (output_path (config opts) f (groupHandle_of data f))
          <> path_dirname (dataFilePath opts).

(** Two jobs whose outputs are on the disk, and a run that takes both to
    their end whatever the peer would do. *)
Definition both_there : FS :=
  <[("/srv/downloads/g1", "note.txt") := Blob "x"]>
    (<[("/srv/downloads/g1", "archive.zip") := Blob "y"]>
       (<[("data", "data.json") := Json (snapshot_of [job_of_3; job_of_100])]>
          ∅)).

Definition both_schedule : list Event :=
  [SaveSettled 0 quiet_env;
   SaveSettled 1 quiet_env;
   TransferSettled 0 (fun _ => NoMessages) "2024-01-01T00:00:01.000Z";
   TransferSettled 1 (fun _ => NoMessages) "2024-01-01T00:00:02.000Z";
   SaveSettled 0 quiet_env;
   SaveSettled 0 quiet_env].

Definition no_tries_options : DownloadManagerOptions :=
  mkOptions no_tries ("data", "data.json") None None.

(** A job whose name sanitises to the empty string, and the settings of
    [sample_config] with overwriting on. *)
Definition dotted_job : FileEntry :=
  mkFile "g1:30" "g1" "..." 3 None None "doc-30" 30 None
         "2024-01-01T00:00:00.000Z" pending None None None.

Definition overwriting_config : Configuration :=
  mkConfig (Some (mkSettings (Some "/srv/downloads") (Some true)
                             (Some true) (Some 524288%Z) (Some 3%Z)
                             (Some 3%Z) (Some 5000%Z))).

(* ===================================================================== *)
(** * Part II: properties                                                 *)
(* ===================================================================== *)

(** ** Array helpers *)

Section FindIndex.
Context {A : Type} (pred : A -> bool).

Lemma findIndex_Some (arr : list A) (i : nat) :
  findIndex pred arr = Some i ->
  exists x, arr !! i = Some x /\ pred x = true
            /\ forall j y, (j < i)%nat -> arr !! j = Some y -> pred y = false.
Proof.
  revert i. induction arr as [|a arr IH]; intros i; simpl; [discriminate|].
  destruct (pred a) eqn:Ha.
  - intros [= <-]. exists a. repeat split; auto. intros j y Hj. lia.
  - destruct (findIndex pred arr) as [k|]; simpl; [|discriminate].
    intros [= <-]. destruct (IH k eq_refl) as (x & Hx & Hp & Hlt).
    exists x. repeat split; auto.
    intros [|j] y Hj; simpl; [congruence|]. apply Hlt. lia.
Qed.

Lemma findIndex_None (arr : list A) :
  findIndex pred arr = None -> forall x, In x arr -> pred x = false.
Proof.
  induction arr as [|a arr IH]; simpl; [tauto|].
  destruct (pred a) eqn:Ha; [discriminate|].
  destruct (findIndex pred arr); simpl; [discriminate|].
  intros _ x [<-|Hx]; auto.
Qed.

Lemma findIndex_is_Some (arr : list A) (x : A) :
  In x arr -> pred x = true -> exists i, findIndex pred arr = Some i.
Proof.
  intros Hin Hp. destruct (findIndex pred arr) as [i|] eqn:E; eauto.
  rewrite (findIndex_None arr E x Hin) in Hp. discriminate.
Qed.
End FindIndex.

(** ** Merge-preserving upsert *)

Lemma merge_file_fields (file prior : FileEntry) :
  descriptive_from (merge_file file prior) file
  /\ download_state_from (merge_file file prior) prior.
Proof. unfold descriptive_from, download_state_from. simpl. tauto. Qed.

Lemma upsertFile_present (dataFile : DataFile) (file : FileEntry) :
  In (f_id file) (map f_id (d_files dataFile)) ->
  exists i prior,
    d_files dataFile !! i = Some prior
    /\ f_id prior = f_id file
    /\ (forall j y, (j < i)%nat -> d_files dataFile !! j = Some y ->
                    f_id y <> f_id file)
    /\ d_files (upsertFile dataFile file)
       = <[i := merge_file file prior]> (d_files dataFile).
Proof.
  intros Hin. apply in_map_iff in Hin as (x & Hid & Hx).
  destruct (findIndex_is_Some (fun f => String.eqb (f_id f) (f_id file))
              (d_files dataFile) x Hx) as [i Hi].
  { apply String.eqb_eq. exact Hid. }
  destruct (findIndex_Some _ _ _ Hi) as (prior & Hl & Hp & Hlt).
  exists i, prior. unfold upsertFile. rewrite Hi, Hl. simpl.
  repeat split; auto.
  - apply String.eqb_eq. exact Hp.
  - intros j y Hj Hy Heq. specialize (Hlt j y Hj Hy).
    apply String.eqb_neq in Hlt. contradiction.
Qed.

Lemma upsertFile_absent (dataFile : DataFile) (file : FileEntry) :
  ~ In (f_id file) (map f_id (d_files dataFile)) ->
  d_files (upsertFile dataFile file) = (d_files dataFile ++ [file])%list.
Proof.
  intros Hnot. unfold upsertFile.
  destruct (findIndex _ _) as [i|] eqn:Hi; [|reflexivity].
  destruct (findIndex_Some _ _ _ Hi) as (prior & Hl & Hp & _).
  exfalso. apply Hnot. apply in_map_iff. exists prior. split.
  - apply String.eqb_eq. exact Hp.
  - apply list_elem_of_In. eapply list_elem_of_lookup_2. exact Hl.
Qed.

(** C3.  Upserting an entry whose id is already stored replaces, at the
    first record with that id, the descriptive fields by the incoming ones
    and keeps that record's downloadStatus, downloadedAt, downloadPath and
    errorMessage; every other record is untouched.  An entry with a new id
    is appended as given.  Upserting "g1:10" with size 120 over a completed
    record of size 100 gives a completed record of size 120. *)
Theorem upsertFile_merges (dataFile : DataFile) (file : FileEntry) :
  (In (f_id file) (map f_id (d_files dataFile)) ->
   exists i prior merged,
     d_files dataFile !! i = Some prior
     /\ f_id prior = f_id file
     /\ (forall j y, (j < i)%nat -> d_files dataFile !! j = Some y ->
                     f_id y <> f_id file)
     /\ d_files (upsertFile dataFile file) !! i = Some merged
     /\ descriptive_from merged file
     /\ download_state_from merged prior
     /\ length (d_files (upsertFile dataFile file))
        = length (d_files dataFile)
     /\ (forall j, j <> i ->
           d_files (upsertFile dataFile file) !! j = d_files dataFile !! j))
  /\ (~ In (f_id file) (map f_id (d_files dataFile)) ->
      d_files (upsertFile dataFile file) = (d_files dataFile ++ [file])%list)
  /\ (exists r,
        d_files (upsertFile (snapshot_of [stored_g1_10]) incoming_g1_10) = [r]
        /\ f_downloadStatus r = completed /\ f_size r = 120%Z).
Proof.
  split; [|split].
  - intros Hin.
    destruct (upsertFile_present dataFile file Hin)
      as (i & prior & Hl & Hid & Hfirst & Heq).
    exists i, prior, (merge_file file prior). rewrite Heq.
    destruct (merge_file_fields file prior) as [Hd Hs].
    repeat split; try assumption; try apply Hd; try apply Hs.
    + apply list_lookup_insert_eq. eapply lookup_lt_Some. exact Hl.
    + apply length_insert.
    + intros j Hj. apply list_lookup_insert_ne. congruence.
  - apply upsertFile_absent.
  - eexists. split; [reflexivity|]. split; reflexivity.
Qed.

Lemma upsertFile_merges_witness :
  exists i prior merged,
    d_files (snapshot_of [stored_g1_10]) !! i = Some prior
    /\ d_files (upsertFile (snapshot_of [stored_g1_10]) incoming_g1_10) !! i
       = Some merged
    /\ f_size merged = 120%Z
    /\ f_downloadStatus merged = f_downloadStatus prior.
Proof.
  destruct (upsertFile_merges (snapshot_of [stored_g1_10]) incoming_g1_10)
    as [Hpresent _].
  destruct Hpresent as (i & prior & merged & H1 & _ & _ & H4 & H5 & H6 & _).
  - simpl. left. reflexivity.
  - exists i, prior, merged. repeat split; try assumption.
    + destruct H5 as (_ & _ & _ & -> & _). reflexivity.
    + apply H6.
Defined.

(** ** Statistics are recomputed at save time *)

Lemma fold_left_size_acc (files : list FileEntry) (acc : Z) :
  fold_left (fun sum file => (sum + f_size file)%Z) files acc
  = (acc + sum_of_sizes files)%Z.
Proof.
  revert acc. induction files as [|f files IH]; intros acc; simpl.
  - lia.
  - rewrite IH. lia.
Qed.

Lemma reduce_size_sum (files : list FileEntry) :
  reduce_size files = sum_of_sizes files.
Proof. unfold reduce_size. rewrite fold_left_size_acc. lia. Qed.

Lemma filter_status_count (status : DownloadStatus) (files : list FileEntry) :
  Z.of_nat (length (filter_status status files))
  = count_with_status status files.
Proof.
  unfold filter_status. induction files as [|f files IH]; simpl; [reflexivity|].
  rewrite filter_cons. destruct (decide (f_downloadStatus f = status)); simpl.
  - rewrite Nat2Z.inj_succ, IH. lia.
  - rewrite IH. lia.
Qed.

Lemma filter_completed_sum (files : list FileEntry) :
  sum_of_sizes (filter_status completed files) = sum_of_completed_sizes files.
Proof.
  unfold filter_status. induction files as [|f files IH]; simpl; [reflexivity|].
  rewrite filter_cons.
  destruct (decide (f_downloadStatus f = completed)); simpl.
  - rewrite IH. reflexivity.
  - rewrite IH. lia.
Qed.

Lemma updateStatistics_recompute (dataFile : DataFile) (now : string) :
  d_statistics (updateStatistics dataFile now)
  = recompute (d_groups dataFile) (d_files dataFile).
Proof.
  unfold updateStatistics, recompute. simpl.
  rewrite !reduce_size_sum, !filter_status_count, filter_completed_sum.
  reflexivity.
Qed.

(** A save that returns leaves at [filePath] the snapshot with recomputed
    statistics. *)
Lemma saveDataFile_written (env : SaveEnv) (fs fs' : FS) (filePath : Path)
    (dataFile : DataFile) (createBackupFirst : bool) :
  saveDataFile env fs filePath dataFile createBackupFirst
    = (fs', Returned tt) ->
  fs' !! filePath = Some (Json (updateStatistics dataFile (update_stamp env))).
Proof.
  unfold saveDataFile.
  destruct (if (createBackupFirst && fileExists fs filePath)%bool
            then createBackup env fs filePath else (fs, Returned ""))
    as [fs1 [b|e]]; [|discriminate].
  unfold atomicWrite.
  destruct (fault env); intros [= <-]; apply lookup_insert_eq.
Qed.

Lemma loadDataFile_Json (now : string) (fs : FS) (filePath : Path)
    (d : DataFile) :
  fs !! filePath = Some (Json d) -> loadDataFile now fs filePath = Returned d.
Proof.
  intros H. unfold loadDataFile, fileExists, read_and_parse. rewrite H.
  reflexivity.
Qed.

(** C2.  A snapshot written by [saveDataFile] and read back by
    [loadDataFile] carries the files it was saved with, and its statistics
    are the recomputation from those files: totalFiles is their number,
    totalSize the sum of their sizes, pendingFiles, completedFiles and
    failedFiles the counts per status, totalDownloadedSize the sum of the
    sizes of the completed ones.  The statistics the caller passed in play
    no part. *)
Theorem saved_statistics_recomputed (env : SaveEnv) (fs fs' : FS)
    (filePath : Path) (dataFile : DataFile) (createBackupFirst : bool)
    (now : string) :
  saveDataFile env fs filePath dataFile createBackupFirst
    = (fs', Returned tt) ->
  exists loaded,
    loadDataFile now fs' filePath = Returned loaded
    /\ d_files loaded = d_files dataFile
    /\ d_statistics loaded = recompute (d_groups loaded) (d_files loaded)
    /\ totalFiles (d_statistics loaded) = Z.of_nat (length (d_files loaded))
    /\ totalSize (d_statistics loaded) = sum_of_sizes (d_files loaded)
    /\ pendingFiles (d_statistics loaded)
       = count_with_status pending (d_files loaded)
    /\ completedFiles (d_statistics loaded)
       = count_with_status completed (d_files loaded)
    /\ failedFiles (d_statistics loaded)
       = count_with_status failed (d_files loaded)
    /\ totalDownloadedSize (d_statistics loaded)
       = sum_of_completed_sizes (d_files loaded).
Proof.
  intros Hsave. apply saveDataFile_written in Hsave.
  exists (updateStatistics dataFile (update_stamp env)).
  split; [apply loadDataFile_Json; exact Hsave|].
  split; [reflexivity|].
  rewrite updateStatistics_recompute. simpl. repeat split; reflexivity.
Qed.

Lemma saved_statistics_recomputed_witness :
  exists loaded,
    loadDataFile "2024-01-01T00:00:01.000Z"
      (fst (saveDataFile quiet_env ∅ ("data", "data.json") stale_snapshot true))
      ("data", "data.json") = Returned loaded
    /\ d_statistics loaded = mkStatistics 0 2 220 1 1 0 100.
Proof.
  destruct (saved_statistics_recomputed quiet_env ∅
              (fst (saveDataFile quiet_env ∅ ("data", "data.json")
                      stale_snapshot true))
              ("data", "data.json") stale_snapshot true
              "2024-01-01T00:00:01.000Z")
    as (loaded & Hload & Hfiles & Hstat & _).
  - reflexivity.
  - exists loaded. split; [exact Hload|].
    rewrite Hstat, Hfiles.
    assert (Hg : d_groups loaded = []).
    { vm_compute in Hload. injection Hload as <-. reflexivity. }
    rewrite Hg. reflexivity.
Defined.

(** ** Loading and backup recovery *)

(** *** The order [sort()] uses *)

Lemma ascii_compare_refl (c : ascii) : Ascii.compare c c = Eq.
Proof. unfold Ascii.compare. apply N.compare_refl. Qed.

Lemma string_leb_prefix (p a b : string) :
  String.leb (p +:+ a) (p +:+ b) = String.leb a b.
Proof.
  unfold String.leb. induction p as [|c p IH]; simpl; [reflexivity|].
  rewrite ascii_compare_refl. exact IH.
Qed.

Lemma string_compare_trans_le (a b c : string) :
  String.compare a b <> Gt -> String.compare b c <> Gt ->
  String.compare a c <> Gt.
Proof.
  revert b c. induction a as [|x a IH]; intros [|y b] [|z c]; simpl;
    try congruence.
  unfold Ascii.compare.
  destruct (N.compare_spec (N_of_ascii x) (N_of_ascii y)) as [Hxy|Hxy|Hxy];
    destruct (N.compare_spec (N_of_ascii y) (N_of_ascii z)) as [Hyz|Hyz|Hyz];
    destruct (N.compare_spec (N_of_ascii x) (N_of_ascii z)) as [Hxz|Hxz|Hxz];
    try congruence; try lia.
  apply IH.
Qed.

Lemma string_leb_trans (a b c : string) :
  String.leb a b = true -> String.leb b c = true -> String.leb a c = true.
Proof.
  unfold String.leb. intros Hab Hbc.
  assert (H : String.compare a c <> Gt).
  { apply (string_compare_trans_le a b c).
    - destruct (String.compare a b); congruence.
    - destruct (String.compare b c); congruence. }
  destruct (String.compare a c); congruence.
Qed.

Lemma string_app_inv_head (p a b : string) : p +:+ a = p +:+ b -> a = b.
Proof.
  induction p as [|c p IH]; simpl; [tauto|]. intros [= H]. auto.
Qed.

Lemma path_le_same_dir (dir a b : string) :
  path_le (dir, a) (dir, b) <-> String.leb a b = true.
Proof.
  unfold path_le, path_string. simpl.
  rewrite !string_leb_prefix. reflexivity.
Qed.

Lemma path_le_trans (p q r : Path) : path_le p q -> path_le q r -> path_le p r.
Proof. apply string_leb_trans. Qed.

Lemma path_le_total (p q : Path) : path_le p q \/ path_le q p.
Proof. apply String.leb_total. Qed.

(** *** Insertion sort sorts *)

Lemma insert_sorted_perm (p : Path) (l : list Path) :
  Permutation (insert_sorted p l) (p :: l).
Proof.
  induction l as [|q l IH]; simpl; [reflexivity|].
  destruct (String.leb (path_string p) (path_string q)); [reflexivity|].
  rewrite IH. apply perm_swap.
Qed.

Lemma sort_paths_perm (l : list Path) : Permutation (sort_paths l) l.
Proof.
  induction l as [|p l IH]; simpl; [reflexivity|].
  rewrite insert_sorted_perm. apply perm_skip. exact IH.
Qed.

Lemma insert_sorted_sorted (p : Path) (l : list Path) :
  StronglySorted path_le l -> StronglySorted path_le (insert_sorted p l).
Proof.
  induction 1 as [|q l Hs IH Hq]; simpl.
  - constructor; constructor.
  - destruct (String.leb (path_string p) (path_string q)) eqn:E.
    + constructor; [constructor; assumption|].
      constructor; [exact E|].
      eapply Forall_impl; [exact Hq|]. intros r Hr.
      eapply path_le_trans; [exact E|exact Hr].
    + constructor; [exact IH|].
      rewrite insert_sorted_perm. constructor; [|exact Hq].
      destruct (path_le_total p q) as [H|H]; [|exact H].
      unfold path_le in H. congruence.
Qed.

Lemma sort_paths_sorted (l : list Path) : StronglySorted path_le (sort_paths l).
Proof.
  induction l as [|p l IH]; simpl; [constructor|].
  apply insert_sorted_sorted. exact IH.
Qed.

Lemma sorted_last_greatest (l : list Path) (m : Path) :
  StronglySorted path_le l -> last l = Some m ->
  forall x, In x l -> path_le x m.
Proof.
  induction 1 as [|q l Hs IH Hq]; simpl; [discriminate|].
  intros Hlast x [<-|Hx].
  - destruct l as [|r l]; simpl in Hlast.
    + injection Hlast as <-. destruct (path_le_total q q); assumption.
    + rewrite Forall_forall in Hq. apply Hq.
      eapply last_Some_elem_of. exact Hlast.
  - destruct l as [|r l]; [destruct Hx|]. apply IH; assumption.
Qed.

(** *** What [readdir] lists *)

Lemma readdir_spec (fs : FS) (dir name : string) :
  In name (readdir fs dir) <-> is_Some (fs !! (dir, name)).
Proof.
  unfold readdir. rewrite in_map_iff. split.
  - intros ([d n] & <- & Hin). simpl.
    apply list_elem_of_In, list_elem_of_filter in Hin as [Hd Hin].
    simpl in Hd. subst d.
    apply list_elem_of_In, in_map_iff in Hin as ([k c] & Hk & Hin).
    simpl in Hk. subst k.
    apply list_elem_of_In, elem_of_map_to_list in Hin. eauto.
  - intros [c Hc]. exists (dir, name). split; [reflexivity|].
    apply list_elem_of_In, list_elem_of_filter. split; [reflexivity|].
    apply list_elem_of_In, in_map_iff. exists ((dir, name), c).
    split; [reflexivity|].
    apply list_elem_of_In, elem_of_map_to_list. exact Hc.
Qed.

Lemma backup_candidates_spec (fs : FS) (filePath p : Path) :
  In p (map (path_join (path_dirname filePath))
            (List.filter
               (String.prefix (path_basename filePath +:+ ".backup."))
               (readdir fs (path_dirname filePath))))
  <-> exists name, p = (path_dirname filePath, name)
                   /\ is_backup fs filePath name.
Proof.
  rewrite in_map_iff. unfold is_backup. split.
  - intros (name & <- & Hin). apply filter_In in Hin as [Hin Hp].
    apply readdir_spec in Hin. exists name. auto.
  - intros (name & -> & Hs & Hp). exists name. split; [reflexivity|].
    apply filter_In. split; [|exact Hp]. apply readdir_spec. exact Hs.
Qed.

Lemma findLatestBackup_latest (fs : FS) (filePath : Path) (name : string) :
  latest_backup fs filePath name ->
  findLatestBackup fs filePath = Some (path_dirname filePath, name).
Proof.
  intros [Hb Hmax]. unfold findLatestBackup.
  set (cands := map _ _). rewrite head_reverse.
  assert (Hin : In (path_dirname filePath, name) (sort_paths cands)).
  { eapply Permutation_in; [symmetry; apply sort_paths_perm|].
    apply backup_candidates_spec. eauto. }
  destruct (last (sort_paths cands)) as [m|] eqn:Hlast.
  - f_equal.
    assert (Hm : In m cands).
    { eapply Permutation_in; [apply sort_paths_perm|].
      apply list_elem_of_In. eapply last_Some_elem_of. exact Hlast. }
    apply backup_candidates_spec in Hm as (other & -> & Hother).
    f_equal. apply String.leb_antisym.
    + apply Hmax. exact Hother.
    + apply (path_le_same_dir (path_dirname filePath)).
      eapply sorted_last_greatest;
        [apply sort_paths_sorted|exact Hlast|exact Hin].
  - apply last_None in Hlast. rewrite Hlast in Hin. destruct Hin.
Qed.

Lemma findLatestBackup_none (fs : FS) (filePath : Path) :
  (forall name, ~ is_backup fs filePath name) ->
  findLatestBackup fs filePath = None.
Proof.
  intros Hnone. unfold findLatestBackup.
  set (cands := map _ _).
  assert (Hnil : cands = []).
  { destruct cands as [|p l] eqn:E; [reflexivity|]. exfalso.
    assert (Hp : In p cands) by (rewrite E; left; reflexivity).
    apply backup_candidates_spec in Hp as (name & _ & Hb).
    exact (Hnone name Hb). }
  rewrite Hnil. reflexivity.
Qed.

(** C9.  [loadDataFile] returns a fresh empty snapshot when nothing exists
    at the path.  When the file exists but does not parse, it returns what
    parsing yields for the backup whose name starts with
    [<basename>.backup.] and is greatest in lexicographic file-name order
    among the backups in the directory, so that backup's snapshot when it
    holds one.  When there is no backup, the parse error propagates. *)
Theorem loadDataFile_recovery (now : string) (fs : FS) (filePath : Path) :
  (fs !! filePath = None ->
   loadDataFile now fs filePath = Returned (createDataFile now)
   /\ d_groups (createDataFile now) = []
   /\ d_files (createDataFile now) = [])
  /\ (forall raw name,
        fs !! filePath = Some (Blob raw) ->
        latest_backup fs filePath name ->
        loadDataFile now fs filePath
          = read_and_parse fs (path_dirname filePath, name)
        /\ forall d, fs !! (path_dirname filePath, name) = Some (Json d) ->
                     loadDataFile now fs filePath = Returned d)
  /\ (forall raw,
        fs !! filePath = Some (Blob raw) ->
        (forall name, ~ is_backup fs filePath name) ->
        loadDataFile now fs filePath = Thrown SyntaxError).
Proof.
  split; [|split].
  - intros H. unfold loadDataFile, fileExists. rewrite H. simpl. auto.
  - intros raw name H Hlatest.
    assert (Hload : loadDataFile now fs filePath
                    = read_and_parse fs (path_dirname filePath, name)).
    { unfold loadDataFile, fileExists. rewrite H. simpl.
      unfold read_and_parse at 1. rewrite H. simpl.
      rewrite (findLatestBackup_latest fs filePath name Hlatest).
      reflexivity. }
    split; [exact Hload|].
    intros d Hd. rewrite Hload. unfold read_and_parse. rewrite Hd.
    reflexivity.
  - intros raw H Hnone. unfold loadDataFile, fileExists. rewrite H. simpl.
    unfold read_and_parse. rewrite H. simpl.
    rewrite (findLatestBackup_none fs filePath Hnone). reflexivity.
Qed.

Lemma loadDataFile_recovery_witness :
  loadDataFile "2024-02-01T00:00:00.000Z" corrupted_disk ("data", "data.json")
  = Returned (snapshot_of [stored_g1_10])
  /\ loadDataFile "2024-02-01T00:00:00.000Z" ∅ ("data", "data.json")
     = Returned (createDataFile "2024-02-01T00:00:00.000Z")
  /\ loadDataFile "2024-02-01T00:00:00.000Z"
       (<[("data", "data.json") := Blob "{ version: "]> ∅)
       ("data", "data.json")
     = Thrown SyntaxError.
Proof.
  split; [|split].
  - destruct (loadDataFile_recovery "2024-02-01T00:00:00.000Z" corrupted_disk
                ("data", "data.json")) as (_ & Hbackup & _).
    destruct (Hbackup "{ version: " backup_2024) as [_ Hjson].
    + reflexivity.
    + split.
      * split; [|reflexivity]. eexists. reflexivity.
      * intros other [[c Hc] Hp]. simpl in Hc, Hp. unfold corrupted_disk in Hc.
        destruct (decide (other = "data.json")) as [->|N1];
          [discriminate Hp|].
        rewrite lookup_insert_ne in Hc by congruence.
        destruct (decide (other = backup_2023)) as [->|N2]; [reflexivity|].
        rewrite lookup_insert_ne in Hc by congruence.
        destruct (decide (other = backup_2024)) as [->|N3]; [reflexivity|].
        rewrite lookup_insert_ne in Hc by congruence.
        rewrite lookup_empty in Hc. discriminate.
    + apply Hjson. reflexivity.
  - destruct (loadDataFile_recovery "2024-02-01T00:00:00.000Z" ∅
                ("data", "data.json")) as (Hfresh & _).
    apply Hfresh. reflexivity.
  - destruct (loadDataFile_recovery "2024-02-01T00:00:00.000Z"
                (<[("data", "data.json") := Blob "{ version: "]> ∅)
                ("data", "data.json")) as (_ & _ & Hnone).
    apply (Hnone "{ version: "); [reflexivity|].
    intros name [[c Hc] Hp]. simpl in Hc, Hp.
    destruct (decide (name = "data.json")) as [->|N1]; [discriminate Hp|].
    rewrite lookup_insert_ne in Hc by congruence.
    rewrite lookup_empty in Hc. discriminate.
Defined.

(** ** One transfer attempt *)

Lemma string_length_append (a b : string) :
  String.length (a +:+ b) = (String.length a + String.length b)%nat.
Proof. induction a as [|c a IH]; simpl; [reflexivity|]. rewrite IH. lia. Qed.

Lemma string_append_assoc (a b c : string) :
  (a +:+ b) +:+ c = a +:+ b +:+ c.
Proof.
  induction a as [|x a IH]; [reflexivity|].
  change (String x ((a +:+ b) +:+ c) = String x (a +:+ b +:+ c)).
  rewrite IH. reflexivity.
Qed.

Lemma part_path_differs (p : Path) : path_suffix p ".part" <> p.
Proof.
  destruct p as [dir name]. unfold path_suffix. simpl. intros [= H].
  apply (f_equal String.length) in H. rewrite string_length_append in H.
  simpl in H. lia.
Qed.

Lemma split_last_slash_append (s suffix : string) :
  split_last_slash suffix = (None, suffix) ->
  split_last_slash (s +:+ suffix)
  = (fst (split_last_slash s), snd (split_last_slash s) +:+ suffix).
Proof.
  intros Hsuffix. induction s as [|c s IH].
  - change ("" +:+ suffix) with suffix. rewrite Hsuffix. reflexivity.
  - change (String c s +:+ suffix) with (String c (s +:+ suffix)).
    cbn [split_last_slash]. rewrite IH.
    destruct (split_last_slash s) as [[dir|] name]; simpl;
      [reflexivity|]. destruct (Ascii.eqb c "/"); reflexivity.
Qed.

(** Appending a text without a slash to a path appends it to the name:
    the place of [`${p}${suffix}`] is [path_suffix] of the place of [p]. *)
Lemma path_of_string_suffix (s suffix : string) :
  split_last_slash suffix = (None, suffix) ->
  path_of_string (s +:+ suffix) = path_suffix (path_of_string s) suffix.
Proof.
  intros Hsuffix. unfold path_of_string, path_suffix.
  rewrite (split_last_slash_append s suffix Hsuffix).
  destruct (split_last_slash s) as [[[|c dir]|] name]; reflexivity.
Qed.

(** The temp path of a transfer, [`${outputPath}.part`], lies where
    [downloadFile_try] writes it. *)
Lemma part_path_is_appended (config : Configuration) (file : FileEntry)
    (groupHandle : string) :
  path_of_string (outputPath_string config file groupHandle +:+ ".part")
  = part_path config file groupHandle.
Proof. apply path_of_string_suffix. reflexivity. Qed.

Example default_output_directory :
  outputPath_string (mkConfig None) job_of_3 "g1" = "data/downloads/note.txt"
  /\ output_path (mkConfig None) job_of_3 "g1" = ("data/downloads", "note.txt")
  /\ outputPath_string sample_config job_with_blank ""
     = "/srv/downloads/g1/my_file.txt".
Proof. vm_compute. repeat split. Qed.




(** ** The retry loop *)

Lemma attempts_with_delays_count (k : nat) (attempt ms : Z) :
  length (List.filter is_attempt (attempts_with_delays k attempt ms)) = k.
Proof.
  revert attempt. induction k as [|k IH]; intros attempt; [reflexivity|].
  destruct k as [|k]; [reflexivity|].
  change (S (length (List.filter is_attempt
                       (attempts_with_delays (S k) (attempt + 1)%Z ms)))
          = S (S k)).
  rewrite IH. reflexivity.
Qed.

Section RetryLoop.
Variables (maxAttempts retryDelay : Z) (peer : Z -> Remote).
Variables (file : FileEntry) (groupHandle : string) (config : Configuration).

Lemma retry_loop_spec (remaining : nat) (attempt : Z) (fs : FS) :
  remaining = Z.to_nat (maxAttempts - attempt + 1) ->
  exists k,
    (k <= remaining)%nat
    /\ fst (fst (retry_loop remaining attempt maxAttempts retryDelay peer fs
                   file groupHandle config))
       = fs_after k attempt peer fs file groupHandle config
    /\ snd (fst (retry_loop remaining attempt maxAttempts retryDelay peer fs
                   file groupHandle config))
       = attempts_with_delays k attempt retryDelay
    /\ (forall j, (S j < k)%nat ->
          r_success (result_after j attempt peer fs file groupHandle config)
          = false)
    /\ match snd (retry_loop remaining attempt maxAttempts retryDelay peer
                    fs file groupHandle config) with
       | Some result =>
           (1 <= k)%nat /\ r_success result = true
           /\ result = result_after (k - 1) attempt peer fs file groupHandle
                         config
       | None =>
           k = remaining
           /\ forall j, (j < k)%nat ->
                r_success (result_after j attempt peer fs file groupHandle
                             config) = false
       end.
Proof.
  revert attempt fs. induction remaining as [|n IH]; intros attempt fs Hrem.
  - exists 0%nat. simpl. repeat split; auto; intros; lia.
  - simpl.
    destruct (downloadFile (peer attempt) fs file groupHandle config)
      as [fs1 result] eqn:Hdl.
    destruct (r_success result) eqn:Hok.
    + exists 1%nat. simpl. rewrite Hdl. simpl.
      repeat split; auto; try lia.
      unfold result_after. simpl. rewrite Z.add_0_r, Hdl. reflexivity.
    + destruct (IH (attempt + 1)%Z fs1) as (k & Hk & Hfs & Hev & Hfail & Hfin);
        [lia|].
      destruct (retry_loop n (attempt + 1)%Z maxAttempts retryDelay peer fs1
                  file groupHandle config) as [[fs2 events] final] eqn:Hloop.
      simpl in Hfs, Hev, Hfin.
      assert (Hshift : forall j,
                result_after (S j) attempt peer fs file groupHandle config
                = result_after j (attempt + 1)%Z peer fs1 file groupHandle
                               config).
      { intros j. unfold result_after.
        replace (attempt + Z.of_nat (S j))%Z
          with (attempt + 1 + Z.of_nat j)%Z by lia.
        cbn [fs_after]. rewrite Hdl. reflexivity. }
      assert (Hfirst : r_success (result_after 0 attempt peer fs file
                                    groupHandle config) = false).
      { unfold result_after. simpl. rewrite Z.add_0_r, Hdl. exact Hok. }
      destruct k as [|k].
      * (* the loop is over after this attempt *)
        destruct final as [result'|]; [destruct Hfin; lia|].
        destruct Hfin as [Hn _]. subst n.
        assert (Hlast : (attempt <? maxAttempts)%Z = false).
        { apply Z.ltb_ge. lia. }
        rewrite Hlast. exists 1%nat. simpl. rewrite Hdl. simpl.
        split; [lia|]. split; [exact Hfs|].
        split; [rewrite Hev; reflexivity|].
        split; [intros j Hj; lia|]. split; [reflexivity|].
        intros j Hj. assert (j = 0)%nat as -> by lia. exact Hfirst.
      * assert (Hmore : (attempt <? maxAttempts)%Z = true).
        { apply Z.ltb_lt. lia. }
        rewrite Hmore. exists (S (S k)). simpl. rewrite Hdl. simpl.
        split; [lia|]. split; [exact Hfs|].
        split; [rewrite Hev; reflexivity|].
        split.
        -- intros [|j] Hj; [exact Hfirst|]. rewrite Hshift.
           apply Hfail. lia.
        -- destruct final as [result'|].
           ++ destruct Hfin as (_ & Hs & Hr). split; [lia|].
              split; [exact Hs|]. rewrite Hr.
              simpl. rewrite Nat.sub_0_r.
              destruct k as [|k]; [symmetry; apply Hshift|].
              symmetry. apply Hshift.
           ++ destruct Hfin as [Hn Hall]. split; [lia|].
              intros [|j] Hj; [exact Hfirst|]. rewrite Hshift.
              apply Hall. lia.
Qed.
End RetryLoop.

Lemma attempts_with_delays_last (k : nat) (attempt ms : Z) :
  last (attempts_with_delays (S k) attempt ms)
  = Some (Attempt (attempt + Z.of_nat k)).
Proof.
  revert attempt. induction k as [|k IH]; intros attempt.
  - simpl. rewrite Z.add_0_r. reflexivity.
  - change (attempts_with_delays (S (S k)) attempt ms)
      with (Attempt attempt :: Delay ms
              :: attempts_with_delays (S k) (attempt + 1) ms).
    assert (Hnext : last (attempts_with_delays (S k) (attempt + 1) ms)
                    = Some (Attempt (attempt + Z.of_nat (S k)))).
    { rewrite IH. f_equal. f_equal. lia. }
    destruct (attempts_with_delays (S k) (attempt + 1) ms) as [|ev evs];
      [discriminate|].
    exact Hnext.
Qed.

Lemma attempts_with_delays_fixed (k : nat) (attempt ms : Z) :
  Forall (fun ev => is_attempt ev = true \/ ev = Delay ms)
         (attempts_with_delays k attempt ms).
Proof.
  revert attempt. induction k as [|k IH]; intros attempt; [constructor|].
  destruct k as [|k].
  - repeat constructor.
  - change (attempts_with_delays (S (S k)) attempt ms)
      with (Attempt attempt :: Delay ms
              :: attempts_with_delays (S k) (attempt + 1) ms).
    constructor; [left; reflexivity|].
    constructor; [right; reflexivity|]. apply IH.
Qed.

(** C6, amended.  [downloadFileWithRetry] always returns a result (it has
    no throwing path).  With [maxAttempts] the configured [retryAttempts],
    or 3 when that is absent or 0, and [delay] the configured
    [retryDelay], or 5000 when that is absent or 0: it makes [k] attempts,
    numbered from 1, where [k] is at most [maxAttempts] and at least 0;
    between two consecutive attempts it waits [delay], every time the
    same, and the last thing it does is an attempt, not a wait.  Every
    attempt but the last one made has failed, and a successful result is
    the result of the last attempt made, so the first success ends the
    loop.  A failed result means that [max(0, maxAttempts)] attempts were
    made and all failed; its message is "Failed after <maxAttempts>
    attempts", which is the number of attempts made when [maxAttempts] is
    at least 1.  When [retryAttempts] is negative no attempt is made, the
    disk is untouched and the result is that failure, naming the negative
    number. *)
Theorem retry_policy (peer : Z -> Remote) (fs : FS) (file : FileEntry)
    (groupHandle : string) (config : Configuration) :
  let maxAttempts :=
    match download_field retryAttempts config with
    | Some n => if (n =? 0)%Z then 3%Z else n
    | None => 3%Z
    end in
  let delay :=
    match download_field retryDelay config with
    | Some ms => if (ms =? 0)%Z then 5000%Z else ms
    | None => 5000%Z
    end in
  exists k fs' result,
    downloadFileWithRetry peer fs file groupHandle config
      = (fs', attempts_with_delays k 1 delay, result)
    /\ length (List.filter is_attempt (attempts_with_delays k 1 delay)) = k
    /\ (Z.of_nat k <= Z.max 0 maxAttempts)%Z
    /\ Forall (fun ev => is_attempt ev = true \/ ev = Delay delay)
              (attempts_with_delays k 1 delay)
    /\ ((1 <= k)%nat ->
        last (attempts_with_delays k 1 delay) = Some (Attempt (Z.of_nat k)))
    /\ fs' = fs_after k 1 peer fs file groupHandle config
    /\ (forall j, (S j < k)%nat ->
          r_success (result_after j 1 peer fs file groupHandle config) = false)
    /\ (r_success result = true ->
          (1 <= k)%nat
          /\ result = result_after (k - 1) 1 peer fs file groupHandle config)
    /\ (r_success result = false ->
          Z.of_nat k = Z.max 0 maxAttempts
          /\ (forall j, (j < k)%nat ->
                r_success (result_after j 1 peer fs file groupHandle config)
                = false)
          /\ result = mkResult false file None
                        (Some ("Failed after " +:+ show_Z maxAttempts +:+
                               " attempts"))
          /\ ((1 <= maxAttempts)%Z ->
              result = mkResult false file None
                         (Some ("Failed after " +:+ show_Z (Z.of_nat k) +:+
                                " attempts"))))
    /\ ((maxAttempts < 0)%Z ->
        k = 0%nat /\ fs' = fs
        /\ result = mkResult false file None
                      (Some ("Failed after " +:+ show_Z maxAttempts +:+
                             " attempts"))).
Proof.
  intros maxAttempts delay.
  change (downloadFileWithRetry peer fs file groupHandle config)
    with (match retry_loop (Z.to_nat maxAttempts) 1 maxAttempts delay peer
                  fs file groupHandle config with
          | (fs1, events, Some result) => (fs1, events, result)
          | (fs1, events, None) =>
              (fs1, events,
               mkResult false file None
                 (Some ("Failed after " +:+ show_Z maxAttempts +:+
                        " attempts")))
          end).
  destruct (retry_loop_spec maxAttempts delay peer file groupHandle config
              (Z.to_nat maxAttempts) 1%Z fs)
    as (k & Hk & Hfs & Hev & Hfail & Hfin); [f_equal; lia|].
  destruct (retry_loop (Z.to_nat maxAttempts) 1 maxAttempts delay peer fs
              file groupHandle config) as [[fs1 events] final].
  simpl in Hfs, Hev, Hfin. subst fs1 events.
  assert (Hlast : (1 <= k)%nat ->
            last (attempts_with_delays k 1 delay)
            = Some (Attempt (Z.of_nat k))).
  { intros Hpos. destruct k as [|k]; [lia|].
    rewrite attempts_with_delays_last. f_equal. f_equal. lia. }
  destruct final as [result|].
  - destruct Hfin as (H1 & Hs & Hr).
    exists k, (fs_after k 1 peer fs file groupHandle config), result.
    split; [reflexivity|]. split; [apply attempts_with_delays_count|].
    split; [lia|]. split; [apply attempts_with_delays_fixed|].
    split; [exact Hlast|]. split; [reflexivity|].
    split; [exact Hfail|]. split; [auto|].
    split; [congruence|]. intros Hneg. lia.
  - destruct Hfin as [Hn Hall]. eexists k, _, _.
    split; [reflexivity|]. split; [apply attempts_with_delays_count|].
    split; [lia|]. split; [apply attempts_with_delays_fixed|].
    split; [exact Hlast|]. split; [reflexivity|].
    split; [exact Hfail|]. split; [simpl; discriminate|].
    split.
    + intros _. split; [lia|]. split; [exact Hall|].
      split; [reflexivity|]. intros Hpos.
      replace (Z.of_nat k) with maxAttempts by lia. reflexivity.
    + intros Hneg. assert (k = 0%nat) as -> by lia.
      split; [reflexivity|]. split; reflexivity.
Qed.

Lemma retry_policy_witness :
  exists k fs' result,
    downloadFileWithRetry (fun _ => NoMessages) ∅ job_of_3 "g1" two_tries
      = (fs', attempts_with_delays k 1 250, result)
    /\ (Z.of_nat k <= 2)%Z.
Proof.
  destruct (retry_policy (fun _ => NoMessages) ∅ job_of_3 "g1" two_tries)
    as (k & fs' & result & Heq & _ & Hbound & _).
  exists k, fs', result. split; [exact Heq|exact Hbound].
Defined.

(** The claim of C6 fails for a negative [retryAttempts]: the loop body
    never runs, so no attempt is made although the peer would deliver;
    the number of attempts made, 0, is not "at most [maxAttempts]", and
    the message states -1, not the attempt count. *)
Lemma negative_retryAttempts_makes_no_attempt :
  maxAttempts_of no_tries = (-1)%Z
  /\ downloadFileWithRetry (fun _ => Media "abc") ∅ job_of_3 "g1" no_tries
     = (∅, [], mkResult false job_of_3 None (Some "Failed after -1 attempts"))
  /\ ~ (forall peer fs file groupHandle config,
          let '(_, events, result) :=
            downloadFileWithRetry peer fs file groupHandle config in
          (Z.of_nat (length (List.filter is_attempt events))
           <= maxAttempts_of config)%Z
          /\ (r_success result = false ->
              r_error result
              = Some ("Failed after " +:+
                      show_Z (Z.of_nat
                                (length (List.filter is_attempt events)))
                      +:+ " attempts"))).
Proof.
  split; [reflexivity|]. split; [vm_compute; reflexivity|].
  intros Hclaim.
  specialize (Hclaim (fun _ => Media "abc") ∅ job_of_3 "g1" no_tries).
  vm_compute in Hclaim. destruct Hclaim as [Hle _]. apply Hle. reflexivity.
Qed.

Example retry_configured_attempts :
  let '(_, events, result) :=
    downloadFileWithRetry (fun _ => NoMessages) ∅ job_of_3 "g1" two_tries in
  events = [Attempt 1; Delay 250; Attempt 2]
  /\ result = mkResult false job_of_3 None (Some "Failed after 2 attempts").
Proof. vm_compute. repeat split. Qed.

Example retry_third_attempt_succeeds :
  let '(fs', events, result) :=
    downloadFileWithRetry flaky_peer ∅ job_of_3 "g1" sample_config in
  events = [Attempt 1; Delay 5000; Attempt 2; Delay 5000; Attempt 3]
  /\ r_success result = true
  /\ fs' !! ("/srv/downloads/g1", "note.txt.part") = None
  /\ fs' !! ("/srv/downloads/g1", "note.txt") = Some (Blob "abc").
Proof. vm_compute. repeat split. Qed.

Example retry_all_attempts_fail :
  let '(_, events, result) :=
    downloadFileWithRetry (fun _ => NoMessages) ∅ job_of_3 "g1"
                          sample_config in
  events = [Attempt 1; Delay 5000; Attempt 2; Delay 5000; Attempt 3]
  /\ result = mkResult false job_of_3 None (Some "Failed after 3 attempts").
Proof. vm_compute. repeat split. Qed.

(** ** The scheduler *)

(** *** What [updateFileStatus] does to the status of each id *)

Lemma set_status_id status path message now f :
  f_id (set_status status path message now f) = f_id f.
Proof. reflexivity. Qed.

Lemma fmap_alter_same {A B} (h : A -> B) (g : A -> A) (l : list A) (i : nat) :
  (forall x, h (g x) = h x) -> h <$> alter g i l = h <$> l.
Proof.
  intros Hg. revert i. induction l as [|x l IH]; intros [|i]; simpl;
    try reflexivity.
  - rewrite Hg. reflexivity.
  - f_equal. apply IH.
Qed.

Lemma updateFileStatus_ids dataFile id status path message now :
  f_id <$> d_files (updateFileStatus dataFile id status path message now)
  = f_id <$> d_files dataFile.
Proof.
  unfold updateFileStatus. destruct (findIndex _ _) as [i|]; [|reflexivity].
  simpl. apply fmap_alter_same. intros f. reflexivity.
Qed.

Lemma updateFileStatus_groups dataFile id status path message now :
  d_groups (updateFileStatus dataFile id status path message now)
  = d_groups dataFile.
Proof.
  unfold updateFileStatus. destruct (findIndex _ _); reflexivity.
Qed.

Lemma record_at_alter_first (g : FileEntry -> FileEntry)
    (files : list FileEntry) (id : string) (i : nat) :
  (forall f, f_id (g f) = f_id f) ->
  findIndex (fun f => String.eqb (f_id f) id) files = Some i ->
  record_at (alter g i files) id = g <$> record_at files id.
Proof.
  intros Hg. unfold record_at. revert i.
  induction files as [|f files IH]; intros i; simpl; [discriminate|].
  destruct (String.eqb (f_id f) id) eqn:E.
  - intros [= <-]. simpl. rewrite Hg, E. reflexivity.
  - destruct (findIndex _ files) as [k|]; simpl; [|discriminate].
    intros [= <-]. simpl. rewrite E. apply IH. reflexivity.
Qed.

Lemma record_at_alter_other (g : FileEntry -> FileEntry)
    (files : list FileEntry) (id id' : string) (i : nat) :
  (forall f, f_id (g f) = f_id f) ->
  findIndex (fun f => String.eqb (f_id f) id) files = Some i ->
  id' <> id ->
  record_at (alter g i files) id' = record_at files id'.
Proof.
  intros Hg Hi Hne. unfold record_at. revert i Hi.
  induction files as [|f files IH]; intros i; simpl; [discriminate|].
  destruct (String.eqb (f_id f) id) eqn:E.
  - intros [= <-]. simpl. rewrite Hg.
    apply String.eqb_eq in E. rewrite E.
    destruct (String.eqb_spec id id'); [congruence|reflexivity].
  - destruct (findIndex _ files) as [k|]; simpl; [|discriminate].
    intros [= <-]. simpl.
    destruct (String.eqb (f_id f) id'); [reflexivity|].
    apply IH. reflexivity.
Qed.

Lemma find_by_id_present (files : list FileEntry) (id : string) :
  id ∈ (f_id <$> files) ->
  exists i f,
    findIndex (fun f => String.eqb (f_id f) id) files = Some i
    /\ record_at files id = Some f.
Proof.
  unfold record_at. induction files as [|f files IH]; simpl.
  - intros H. inversion H.
  - destruct (String.eqb (f_id f) id) eqn:E; [eauto|].
    intros H. apply elem_of_cons in H as [H|H].
    + apply String.eqb_neq in E. congruence.
    + destruct (IH H) as (i & x & -> & ->). simpl. eauto.
Qed.

Lemma record_at_update_same dataFile id status path message now r :
  record_at (d_files dataFile) id = Some r ->
  record_at (d_files (updateFileStatus dataFile id status path message now)) id
  = Some (set_status status path message now r).
Proof.
  intros Hr. unfold updateFileStatus.
  destruct (findIndex _ _) as [i|] eqn:Hi.
  - simpl.
    rewrite (record_at_alter_first _ _ _ _ (set_status_id _ _ _ _) Hi), Hr.
    reflexivity.
  - exfalso. unfold record_at in Hr. apply find_some in Hr as [Hin Hp].
    rewrite (findIndex_None _ _ Hi r Hin) in Hp. discriminate.
Qed.

Lemma record_at_update_other dataFile id id' status path message now :
  id' <> id ->
  record_at (d_files (updateFileStatus dataFile id status path message now)) id'
  = record_at (d_files dataFile) id'.
Proof.
  intros Hne. unfold updateFileStatus.
  destruct (findIndex _ _) as [i|] eqn:Hi; [|reflexivity]. simpl.
  apply (record_at_alter_other _ _ id); auto.
Qed.

Lemma status_at_update_same dataFile id status path message now :
  id ∈ (f_id <$> d_files dataFile) ->
  status_at (d_files (updateFileStatus dataFile id status path message now)) id
  = Some status.
Proof.
  intros Hin. destruct (find_by_id_present _ _ Hin) as (i & f & _ & Hf).
  unfold status_at. rewrite (record_at_update_same _ _ _ _ _ _ _ Hf).
  reflexivity.
Qed.

Lemma status_at_update_other dataFile id id' status path message now :
  id' <> id ->
  status_at (d_files (updateFileStatus dataFile id status path message now)) id'
  = status_at (d_files dataFile) id'.
Proof.
  intros Hne. unfold status_at. rewrite record_at_update_other by exact Hne.
  reflexivity.
Qed.

(** With unique ids, the status of a record is the status at its id. *)
Lemma status_at_record (files : list FileEntry) (r : FileEntry) :
  NoDup (f_id <$> files) -> r ∈ files ->
  status_at files (f_id r) = Some (f_downloadStatus r).
Proof.
  unfold status_at, record_at. induction files as [|f files IH]; simpl.
  - intros _ H. inversion H.
  - intros Hnd Hr. apply NoDup_cons in Hnd as [Hf Hnd].
    apply elem_of_cons in Hr as [->|Hr].
    + rewrite String.eqb_refl. reflexivity.
    + destruct (String.eqb_spec (f_id f) (f_id r)) as [E|_]; [|auto].
      exfalso. apply Hf. rewrite E. apply list_elem_of_fmap_2. exact Hr.
Qed.

(** *** Slots: the in-flight set and the work left *)

Lemma work_left_alter queue active i t ph :
  active !! i = Some t ->
  (work_left queue (alter (set_task_phase ph) i active) + phase_weight t
   = work_left queue active + phase_weight (set_task_phase ph t))%nat.
Proof.
  unfold work_left. revert i. induction active as [|a active IH]; intros [|i];
    simpl; try discriminate.
  - intros [= ->]. lia.
  - intros H. specialize (IH i H). simpl in IH.
    change (list_alter (set_task_phase ph) i active)
      with (alter (set_task_phase ph) i active).
    lia.
Qed.

Lemma work_left_delete queue active i t :
  active !! i = Some t ->
  (work_left queue (delete i active) + phase_weight t
   = work_left queue active)%nat.
Proof.
  unfold work_left. revert i. induction active as [|a active IH]; intros [|i];
    simpl; try discriminate.
  - intros [= ->]. lia.
  - intros H. specialize (IH i H). simpl in IH.
    change (list_delete i active) with (delete i active).
    lia.
Qed.

Lemma phase_weight_pos (t : Task) : (1 <= phase_weight t)%nat.
Proof. unfold phase_weight. destruct (t_phase t); lia. Qed.

Lemma delete_alter {A} (g : A -> A) (l : list A) (i : nat) :
  delete i (alter g i l) = delete i l.
Proof.
  revert i. induction l as [|x l IH]; intros [|i]; simpl; try reflexivity.
  f_equal. apply IH.
Qed.

(** [fill] stops when the queue is empty or the slots are all taken, and
    moves jobs from the queue to the in-flight set without changing the
    work left. *)
Lemma fill_slots limit queue active (d : DataFile) queue' active' d' :
  fill limit queue active d = (queue', active', d') ->
  (Z.of_nat (length active) <= limit)%Z ->
  (Z.of_nat (length active') <= limit)%Z
  /\ (queue' <> [] -> Z.of_nat (length active') = limit)
  /\ work_left queue' active' = work_left queue active.
Proof.
  revert active d. induction queue as [|f rest IH]; intros active d; simpl.
  - intros [= <- <- <-] Hle. split; [exact Hle|].
    split; [intros H; contradiction|reflexivity].
  - destruct (Z.of_nat (length active) <? limit)%Z eqn:Hfree.
    + intros Hfill Hle. apply Z.ltb_lt in Hfree.
      destruct (IH _ _ Hfill) as (Hle' & Hfull & Hwork).
      { rewrite length_app. simpl. lia. }
      split; [exact Hle'|]. split; [exact Hfull|].
      rewrite Hwork. unfold work_left. rewrite sum_list_with_app.
      change (sum_list_with phase_weight [mkTask f SavingStart]) with 3%nat.
      cbn [length]. lia.
    + intros [= <- <- <-] Hle. apply Z.ltb_ge in Hfree.
      split; [exact Hle|]. split; [intros _; lia|reflexivity].
Qed.

Lemma refill_stats opts m : stats (refill opts m) = stats m.
Proof.
  unfold refill. destruct (fill _ _ _ _) as [[q a] d]. reflexivity.
Qed.

Lemma refill_disk opts m : disk (refill opts m) = disk m.
Proof.
  unfold refill. destruct (fill _ _ _ _) as [[q a] d]. reflexivity.
Qed.

Lemma refill_slots opts (m : Manager) :
  (Z.of_nat (length (active m)) <= concurrency_of opts)%Z ->
  Slots opts (refill opts m) /\ work (refill opts m) = work m.
Proof.
  intros Hle. unfold refill, Slots, work.
  destruct (fill (concurrency_of opts) (queue m) (active m) (dataFile m))
    as [[queue' active'] d'] eqn:Hfill.
  destruct (fill_slots _ _ _ _ _ _ _ Hfill Hle) as (Hle' & Hfull & Hwork).
  simpl. auto.
Qed.

Lemma remove_active_slots opts (m : Manager) i t :
  active m !! i = Some t ->
  (Z.of_nat (length (active m)) <= concurrency_of opts)%Z ->
  Slots opts (refill opts (remove_active i m))
  /\ (work (refill opts (remove_active i m)) < work m)%nat.
Proof.
  intros Hi Hle.
  destruct (refill_slots opts (remove_active i m)) as [Hslots Hwork].
  { simpl. pose proof (length_delete (active m) i) as Hlen.
    assert (is_Some (active m !! i)) as Hsome by eauto.
    specialize (Hlen Hsome). lia. }
  split; [exact Hslots|]. rewrite Hwork. unfold work. simpl.
  pose proof (work_left_delete (queue m) _ _ _ Hi).
  pose proof (phase_weight_pos t). lia.
Qed.

Lemma set_phase_slots opts (m : Manager) i file ph ph' :
  active m !! i = Some (mkTask file ph) ->
  (phase_weight (mkTask file ph') < phase_weight (mkTask file ph))%nat ->
  Slots opts m ->
  Slots opts (set_phase i ph' m)
  /\ (work (set_phase i ph' m) < work m)%nat.
Proof.
  intros Hi Hlt [Hle Hfull]. unfold Slots, work, set_phase. simpl.
  rewrite length_alter. split; [auto|].
  pose proof (work_left_alter (queue m) _ _ _ ph' Hi) as H.
  change (set_task_phase ph' (mkTask file ph)) with (mkTask file ph') in H.
  lia.
Qed.

(** Every step keeps the slots within bounds and uses up work. *)
Lemma step_slots opts (m m' : Manager) (ev : Event) :
  Slots opts m ->
  step opts m ev = Some m' ->
  Slots opts m' /\ (work m' < work m)%nat.
Proof.
  intros Hslots Hstep. pose proof Hslots as [Hle Hfull].
  destruct ev as [i env|i peer now]; simpl in Hstep;
    destruct (active m !! i) as [[file ph]|] eqn:Hi; try discriminate;
    destruct ph; try discriminate.
  - destruct (saveDataFile env (disk m) (dataFilePath opts) (dataFile m) true)
      as [disk' [[]|error]]; injection Hstep as <-.
    + apply (set_phase_slots opts
               {| dataFile := dataFile m; stats := stats m; queue := queue m;
                  active := active m; disk := disk' |}
               i file SavingStart Transferring);
        [exact Hi|unfold phase_weight; simpl; lia|exact Hslots].
    + apply (remove_active_slots opts (catch_failure m file error disk') i
               (mkTask file SavingStart)); assumption.
  - destruct (saveDataFile env (disk m) (dataFilePath opts) (dataFile m) true)
      as [disk' [[]|error]]; injection Hstep as <-.
    + apply (remove_active_slots opts
               {| dataFile := dataFile m; stats := stats m; queue := queue m;
                  active := active m; disk := disk' |}
               i (mkTask file SavingOutcome)); assumption.
    + apply (remove_active_slots opts (catch_failure m file error disk') i
               (mkTask file SavingOutcome)); assumption.
  - destruct (downloadFileWithRetry peer (disk m) file
                (groupHandle_of (dataFile m) file) (config opts))
      as [[disk' events] result].
    injection Hstep as <-.
    pose proof (set_phase_slots opts (record_result m file result now disk')
                  i file Transferring SavingOutcome) as Hset.
    assert (Hsame : queue (record_result m file result now disk') = queue m
                    /\ active (record_result m file result now disk')
                       = active m).
    { unfold record_result. destruct (r_success result); auto. }
    destruct Hsame as [Hq Ha]. unfold Slots, work in Hset |- *.
    rewrite Hq, Ha in Hset. apply Hset.
    + exact Hi.
    + unfold phase_weight. simpl. lia.
    + exact Hslots.
Qed.

Lemma run_events_slots opts (schedule : list Event) (m m' : Manager) :
  Slots opts m ->
  run_events opts schedule m = Some m' ->
  Slots opts m' /\ (length schedule + work m' <= work m)%nat.
Proof.
  revert m. induction schedule as [|ev rest IH]; intros m Hslots; simpl.
  - intros [= <-]. split; [exact Hslots|lia].
  - destruct (step opts m ev) as [m1|] eqn:Hstep; [|discriminate].
    intros Hrun. destruct (step_slots _ _ _ _ Hslots Hstep) as [Hslots1 Hlt].
    destruct (IH m1 Hslots1 Hrun) as [Hslots' Hle].
    split; [exact Hslots'|lia].
Qed.

Lemma begin_run_slots opts data st fs files :
  (0 <= concurrency_of opts)%Z ->
  Slots opts (begin_run opts data st fs files)
  /\ work (begin_run opts data st fs files) = (3 * length files)%nat.
Proof.
  intros Hlimit. unfold begin_run.
  destruct (refill_slots opts
              {| dataFile := data; stats := st; queue := files; active := [];
                 disk := fs |}) as [Hslots Hwork]; [simpl; lia|].
  split; [exact Hslots|]. rewrite Hwork. unfold work, work_left. simpl. lia.
Qed.

(** While something is queued or in flight, some awaited operation can
    settle. *)
Lemma step_enabled opts (m : Manager) :
  (1 <= concurrency_of opts)%Z ->
  Slots opts m ->
  finished m = false ->
  exists ev m', step opts m ev = Some m'.
Proof.
  intros Hlimit [Hle Hfull] Hfin.
  destruct (active m) as [|[file ph] rest] eqn:Hactive.
  - exfalso. unfold finished in Hfin. rewrite Hactive in Hfin.
    destruct (queue m) as [|f q] eqn:Hq; [discriminate|].
    assert (Hne : f :: q <> []) by discriminate.
    specialize (Hfull Hne). simpl in Hfull. lia.
  - destruct ph.
    + exists (SaveSettled 0 (mkSaveEnv NoFault "" "" 0)). simpl.
      rewrite Hactive. simpl.
      destruct (saveDataFile _ _ _ _ _) as [disk' [[]|error]]; eauto.
    + exists (TransferSettled 0 (fun _ => NoMessages) ""). simpl.
      rewrite Hactive. simpl.
      destruct (downloadFileWithRetry _ _ _ _ _) as [[disk' events] result].
      eauto.
    + exists (SaveSettled 0 (mkSaveEnv NoFault "" "" 0)). simpl.
      rewrite Hactive. simpl.
      destruct (saveDataFile _ _ _ _ _) as [disk' [[]|error]]; eauto.
Qed.

Lemma run_can_finish opts (n : nat) (m : Manager) :
  (1 <= concurrency_of opts)%Z ->
  Slots opts m ->
  (work m <= n)%nat ->
  exists schedule m',
    run_events opts schedule m = Some m' /\ finished m' = true.
Proof.
  intros Hlimit. revert m. induction n as [|n IH]; intros m Hslots Hwork.
  - destruct (finished m) eqn:Hfin.
    + exists [], m. auto.
    + destruct (step_enabled opts m Hlimit Hslots Hfin) as (ev & m' & Hstep).
      destruct (step_slots _ _ _ _ Hslots Hstep) as [_ Hlt]. lia.
  - destruct (finished m) eqn:Hfin.
    + exists [], m. auto.
    + destruct (step_enabled opts m Hlimit Hslots Hfin) as (ev & m1 & Hstep).
      destruct (step_slots _ _ _ _ Hslots Hstep) as [Hslots1 Hlt].
      destruct (IH m1 Hslots1) as (schedule & m' & Hrun & Hdone); [lia|].
      exists (ev :: schedule), m'. simpl. rewrite Hstep. auto.
Qed.

(** *** The statuses of the jobs of a run *)

Lemma owned_set_phase queue active i ph :
  owned queue (alter (set_task_phase ph) i active) = owned queue active.
Proof.
  unfold owned. f_equal. apply fmap_alter_same. intros t. reflexivity.
Qed.

Lemma owned_active_distinct queue active i j t t' :
  NoDup (owned queue active) ->
  active !! i = Some t -> active !! j = Some t' ->
  task_id t = task_id t' -> i = j.
Proof.
  intros Hnd Hi Hj Heq. apply NoDup_app in Hnd as (_ & _ & Hnd).
  eapply NoDup_lookup; [exact Hnd| |].
  - rewrite list_lookup_fmap, Hi. reflexivity.
  - rewrite list_lookup_fmap, Hj. simpl. rewrite Heq. reflexivity.
Qed.

Lemma owned_queue_not_active queue active f t :
  NoDup (owned queue active) -> f ∈ queue -> t ∈ active ->
  f_id f <> task_id t.
Proof.
  intros Hnd Hf Ht Heq. apply NoDup_app in Hnd as (_ & Hdisj & _).
  apply (Hdisj (f_id f)).
  - apply list_elem_of_fmap_2. exact Hf.
  - rewrite Heq. apply list_elem_of_fmap_2. exact Ht.
Qed.

Section Invariant.
Variables (ids0 cand_ids : list string).

(** The status of the job of [active[i]] changes to what the new phase
    expects. *)
Lemma Inv_update (d : DataFile) queue active i t st ph path message now :
  Inv ids0 cand_ids (d_files d) queue active ->
  active !! i = Some t ->
  phase_expects ph st ->
  Inv ids0 cand_ids
      (d_files (updateFileStatus d (task_id t) st path message now))
      queue (alter (set_task_phase ph) i active).
Proof.
  intros [Hids Hnd Hknown Hq Ha Hcover] Hi Hph.
  assert (Ht : t ∈ active) by (eapply list_elem_of_lookup_2; exact Hi).
  assert (Hpresent : task_id t ∈ (f_id <$> d_files d)).
  { rewrite Hids. apply Hknown. unfold owned. apply elem_of_app. right.
    apply list_elem_of_fmap_2. exact Ht. }
  split.
  - rewrite updateFileStatus_ids. exact Hids.
  - rewrite owned_set_phase. exact Hnd.
  - rewrite owned_set_phase. exact Hknown.
  - rewrite Forall_forall in Hq |- *. intros f Hf.
    rewrite status_at_update_other; [apply Hq; exact Hf|].
    eapply owned_queue_not_active; eauto.
  - rewrite Forall_lookup in Ha |- *. intros j t' Hj.
    destruct (decide (i = j)) as [<-|Hne].
    + rewrite list_lookup_alter_eq, Hi in Hj. injection Hj as <-.
      exists st. split; [|exact Hph].
      apply status_at_update_same. exact Hpresent.
    + rewrite list_lookup_alter_ne in Hj by exact Hne.
      destruct (Ha j t' Hj) as (st' & Hst & Hex).
      exists st'. split; [|exact Hex].
      rewrite status_at_update_other; [exact Hst|].
      intros Heq. apply Hne. symmetry.
      eapply owned_active_distinct; eauto.
  - rewrite owned_set_phase. intros id Hid.
    destruct (decide (id = task_id t)) as [->|Hne].
    + left. unfold owned. apply elem_of_app. right.
      apply list_elem_of_fmap_2. exact Ht.
    + destruct (Hcover id Hid) as [H|H]; [left; exact H|right].
      rewrite status_at_update_other; assumption.
Qed.

(** Only the phase changes, and the new phase expects the same status. *)
Lemma Inv_set_phase files queue active i t ph :
  Inv ids0 cand_ids files queue active ->
  active !! i = Some t ->
  (forall st, phase_expects (t_phase t) st -> phase_expects ph st) ->
  Inv ids0 cand_ids files queue (alter (set_task_phase ph) i active).
Proof.
  intros [Hids Hnd Hknown Hq Ha Hcover] Hi Hph.
  split; rewrite ?owned_set_phase; try assumption.
  rewrite Forall_lookup in Ha |- *. intros j t' Hj.
  destruct (decide (i = j)) as [<-|Hne].
  - rewrite list_lookup_alter_eq, Hi in Hj. injection Hj as <-.
    destruct (Ha i t Hi) as (st & Hst & Hex).
    exists st. split; [exact Hst|]. apply Hph. exact Hex.
  - rewrite list_lookup_alter_ne in Hj by exact Hne. eauto.
Qed.

(** An execution whose job is over leaves the in-flight set. *)
Lemma Inv_delete files queue active i t :
  Inv ids0 cand_ids files queue active ->
  active !! i = Some t ->
  t_phase t = SavingOutcome ->
  Inv ids0 cand_ids files queue (delete i active).
Proof.
  intros [Hids Hnd Hknown Hq Ha Hcover] Hi Hph.
  assert (Hsub : owned queue (delete i active)
                 `sublist_of` owned queue active).
  { unfold owned. apply sublist_app; [reflexivity|].
    apply fmap_sublist, sublist_delete. }
  split; try assumption.
  - eapply sublist_NoDup; eassumption.
  - intros id Hid. apply Hknown. eapply elem_of_sublist; eassumption.
  - apply Forall_delete. exact Ha.
  - intros id Hid. destruct (Hcover id Hid) as [H|H]; [|right; exact H].
    destruct (decide (id = task_id t)) as [->|Hne].
    + right. rewrite Forall_lookup in Ha.
      destruct (Ha i t Hi) as (st & Hst & Hex).
      rewrite Hph in Hex. rewrite Hst.
      destruct Hex as [->| ->]; [left|right]; reflexivity.
    + left. unfold owned in *. apply elem_of_app in H as [H|H];
        apply elem_of_app; [left; exact H|right].
      apply list_elem_of_fmap in H as (t' & -> & Ht').
      apply list_elem_of_lookup in Ht' as [j Hj].
      assert (i <> j) by (intros ->; congruence).
      apply list_elem_of_fmap_2. apply list_elem_of_lookup.
      destruct (decide (j < i)%nat).
      * exists j. rewrite list_lookup_delete_lt by lia. exact Hj.
      * exists (j - 1)%nat. rewrite list_lookup_delete_ge by lia.
        replace (S (j - 1)) with j by lia. exact Hj.
Qed.

(** The [catch] block: the job is stored as failed and its execution
    leaves the in-flight set. *)
Lemma Inv_fail (d : DataFile) queue active i t path message now :
  Inv ids0 cand_ids (d_files d) queue active ->
  active !! i = Some t ->
  Inv ids0 cand_ids
      (d_files (updateFileStatus d (task_id t) failed path message now))
      queue (delete i active).
Proof.
  intros Hinv Hi.
  rewrite <- (delete_alter (set_task_phase SavingOutcome)).
  eapply Inv_delete.
  - eapply Inv_update with (ph := SavingOutcome); [exact Hinv|exact Hi|].
    right. reflexivity.
  - rewrite list_lookup_alter_eq, Hi. reflexivity.
  - reflexivity.
Qed.

(** A queued job starts: it is marked in-progress and joins the in-flight
    set. *)
Lemma Inv_start (d : DataFile) f rest active :
  Inv ids0 cand_ids (d_files d) (f :: rest) active ->
  Inv ids0 cand_ids
      (d_files (updateFileStatus d (f_id f) in_progress None None ""))
      rest (active ++ [mkTask f SavingStart]).
Proof.
  intros [Hids Hnd Hknown Hq Ha Hcover].
  assert (Hperm : owned rest (active ++ [mkTask f SavingStart])
                  ≡ₚ owned (f :: rest) active).
  { unfold owned. rewrite fmap_app. simpl.
    change (task_id (mkTask f SavingStart)) with (f_id f).
    rewrite app_assoc, <- Permutation_cons_append. reflexivity. }
  assert (Hpresent : f_id f ∈ (f_id <$> d_files d)).
  { rewrite Hids. apply Hknown. unfold owned. simpl. left. }
  assert (Hfresh : forall id, id ∈ owned rest active -> id <> f_id f).
  { intros id Hid ->. unfold owned in Hnd. simpl in Hnd.
    apply NoDup_cons in Hnd as [Hnot _]. contradiction. }
  split.
  - rewrite updateFileStatus_ids. exact Hids.
  - rewrite Hperm. exact Hnd.
  - intros id Hid. apply Hknown. rewrite <- Hperm. exact Hid.
  - apply Forall_cons in Hq as [_ Hq].
    rewrite Forall_forall in Hq |- *. intros g Hg.
    rewrite status_at_update_other; [apply Hq; exact Hg|].
    apply Hfresh. unfold owned. apply elem_of_app. left.
    apply list_elem_of_fmap_2. exact Hg.
  - apply Forall_app. split.
    + rewrite Forall_forall in Ha |- *. intros t Ht.
      destruct (Ha t Ht) as (st & Hst & Hex).
      exists st. split; [|exact Hex].
      rewrite status_at_update_other; [exact Hst|].
      apply Hfresh. unfold owned. apply elem_of_app. right.
      apply list_elem_of_fmap_2. exact Ht.
    + apply Forall_singleton. exists in_progress. split; [|reflexivity].
      apply status_at_update_same. exact Hpresent.
  - intros id Hid. destruct (decide (id = f_id f)) as [->|Hne].
    + left. rewrite Hperm. unfold owned. simpl. left.
    + destruct (Hcover id Hid) as [H|H].
      * left. rewrite Hperm. exact H.
      * right. rewrite status_at_update_other; assumption.
Qed.

Lemma fill_tracked limit queue active (d : DataFile) queue' active' d' :
  fill limit queue active d = (queue', active', d') ->
  Inv ids0 cand_ids (d_files d) queue active ->
  Inv ids0 cand_ids (d_files d') queue' active'.
Proof.
  revert active d. induction queue as [|f rest IH]; intros active d; simpl.
  - intros [= <- <- <-] Hinv. exact Hinv.
  - destruct (Z.of_nat (length active) <? limit)%Z.
    + intros Hfill Hinv. apply (IH _ _ Hfill). apply Inv_start. exact Hinv.
    + intros [= <- <- <-] Hinv. exact Hinv.
Qed.

Lemma refill_tracked opts (m : Manager) :
  Tracked ids0 cand_ids m -> Tracked ids0 cand_ids (refill opts m).
Proof.
  unfold Tracked, refill. intros Hinv.
  destruct (fill _ _ _ _) as [[queue' active'] d'] eqn:Hfill. simpl.
  eapply fill_tracked; eassumption.
Qed.

(** Every step keeps the statuses in line with where each job is. *)
Lemma step_tracked opts (m m' : Manager) (ev : Event) :
  Tracked ids0 cand_ids m ->
  step opts m ev = Some m' ->
  Tracked ids0 cand_ids m'.
Proof.
  intros Hinv Hstep. destruct ev as [i env|i peer now]; simpl in Hstep;
    destruct (active m !! i) as [[file ph]|] eqn:Hi; try discriminate;
    destruct ph; try discriminate.
  - destruct (saveDataFile env (disk m) (dataFilePath opts) (dataFile m) true)
      as [disk' [[]|error]]; injection Hstep as <-.
    + unfold Tracked, set_phase. simpl.
      eapply Inv_set_phase; [exact Hinv|exact Hi|]. simpl. auto.
    + apply refill_tracked. unfold Tracked. simpl.
      apply (Inv_fail _ _ _ _ (mkTask file SavingStart) _ _ _ Hinv Hi).
  - destruct (saveDataFile env (disk m) (dataFilePath opts) (dataFile m) true)
      as [disk' [[]|error]]; injection Hstep as <-.
    + apply refill_tracked. unfold Tracked. simpl.
      eapply Inv_delete; [exact Hinv|exact Hi|reflexivity].
    + apply refill_tracked. unfold Tracked. simpl.
      apply (Inv_fail _ _ _ _ (mkTask file SavingOutcome) _ _ _ Hinv Hi).
  - destruct (downloadFileWithRetry peer (disk m) file
                (groupHandle_of (dataFile m) file) (config opts))
      as [[disk' events] result].
    injection Hstep as <-. unfold Tracked, set_phase, record_result.
    destruct (r_success result); simpl.
    + apply (Inv_update _ _ _ _ (mkTask file Transferring));
        [exact Hinv|exact Hi|]. left. reflexivity.
    + apply (Inv_update _ _ _ _ (mkTask file Transferring));
        [exact Hinv|exact Hi|]. right. reflexivity.
Qed.

Lemma run_events_tracked opts (schedule : list Event) (m m' : Manager) :
  Tracked ids0 cand_ids m ->
  run_events opts schedule m = Some m' ->
  Tracked ids0 cand_ids m'.
Proof.
  revert m. induction schedule as [|ev rest IH]; intros m Hinv; simpl.
  - intros [= <-]. exact Hinv.
  - destruct (step opts m ev) as [m1|] eqn:Hstep; [|discriminate].
    apply IH. eapply step_tracked; eassumption.
Qed.
End Invariant.

(** *** The start of a run *)

Lemma getFilesToDownload_sublist opts data :
  getFilesToDownload opts data `sublist_of` d_files data.
Proof.
  unfold getFilesToDownload, filter_status.
  destruct (resumeExisting opts) as [[|]|]; apply sublist_filter.
Qed.

Lemma getFilesToDownload_status opts data f :
  f ∈ getFilesToDownload opts data ->
  f_downloadStatus f = pending \/ f_downloadStatus f = failed.
Proof.
  unfold getFilesToDownload, filter_status.
  destruct (resumeExisting opts) as [[|]|]; intros H;
    apply list_elem_of_filter in H as [H _]; auto.
Qed.

Lemma begin_run_tracked opts data st fs :
  NoDup (f_id <$> d_files data) ->
  Tracked (f_id <$> d_files data) (f_id <$> getFilesToDownload opts data)
          (begin_run opts data st fs (getFilesToDownload opts data)).
Proof.
  intros Hnd. unfold begin_run. apply refill_tracked.
  set (cands := getFilesToDownload opts data).
  assert (Hsub : (f_id <$> cands) `sublist_of` (f_id <$> d_files data)).
  { apply fmap_sublist, getFilesToDownload_sublist. }
  unfold Tracked. simpl. split; unfold owned; simpl; rewrite ?app_nil_r.
  - reflexivity.
  - eapply sublist_NoDup; eassumption.
  - intros id Hid. eapply elem_of_sublist; eassumption.
  - rewrite Forall_forall. intros f Hf.
    rewrite (status_at_record (d_files data) f Hnd).
    + destruct (getFilesToDownload_status opts data f Hf) as [-> | ->];
        discriminate.
    + eapply elem_of_sublist; [exact Hf|].
      apply getFilesToDownload_sublist.
  - constructor.
  - intros id Hid. left. exact Hid.
Qed.

(** Unique ids are what the job store maintains: [upsertFile] keeps the
    ids of a snapshot distinct. *)
Lemma upsertFile_unique_ids (dataFile : DataFile) (file : FileEntry) :
  NoDup (f_id <$> d_files dataFile) ->
  NoDup (f_id <$> d_files (upsertFile dataFile file)).
Proof.
  intros Hnd.
  destruct (in_dec String.string_dec (f_id file)
                   (map f_id (d_files dataFile))) as [Hin|Hnot].
  - destruct (upsertFile_present dataFile file Hin)
      as (i & prior & Hl & Hid & _ & ->).
    rewrite list_fmap_insert. simpl.
    rewrite list_insert_id; [exact Hnd|].
    rewrite list_lookup_fmap, Hl. simpl. rewrite Hid. reflexivity.
  - rewrite (upsertFile_absent dataFile file Hnot), fmap_app. simpl.
    apply NoDup_app. split; [exact Hnd|]. split.
    + intros id Hid Hone. apply list_elem_of_singleton in Hone. subst id.
      apply Hnot. apply list_elem_of_In. exact Hid.
    + apply NoDup_singleton.
Qed.

(** *** What a run changes in the snapshot *)

Lemma fill_updates (P : DataFile -> Prop) (ids : list string) :
  (forall d id st path message now,
     id ∈ ids -> P d -> P (updateFileStatus d id st path message now)) ->
  forall limit queue active (d : DataFile) queue' active' d',
    (forall id, id ∈ owned queue active -> id ∈ ids) ->
    P d ->
    fill limit queue active d = (queue', active', d') ->
    P d' /\ (forall id, id ∈ owned queue' active' -> id ∈ ids).
Proof.
  intros Hupdate limit queue.
  induction queue as [|f rest IH]; intros active d queue' active' d' Hown HP;
    simpl.
  - intros [= <- <- <-]. auto.
  - destruct (Z.of_nat (length active) <? limit)%Z.
    + intros Hfill. apply (IH _ _ _ _ _) in Hfill; [exact Hfill| |].
      * intros id Hid. apply Hown. unfold owned in *.
        rewrite fmap_app, fmap_cons in Hid. rewrite fmap_cons.
        rewrite !elem_of_app, elem_of_cons in *.
        destruct Hid as [Hid|[Hid|[Hid|Hid]]]; auto.
        inversion Hid.
      * apply Hupdate; [|exact HP]. apply Hown. unfold owned.
        rewrite fmap_cons. apply elem_of_app. left. left.
    + intros [= <- <- <-]. auto.
Qed.

Lemma refill_updates (P : DataFile -> Prop) (ids : list string) :
  (forall d id st path message now,
     id ∈ ids -> P d -> P (updateFileStatus d id st path message now)) ->
  forall opts (m : Manager),
    (forall id, id ∈ owned (queue m) (active m) -> id ∈ ids) ->
    P (dataFile m) ->
    P (dataFile (refill opts m))
    /\ (forall id, id ∈ owned (queue (refill opts m)) (active (refill opts m))
                   -> id ∈ ids).
Proof.
  intros Hupdate opts m Hown HP. unfold refill.
  destruct (fill _ _ _ _) as [[queue' active'] d'] eqn:Hfill. simpl.
  eapply fill_updates; eassumption.
Qed.

Lemma owned_delete (queue : list FileEntry) (active : list Task) (i : nat)
    (id : string) :
  id ∈ owned queue (delete i active) -> id ∈ owned queue active.
Proof.
  unfold owned. rewrite !elem_of_app. intros [H|H]; [left; exact H|].
  right. apply list_elem_of_fmap in H as (t & -> & Ht).
  apply list_elem_of_fmap_2. eapply elem_of_sublist; [exact Ht|].
  apply sublist_delete.
Qed.

Lemma owned_task (queue : list FileEntry) (active : list Task) (i : nat)
    (t : Task) :
  active !! i = Some t -> task_id t ∈ owned queue active.
Proof.
  intros Hi. unfold owned. apply elem_of_app. right.
  apply list_elem_of_fmap_2. eapply list_elem_of_lookup_2. exact Hi.
Qed.

(** Every change a step makes to the snapshot is an [updateFileStatus] of
    a job the run owns. *)
Lemma step_updates (P : DataFile -> Prop) (ids : list string) :
  (forall d id st path message now,
     id ∈ ids -> P d -> P (updateFileStatus d id st path message now)) ->
  forall opts (m m' : Manager) (ev : Event),
    (forall id, id ∈ owned (queue m) (active m) -> id ∈ ids) ->
    P (dataFile m) ->
    step opts m ev = Some m' ->
    P (dataFile m')
    /\ (forall id, id ∈ owned (queue m') (active m') -> id ∈ ids).
Proof.
  intros Hupdate opts m m' ev Hown HP Hstep.
  assert (Hfinish : forall d' st' disk' i,
            P d' ->
            let m1 := remove_active i
                        {| dataFile := d'; stats := st'; queue := queue m;
                           active := active m; disk := disk' |} in
            P (dataFile (refill opts m1))
            /\ (forall id, id ∈ owned (queue (refill opts m1))
                                      (active (refill opts m1)) -> id ∈ ids)).
  { intros d' st' disk' i HP' m1. apply refill_updates; [exact Hupdate| |].
    - simpl. intros id Hid. apply Hown. eapply owned_delete. exact Hid.
    - exact HP'. }
  destruct ev as [i env|i peer now]; simpl in Hstep;
    destruct (active m !! i) as [[file ph]|] eqn:Hi; try discriminate;
    destruct ph; try discriminate;
    pose proof (Hown _ (owned_task (queue m) _ _ _ Hi)) as Hfile;
    change (task_id (mkTask file _)) with (f_id file) in Hfile.
  - destruct (saveDataFile _ _ _ _ _) as [disk' [[]|error]];
      injection Hstep as <-.
    + simpl. rewrite owned_set_phase. auto.
    + apply Hfinish. apply Hupdate; assumption.
  - destruct (saveDataFile _ _ _ _ _) as [disk' [[]|error]];
      injection Hstep as <-.
    + apply Hfinish. exact HP.
    + apply Hfinish. apply Hupdate; assumption.
  - destruct (downloadFileWithRetry _ _ _ _ _) as [[disk' events] result].
    injection Hstep as <-. unfold record_result.
    destruct (r_success result); simpl; rewrite owned_set_phase;
      (split; [apply Hupdate; assumption|exact Hown]).
Qed.

Lemma run_events_updates (P : DataFile -> Prop) (ids : list string) :
  (forall d id st path message now,
     id ∈ ids -> P d -> P (updateFileStatus d id st path message now)) ->
  forall opts (schedule : list Event) (m m' : Manager),
    (forall id, id ∈ owned (queue m) (active m) -> id ∈ ids) ->
    P (dataFile m) ->
    run_events opts schedule m = Some m' ->
    P (dataFile m').
Proof.
  intros Hupdate opts schedule.
  induction schedule as [|ev rest IH]; intros m m' Hown HP; simpl.
  - intros [= <-]. exact HP.
  - destruct (step opts m ev) as [m1|] eqn:Hstep; [|discriminate].
    destruct (step_updates P ids Hupdate _ _ _ _ Hown HP Hstep) as [HP1 Hown1].
    apply IH; assumption.
Qed.

(** The same from the start of a run over the candidates [files]. *)
Lemma run_updates (P : DataFile -> Prop) (files : list FileEntry) :
  (forall d id st path message now,
     id ∈ f_id <$> files -> P d ->
     P (updateFileStatus d id st path message now)) ->
  forall opts data st fs (schedule : list Event) (m : Manager),
    P data ->
    run_events opts schedule (begin_run opts data st fs files) = Some m ->
    P (dataFile m).
Proof.
  intros Hupdate opts data st fs schedule m HP Hrun.
  unfold begin_run in Hrun.
  destruct (refill_updates P (f_id <$> files) Hupdate opts
              {| dataFile := data; stats := st; queue := files; active := [];
                 disk := fs |}) as [HP0 Hown0].
  - simpl. unfold owned. simpl. intros id Hid.
    rewrite app_nil_r in Hid. exact Hid.
  - exact HP.
  - eapply run_events_updates; eassumption.
Qed.

Lemma unique_id_same_record (files : list FileEntry) (r : FileEntry) :
  NoDup (f_id <$> files) -> r ∈ files ->
  record_at files (f_id r) = Some r.
Proof.
  unfold record_at. induction files as [|f files IH]; simpl.
  - intros _ H. inversion H.
  - intros Hnd Hr. apply NoDup_cons in Hnd as [Hf Hnd].
    apply elem_of_cons in Hr as [->|Hr].
    + rewrite String.eqb_refl. reflexivity.
    + destruct (String.eqb_spec (f_id f) (f_id r)) as [E|_]; [|auto].
      exfalso. apply Hf. rewrite E. apply list_elem_of_fmap_2. exact Hr.
Qed.

(** *** What the invariant says about the snapshot *)

Lemma in_progress_are_active ids0 cands (m : Manager) :
  NoDup ids0 ->
  Tracked ids0 (f_id <$> cands) m ->
  (length (in_progress_candidates cands m) <= length (active m))%nat.
Proof.
  intros Hnd [Hids Hown Hknown Hq Ha Hcover].
  rewrite <- Hids in Hnd.
  rewrite <- (length_fmap f_id (in_progress_candidates cands m)).
  rewrite <- (length_fmap task_id (active m)).
  apply submseteq_length, NoDup_submseteq.
  - eapply sublist_NoDup; [exact Hnd|].
    apply fmap_sublist. unfold in_progress_candidates. apply sublist_filter.
  - intros id Hid. apply list_elem_of_fmap in Hid as (r & -> & Hr).
    unfold in_progress_candidates in Hr.
    apply list_elem_of_filter in Hr as [[Hst Hcand] Hr].
    pose proof (status_at_record _ _ Hnd Hr) as Hat. rewrite Hst in Hat.
    destruct (Hcover _ Hcand) as [Hin|[Hd|Hd]]; try congruence.
    unfold owned in Hin. apply elem_of_app in Hin as [Hin|Hin]; [|exact Hin].
    exfalso. apply list_elem_of_fmap in Hin as (f & Hf & Hfq).
    rewrite Forall_forall in Hq. apply (Hq f Hfq). rewrite <- Hf. exact Hat.
Qed.

Lemma finished_all_done ids0 cands (m : Manager) (r : FileEntry) :
  NoDup ids0 ->
  Tracked ids0 (f_id <$> cands) m ->
  finished m = true ->
  r ∈ d_files (dataFile m) ->
  f_id r ∈ (f_id <$> cands) ->
  f_downloadStatus r = completed \/ f_downloadStatus r = failed.
Proof.
  intros Hnd [Hids Hown Hknown Hq Ha Hcover] Hfin Hr Hcand.
  rewrite <- Hids in Hnd.
  pose proof (status_at_record _ _ Hnd Hr) as Hat.
  unfold finished in Hfin.
  destruct (queue m) eqn:Hqm; [|discriminate].
  destruct (active m) eqn:Ham; [|discriminate].
  destruct (Hcover _ Hcand) as [Hin|[Hd|Hd]].
  - unfold owned in Hin. simpl in Hin. inversion Hin.
  - left. congruence.
  - right. congruence.
Qed.

(** *** Records that are in-progress *)

Lemma changed_only_refl (ids : list string) (files : list FileEntry) :
  changed_only ids files files.
Proof.
  apply Forall2_same_length_lookup_2; [reflexivity|].
  intros i r r' H1 H2. assert (r' = r) as -> by congruence. auto.
Qed.

Lemma changed_only_update (ids : list string) (files : list FileEntry)
    (d : DataFile) (id : string) (st : DownloadStatus)
    (path message : option string) (now : string) :
  id ∈ ids ->
  changed_only ids files (d_files d) ->
  changed_only ids files
    (d_files (updateFileStatus d id st path message now)).
Proof.
  intros Hid H. unfold updateFileStatus.
  destruct (findIndex _ _) as [i|] eqn:Hfind; [|exact H]. simpl.
  apply findIndex_Some in Hfind as (x & Hx & Hpred & _).
  apply String.eqb_eq in Hpred.
  unfold changed_only in *.
  apply Forall2_same_length_lookup in H as [Hlen H].
  apply Forall2_same_length_lookup_2; [rewrite length_alter; exact Hlen|].
  intros j r0 r Hr0 Hr.
  destruct (decide (j = i)) as [->|Hne].
  - rewrite list_lookup_alter, Hx in Hr. simpl in Hr.
    rewrite decide_True in Hr by reflexivity. injection Hr as <-. destruct (H i r0 x Hr0 Hx) as [Hsame _].
    split; [exact Hsame|]. intros Hout. exfalso. apply Hout.
    rewrite <- Hsame, Hpred. exact Hid.
  - rewrite list_lookup_alter_ne in Hr by congruence. exact (H j r0 r Hr0 Hr).
Qed.

(** The in-progress records after are the in-progress records of [ids]
    and the records that were in-progress before, when no record of [ids]
    was. *)
Lemma changed_only_in_progress (ids : list string)
    (before after : list FileEntry) :
  changed_only ids before after ->
  (forall r0, r0 ∈ before -> f_id r0 ∈ ids ->
              f_downloadStatus r0 <> in_progress) ->
  length (filter_status in_progress after)
  = (length (filter (fun r => f_downloadStatus r = in_progress
                              /\ f_id r ∈ ids) after)
     + length (filter_status in_progress before))%nat
  /\ (forall r0, r0 ∈ filter_status in_progress before -> r0 ∈ after).
Proof.
  unfold filter_status.
  induction 1 as [|r0 r before after [Hid Hkeep] H IH]; intros Hcand.
  - split; [reflexivity|]. intros r0 Hr0. inversion Hr0.
  - destruct IH as [IHlen IHin].
    { intros r1 Hr1. apply Hcand. right. exact Hr1. }
    destruct (decide (f_id r0 ∈ ids)) as [Hin|Hout].
    + assert (Hr0 : f_downloadStatus r0 <> in_progress).
      { apply Hcand; [left|exact Hin]. }
      rewrite (filter_cons_False _ r0) by exact Hr0.
      split.
      * destruct (decide (f_downloadStatus r = in_progress)) as [Hst|Hst].
        -- rewrite !filter_cons_True by (rewrite ?Hid; auto).
           simpl. rewrite IHlen. reflexivity.
        -- rewrite !filter_cons_False by tauto. exact IHlen.
      * intros r1 Hr1. right. apply IHin. exact Hr1.
    + specialize (Hkeep Hout). subst r.
      rewrite (filter_cons_False
                 (fun r => f_downloadStatus r = in_progress /\ f_id r ∈ ids))
        by tauto.
      split.
      * destruct (decide (f_downloadStatus r0 = in_progress)) as [Hst|Hst].
        -- rewrite !filter_cons_True by exact Hst.
           simpl. rewrite IHlen. lia.
        -- rewrite !filter_cons_False by exact Hst. exact IHlen.
      * intros r1 Hr1.
        destruct (decide (f_downloadStatus r0 = in_progress)) as [Hst|Hst].
        -- rewrite filter_cons_True in Hr1 by exact Hst.
           apply elem_of_cons in Hr1 as [->|Hr1]; [left|right; auto].
        -- rewrite filter_cons_False in Hr1 by exact Hst. right. auto.
Qed.

(** Every record that a run changes is a candidate's. *)
Lemma run_changes_candidates_only (opts : DownloadManagerOptions)
    (data : DataFile) (st : DownloadStats) (fs : FS)
    (files : list FileEntry) (schedule : list Event) (m : Manager) :
  run_events opts schedule (begin_run opts data st fs files) = Some m ->
  changed_only (f_id <$> files) (d_files data) (d_files (dataFile m)).
Proof.
  intros Hrun.
  refine (run_updates
            (fun d => changed_only (f_id <$> files) (d_files data) (d_files d))
            files _ opts data st fs schedule m _ Hrun).
  - intros d id status path message now Hid HP.
    apply changed_only_update; assumption.
  - apply changed_only_refl.
Qed.

(** C1, amended.  In a run over the [N] candidate jobs of a snapshot,
    with [C] the configured concurrency, 3 when that is absent or 0, and
    [C] at least 1: every state reached (between two settled operations)
    has at most [C] executions in flight, and while jobs are queued every
    slot is taken, so a slot freed by one finished execution is refilled
    before anything else happens.  A run has at most [3 N] steps, can take
    another step as long as something is queued or in flight, and can
    always be taken to its end.  When the job ids of the snapshot are
    unique: at most [C] candidate jobs are stored as in-progress; the
    records stored as in-progress are those candidates and the records
    that were in-progress when the run started, which the run never
    changes, so their number is at most [C] plus the number of those and
    at most [C] when the snapshot held none; and at the end of the run
    every candidate job is stored as completed or failed. *)
Theorem concurrency_bound (opts : DownloadManagerOptions) (data : DataFile)
    (st : DownloadStats) (fs : FS) (schedule : list Event) (m : Manager) :
  let limit :=
    match download_field concurrency (config opts) with
    | Some n => if (n =? 0)%Z then 3%Z else n
    | None => 3%Z
    end in
  let candidates := getFilesToDownload opts data in
  let stale := filter_status in_progress (d_files data) in
  let running := filter_status in_progress (d_files (dataFile m)) in
  (1 <= limit)%Z ->
  run_events opts schedule (begin_run opts data st fs candidates) = Some m ->
  (Z.of_nat (length (active m)) <= limit)%Z
  /\ (queue m <> [] -> Z.of_nat (length (active m)) = limit)
  /\ (length schedule <= 3 * length candidates)%nat
  /\ (finished m = false -> exists ev m', step opts m ev = Some m')
  /\ (exists rest m', run_events opts rest m = Some m' /\ finished m' = true)
  /\ (NoDup (f_id <$> d_files data) ->
      (Z.of_nat (length (in_progress_candidates candidates m)) <= limit)%Z
      /\ length running
         = (length (in_progress_candidates candidates m) + length stale)%nat
      /\ (Z.of_nat (length running) <= limit + Z.of_nat (length stale))%Z
      /\ (stale = [] -> (Z.of_nat (length running) <= limit)%Z)
      /\ (forall r, r ∈ stale -> r ∈ running)
      /\ (finished m = true ->
          (forall r, r ∈ d_files (dataFile m) ->
                     f_id r ∈ (f_id <$> candidates) ->
                     f_downloadStatus r = completed
                     \/ f_downloadStatus r = failed)
          /\ (forall c, c ∈ candidates ->
                exists r, r ∈ d_files (dataFile m) /\ f_id r = f_id c
                          /\ (f_downloadStatus r = completed
                              \/ f_downloadStatus r = failed)))).
Proof.
  intros limit candidates stale running Hlimit Hrun.
  change limit with (concurrency_of opts) in *.
  destruct (begin_run_slots opts data st fs candidates) as [Hslots0 Hwork0];
    [lia|].
  destruct (run_events_slots _ _ _ _ Hslots0 Hrun) as [Hslots Hlen].
  pose proof Hslots as [Hbound Hfull].
  split; [exact Hbound|]. split; [exact Hfull|]. split; [lia|].
  split; [intros Hfin; eapply step_enabled; eassumption|].
  split; [eapply (run_can_finish _ (work m)); eauto|].
  intros Hnd.
  pose proof (run_events_tracked _ _ _ _ _ _
                (begin_run_tracked opts data st fs Hnd) Hrun) as Hinv.
  fold candidates in Hinv.
  pose proof (in_progress_are_active _ _ _ Hnd Hinv) as Hprog.
  destruct (changed_only_in_progress (f_id <$> candidates) (d_files data)
              (d_files (dataFile m))
              (run_changes_candidates_only _ _ _ _ _ _ _ Hrun))
    as [Hcount Hstale].
  { intros r0 Hr0 Hid Hst.
    apply list_elem_of_fmap in Hid as (c & Hc & Hcand).
    assert (Hc0 : c ∈ d_files data).
    { eapply elem_of_sublist; [exact Hcand|].
      apply getFilesToDownload_sublist. }
    pose proof (unique_id_same_record _ _ Hnd Hr0) as H0.
    pose proof (unique_id_same_record _ _ Hnd Hc0) as H1.
    rewrite Hc, H1 in H0. injection H0 as ->.
    destruct (getFilesToDownload_status _ _ _ Hcand); congruence. }
  fold stale in Hcount, Hstale. fold running in Hcount.
  change (filter (fun r => f_downloadStatus r = in_progress
                           /\ f_id r ∈ f_id <$> candidates)
                 (d_files (dataFile m)))
    with (in_progress_candidates candidates m) in Hcount.
  split; [lia|]. split; [exact Hcount|]. split; [lia|].
  split; [intros Hnone; rewrite Hcount, Hnone; simpl; lia|].
  split.
  { intros r Hr. unfold running, filter_status.
    apply list_elem_of_filter. split; [|apply Hstale; exact Hr].
    unfold stale, filter_status in Hr.
    apply list_elem_of_filter in Hr as [Hst _]. exact Hst. }
  intros Hfin.
  assert (Hall : forall r, r ∈ d_files (dataFile m) ->
                   f_id r ∈ (f_id <$> candidates) ->
                   f_downloadStatus r = completed
                   \/ f_downloadStatus r = failed).
  { intros r. eapply finished_all_done; eassumption. }
  split; [exact Hall|].
  intros c Hc.
  assert (Hid : f_id c ∈ (f_id <$> d_files (dataFile m))).
  { rewrite (inv_ids _ _ _ _ _ Hinv). apply list_elem_of_fmap_2.
    eapply elem_of_sublist; [exact Hc|]. apply getFilesToDownload_sublist. }
  apply list_elem_of_fmap in Hid as (r & Hr & Hin).
  exists r. split; [exact Hin|]. split; [auto|].
  apply Hall; [exact Hin|]. rewrite <- Hr. apply list_elem_of_fmap_2. exact Hc.
Qed.

Lemma concurrency_bound_witness :
  match run_events two_at_a_time sample_schedule
          (begin_run two_at_a_time five_pending constructor_stats ∅
             (getFilesToDownload two_at_a_time five_pending)) with
  | Some m =>
      (Z.of_nat (length (active m)) <= 2)%Z
      /\ (Z.of_nat (length (filter_status in_progress
                              (d_files (dataFile m)))) <= 2)%Z
  | None => False
  end.
Proof.
  destruct (run_events two_at_a_time sample_schedule
              (begin_run two_at_a_time five_pending constructor_stats ∅
                 (getFilesToDownload two_at_a_time five_pending)))
    as [m|] eqn:Hrun.
  - assert (Hlimit : (1 <= 2)%Z) by lia.
    assert (Hnd : NoDup (f_id <$> d_files five_pending))
      by (apply (bool_decide_unpack _); vm_compute; exact I).
    destruct (concurrency_bound two_at_a_time five_pending constructor_stats
                ∅ sample_schedule m Hlimit Hrun)
      as (Hactive & _ & _ & _ & _ & Hrecords).
    destruct (Hrecords Hnd) as (_ & _ & _ & Hnone & _).
    split; [exact Hactive|]. apply Hnone. reflexivity.
  - assert (H : match run_events two_at_a_time sample_schedule
                        (begin_run two_at_a_time five_pending
                           constructor_stats ∅
                           (getFilesToDownload two_at_a_time five_pending))
                with
                | Some _ => true
                | None => false
                end = true) by (vm_compute; reflexivity).
    rewrite Hrun in H. discriminate.
Defined.

(** The claim of C1 fails for a snapshot that holds an in-progress record
    when the run starts, as an interrupted run leaves one: that record is
    not a candidate, it stays in-progress, and with a bound of 1 the first
    state of the run stores two jobs as in-progress. *)
Lemma stale_in_progress_exceeds_the_bound :
  let candidates := getFilesToDownload one_at_a_time interrupted_store in
  let m := begin_run one_at_a_time interrupted_store constructor_stats ∅
                     candidates in
  concurrency_of one_at_a_time = 1%Z
  /\ NoDup (f_id <$> d_files interrupted_store)
  /\ f_id <$> candidates = ["g1:8"]
  /\ task_id <$> active m = ["g1:8"]
  /\ f_downloadStatus <$> d_files (dataFile m)
     = [completed; in_progress; in_progress]
  /\ ~ (Z.of_nat (length (filter_status in_progress (d_files (dataFile m))))
        <= concurrency_of one_at_a_time)%Z.
Proof.
  intros candidates m. split; [reflexivity|]. split.
  { apply (bool_decide_unpack _). vm_compute. exact I. }
  split; [reflexivity|]. split; [reflexivity|]. split; [reflexivity|].
  vm_compute. intros H. apply H. reflexivity.
Qed.

(** Unique ids are needed at the end of a run: [updateFileStatus]
    addresses the first record with an id, so of two candidates with one
    id the second is still pending when both executions are over. *)
Example duplicate_ids_leave_a_candidate_pending :
  match run_events sample_options
          [SaveSettled 0 quiet_env; SaveSettled 1 quiet_env;
           TransferSettled 0 (fun _ => Media "abc") "2024-01-01T00:00:05.000Z";
           TransferSettled 1 (fun _ => Media "abc") "2024-01-01T00:00:06.000Z";
           SaveSettled 0 quiet_env; SaveSettled 0 quiet_env]
          (begin_run sample_options (snapshot_of [job_of_3; job_of_3])
             constructor_stats ∅
             (getFilesToDownload sample_options
                (snapshot_of [job_of_3; job_of_3]))) with
  | Some m =>
      finished m = true
      /\ f_downloadStatus <$> d_files (dataFile m) = [completed; pending]
  | None => False
  end.
Proof. vm_compute. repeat split. Qed.

Example two_in_flight_after_a_failed_save :
  match run_events two_at_a_time sample_schedule
          (begin_run two_at_a_time five_pending constructor_stats ∅
             (getFilesToDownload two_at_a_time five_pending)) with
  | Some m =>
      task_id <$> active m = ["g1:3"; "g1:4"]
      /\ f_id <$> queue m = ["g1:5"]
      /\ f_downloadStatus <$> d_files (dataFile m)
         = [completed; failed; in_progress; in_progress; pending]
  | None => False
  end.
Proof. vm_compute. repeat split. Qed.

(** ** Run statistics *)

Lemma step_skipped opts m m' ev :
  step opts m ev = Some m' -> skipped (stats m') = skipped (stats m).
Proof.
  destruct ev as [i env|i peer now]; simpl;
    destruct (active m !! i) as [[file ph]|]; try discriminate;
    destruct ph; try discriminate.
  - destruct (saveDataFile _ _ _ _ _) as [disk' [[]|error]];
      intros [= <-]; rewrite ?refill_stats; reflexivity.
  - destruct (saveDataFile _ _ _ _ _) as [disk' [[]|error]];
      intros [= <-]; rewrite ?refill_stats; reflexivity.
  - destruct (downloadFileWithRetry _ _ _ _ _) as [[disk' events] result].
    intros [= <-]. unfold record_result.
    destruct (r_success result); reflexivity.
Qed.

Lemma run_events_skipped opts schedule m m' :
  run_events opts schedule m = Some m' ->
  skipped (stats m') = skipped (stats m).
Proof.
  revert m. induction schedule as [|ev rest IH]; intros m; simpl.
  - intros [= <-]. reflexivity.
  - destruct (step opts m ev) as [m1|] eqn:Hstep; [|discriminate].
    intros Hrun. rewrite (IH _ Hrun). eapply step_skipped. exact Hstep.
Qed.

Lemma start_skipped opts fs now schedule finalEnv disk' result :
  start opts fs now schedule finalEnv = Some (disk', Returned result) ->
  skipped result = 0%Z.
Proof.
  unfold start.
  destruct (loadDataFile now fs (dataFilePath opts)) as [data|error];
    [|discriminate].
  destruct (getFilesToDownload opts data) as [|f cands] eqn:Hc.
  - intros [= _ <-]. reflexivity.
  - destruct (run_events _ _ _) as [m|] eqn:Hrun; [|discriminate].
    destruct (finished m); [|discriminate].
    destruct (saveDataFile _ _ _ _ _) as [disk1 [[]|error]];
      intros [= _ <-].
    rewrite (run_events_skipped _ _ _ _ Hrun). unfold begin_run.
    rewrite refill_stats. reflexivity.
Qed.

(** [downloadFile] when the output exists and overwriting is off. *)
Lemma downloadFile_existing (remote : Remote) (fs : FS) (file : FileEntry)
    (groupHandle : string) (config : Configuration) :
  download_flag overwriteExisting config = false ->
  output_exists fs config file groupHandle = true ->
  downloadFile remote fs file groupHandle config
  = (fs, mkResult true file
           (Some (outputPath_string config file groupHandle)) None).
Proof.
  intros Hflag Hexists. unfold downloadFile, downloadFile_try.
  rewrite Hflag, Hexists. reflexivity.
Qed.

Lemma downloadFileWithRetry_existing (peer : Z -> Remote) (fs : FS)
    (file : FileEntry) (groupHandle : string) (config : Configuration) :
  (1 <= maxAttempts_of config)%Z ->
  download_flag overwriteExisting config = false ->
  output_exists fs config file groupHandle = true ->
  downloadFileWithRetry peer fs file groupHandle config
  = (fs, [Attempt 1],
     mkResult true file
       (Some (outputPath_string config file groupHandle)) None).
Proof.
  intros Hmax Hflag Hexists. unfold downloadFileWithRetry.
  destruct (Z.to_nat (maxAttempts_of config)) as [|n] eqn:Hn; [lia|].
  simpl. rewrite (downloadFile_existing _ _ _ _ _ Hflag Hexists). reflexivity.
Qed.

Example existing_output_counts_as_completed :
  match start sample_options already_there "2024-01-01T00:00:00.000Z"
          [SaveSettled 0 quiet_env;
           TransferSettled 0 (fun _ => NoMessages) "2024-01-01T00:00:01.000Z";
           SaveSettled 0 quiet_env]
          quiet_env with
  | Some (disk', Returned result) =>
      result = mkStats 1 1 0 0 3 3
      /\ disk' !! ("/srv/downloads/g1", "note.txt") = Some (Blob "x")
  | _ => False
  end.
Proof. vm_compute. repeat split. Qed.

(** ** Persistence failures during a run *)

Lemma fill_record_other limit queue active (d : DataFile) queue' active' d'
    (id : string) :
  fill limit queue active d = (queue', active', d') ->
  id ∉ (f_id <$> queue) ->
  record_at (d_files d') id = record_at (d_files d) id.
Proof.
  revert active d. induction queue as [|f rest IH]; intros active d; simpl.
  - intros [= _ _ <-] _. reflexivity.
  - destruct (Z.of_nat (length active) <? limit)%Z.
    + intros Hfill Hnot. rewrite (IH _ _ Hfill).
      * apply record_at_update_other. intros ->. apply Hnot. left.
      * intros Hin. apply Hnot. right. exact Hin.
    + intros [= _ _ <-] _. reflexivity.
Qed.

Lemma refill_record_other opts (m : Manager) (id : string) :
  id ∉ (f_id <$> queue m) ->
  record_at (d_files (dataFile (refill opts m))) id
  = record_at (d_files (dataFile m)) id.
Proof.
  intros Hnot. unfold refill.
  destruct (fill _ _ _ _) as [[queue' active'] d'] eqn:Hfill. simpl.
  eapply fill_record_other; eassumption.
Qed.

(** The claim of C4 fails on a run with one job whose first save meets a
    full disk: [saveDataFile] throws, and [start()] nevertheless returns
    its statistics, with the job counted and stored as failed. *)
Lemma per_job_save_failure_is_caught :
  snd (saveDataFile full_disk_env (disk one_job_started)
         (dataFilePath sample_options) (dataFile one_job_started) true)
  = Thrown ENOSPC
  /\ match start sample_options one_job_disk "2024-01-01T00:00:00.000Z"
              [SaveSettled 0 full_disk_env] quiet_env with
     | Some (disk', Returned result) =>
         result = mkStats 1 0 1 0 3 0
         /\ f_errorMessage <$> stored_files disk' ("data", "data.json")
            = [Some "ENOSPC: no space left on device, write"]
     | _ => False
     end.
Proof. vm_compute. repeat split. Qed.

(** C4, amended.  An error thrown by the initial load or by the final
    save of [start()] propagates out of the run.  An error thrown by a
    save inside a job's execution is caught there: the step goes through,
    the job is stored as failed with the error's message, [failed] is
    incremented and the run goes on. *)
Theorem save_failure_handling (opts : DownloadManagerOptions) :
  (forall (fs : FS) (now : string) (schedule : list Event)
          (finalEnv : SaveEnv) (error : JsError),
     loadDataFile now fs (dataFilePath opts) = Thrown error ->
     start opts fs now schedule finalEnv = Some (fs, Thrown error))
  /\ (forall (fs disk' : FS) (now : string) (schedule : list Event)
             (finalEnv : SaveEnv) (data : DataFile) (m : Manager)
             (error : JsError),
        loadDataFile now fs (dataFilePath opts) = Returned data ->
        getFilesToDownload opts data <> [] ->
        run_events opts schedule
          (begin_run opts data
             (set_totals constructor_stats (getFilesToDownload opts data))
             fs (getFilesToDownload opts data)) = Some m ->
        finished m = true ->
        saveDataFile finalEnv (disk m) (dataFilePath opts) (dataFile m) true
          = (disk', Thrown error) ->
        start opts fs now schedule finalEnv = Some (disk', Thrown error))
  /\ (forall (m : Manager) (i : nat) (file r : FileEntry) (ph : phase)
             (env : SaveEnv) (error : JsError),
        active m !! i = Some (mkTask file ph) ->
        ph <> Transferring ->
        snd (saveDataFile env (disk m) (dataFilePath opts) (dataFile m) true)
          = Thrown error ->
        record_at (d_files (dataFile m)) (f_id file) = Some r ->
        f_id file ∉ (f_id <$> queue m) ->
        exists m' r',
          step opts m (SaveSettled i env) = Some m'
          /\ s_failed (stats m') = (s_failed (stats m) + 1)%Z
          /\ record_at (d_files (dataFile m')) (f_id file) = Some r'
          /\ f_downloadStatus r' = failed
          /\ (truthy (e_message error) = true ->
              f_errorMessage r' = Some (e_message error))).
Proof.
  split; [|split].
  - intros fs now schedule finalEnv error Hload. unfold start.
    rewrite Hload. reflexivity.
  - intros fs disk' now schedule finalEnv data m error Hload Hcands Hrun
           Hfin Hsave.
    unfold start. rewrite Hload.
    destruct (getFilesToDownload opts data) as [|f cands] eqn:Hc;
      [contradiction|].
    rewrite Hrun, Hfin, Hsave. reflexivity.
  - intros m i file r ph env error Hi Hph Hsave Hr Hnot.
    destruct (saveDataFile env (disk m) (dataFilePath opts) (dataFile m) true)
      as [disk' saved] eqn:Hsaved.
    simpl in Hsave. subst saved. rename Hsaved into Hsave.
    exists (refill opts (remove_active i (catch_failure m file error disk'))),
           (set_status failed None (Some (e_message error)) "" r).
    split.
    { simpl. rewrite Hi. destruct ph; try contradiction;
        rewrite Hsave; reflexivity. }
    split; [rewrite refill_stats; reflexivity|].
    split.
    { rewrite refill_record_other by exact Hnot. simpl.
      apply record_at_update_same. exact Hr. }
    split; [reflexivity|].
    intros Htruthy. simpl. rewrite Htruthy. reflexivity.
Qed.

Lemma save_failure_handling_witness :
  exists m' r',
    step sample_options waiting_for_save (SaveSettled 0 full_disk_env)
    = Some m'
    /\ record_at (d_files (dataFile m')) (f_id job_of_3) = Some r'
    /\ f_downloadStatus r' = failed
    /\ f_errorMessage r' = Some (e_message ENOSPC).
Proof.
  destruct (save_failure_handling sample_options) as (_ & _ & Hcaught).
  destruct (Hcaught waiting_for_save 0%nat job_of_3
              (set_status in_progress None None "" job_of_3)
              SavingStart full_disk_env ENOSPC)
    as (m' & r' & Hstep & _ & Hrec & Hst & Hmsg).
  - reflexivity.
  - discriminate.
  - vm_compute. reflexivity.
  - vm_compute. reflexivity.
  - simpl. intros H. inversion H.
  - exists m', r'. split; [exact Hstep|]. split; [exact Hrec|].
    split; [exact Hst|]. apply Hmsg. reflexivity.
Defined.

(** ** A failed job that later succeeds *)

Lemma normalize_truthy (path : string) : truthy (normalize path) = true.
Proof.
  unfold normalize. destruct (String.eqb path ""); [reflexivity|].
  destruct (normalizeString path (negb (is_absolute path))) as [|c rest].
  - simpl. destruct (is_absolute path), (trailing_slash path); reflexivity.
  - simpl. destruct (is_absolute path), (trailing_slash path); reflexivity.
Qed.

Lemma posix_join_truthy (a b : string) : truthy (posix_join a b) = true.
Proof.
  unfold posix_join. destruct a, b; try reflexivity; apply normalize_truthy.
Qed.

(** The output path is never the empty string. *)
Lemma outputPath_string_truthy (config : Configuration) (file : FileEntry)
    (groupHandle : string) :
  truthy (outputPath_string config file groupHandle) = true.
Proof. apply posix_join_truthy. Qed.

(** A successful result of [downloadFile] names the output path. *)
Lemma downloadFile_success_path (remote : Remote) (fs : FS)
    (file : FileEntry) (groupHandle : string) (config : Configuration) :
  r_success (snd (downloadFile remote fs file groupHandle config)) = true ->
  truthy_opt
    (r_downloadPath (snd (downloadFile remote fs file groupHandle config)))
  = true.
Proof.
  unfold downloadFile, downloadFile_try.
  destruct (negb (download_flag overwriteExisting config)
            && output_exists fs config file groupHandle)%bool.
  - intros _. simpl. apply outputPath_string_truthy.
  - unfold transfer. destruct remote; simpl; try discriminate.
    unfold stat_size. rewrite lookup_insert_eq.
    destruct (negb _); simpl; [discriminate|].
    destruct (output_is_directory fs config file groupHandle); simpl;
      [discriminate|].
    intros _. apply outputPath_string_truthy.
Qed.

Lemma downloadFileWithRetry_success_path (peer : Z -> Remote) (fs : FS)
    (file : FileEntry) (groupHandle : string) (config : Configuration) :
  let result :=
    snd (downloadFileWithRetry peer fs file groupHandle config) in
  r_success result = true -> truthy_opt (r_downloadPath result) = true.
Proof.
  unfold downloadFileWithRetry.
  destruct (retry_loop_spec (maxAttempts_of config) (retryDelay_of config)
              peer file groupHandle config
              (Z.to_nat (maxAttempts_of config)) 1%Z fs)
    as (k & _ & _ & _ & _ & Hfin); [f_equal; lia|].
  destruct (retry_loop _ _ _ _ _ _ _ _ _) as [[fs1 events] [result|]];
    simpl in *; [|discriminate].
  destruct Hfin as (_ & _ & ->). apply downloadFile_success_path.
Qed.

(** [updateFileStatus] keeps every completed record with a path, unless it
    marks a record completed without giving one. *)
Lemma updateFileStatus_completed_path (d : DataFile) (id : string)
    (status : DownloadStatus) (path message : option string) (now : string) :
  (status = completed -> truthy_opt path = true) ->
  completed_have_path (d_files d) ->
  completed_have_path
    (d_files (updateFileStatus d id status path message now)).
Proof.
  intros Hstatus Hall. unfold updateFileStatus.
  destruct (findIndex _ _) as [i|]; [|exact Hall]. simpl.
  apply Forall_alter; [exact Hall|].
  intros r _ _. simpl. intros Hc.
  rewrite (Hstatus Hc). exact (Hstatus Hc).
Qed.

Lemma fill_completed_path limit queue active (d : DataFile) queue' active' d' :
  fill limit queue active d = (queue', active', d') ->
  completed_have_path (d_files d) -> completed_have_path (d_files d').
Proof.
  revert active d. induction queue as [|f rest IH]; intros active d; simpl.
  - intros [= _ _ <-] H. exact H.
  - destruct (Z.of_nat (length active) <? limit)%Z.
    + intros Hfill H. apply (IH _ _ Hfill).
      apply updateFileStatus_completed_path; [discriminate|exact H].
    + intros [= _ _ <-] H. exact H.
Qed.

Lemma refill_completed_path opts (m : Manager) :
  completed_have_path (d_files (dataFile m)) ->
  completed_have_path (d_files (dataFile (refill opts m))).
Proof.
  intros H. unfold refill.
  destruct (fill _ _ _ _) as [[queue' active'] d'] eqn:Hfill. simpl.
  eapply fill_completed_path; eassumption.
Qed.

Lemma step_completed_path opts (m m' : Manager) (ev : Event) :
  completed_have_path (d_files (dataFile m)) ->
  step opts m ev = Some m' ->
  completed_have_path (d_files (dataFile m')).
Proof.
  intros H Hstep. destruct ev as [i env|i peer now]; simpl in Hstep;
    destruct (active m !! i) as [[file ph]|]; try discriminate;
    destruct ph; try discriminate.
  - destruct (saveDataFile _ _ _ _ _) as [disk' [[]|error]];
      injection Hstep as <-; [exact H|].
    apply refill_completed_path. simpl.
    apply updateFileStatus_completed_path; [discriminate|exact H].
  - destruct (saveDataFile _ _ _ _ _) as [disk' [[]|error]];
      injection Hstep as <-; apply refill_completed_path; simpl;
      [exact H|].
    apply updateFileStatus_completed_path; [discriminate|exact H].
  - pose proof (downloadFileWithRetry_success_path peer (disk m) file
                  (groupHandle_of (dataFile m) file) (config opts)) as Hpath.
    destruct (downloadFileWithRetry _ _ _ _ _) as [[disk' events] result].
    simpl in Hpath. injection Hstep as <-. unfold set_phase, record_result.
    destruct (r_success result) eqn:Hok; simpl.
    + apply updateFileStatus_completed_path; [auto|exact H].
    + apply updateFileStatus_completed_path; [discriminate|exact H].
Qed.

(** The half of the invariant that the scheduler keeps: in every state of
    a run that started with it, a completed record has its download
    path. *)
Lemma run_events_completed_path opts (schedule : list Event)
    (m m' : Manager) :
  completed_have_path (d_files (dataFile m)) ->
  run_events opts schedule m = Some m' ->
  completed_have_path (d_files (dataFile m')).
Proof.
  revert m. induction schedule as [|ev rest IH]; intros m H; simpl.
  - intros [= <-]. exact H.
  - destruct (step opts m ev) as [m1|] eqn:Hstep; [|discriminate].
    apply IH. eapply step_completed_path; eassumption.
Qed.

(** [updateFileStatus] assigns [errorMessage] only when it is given one,
    so marking a record completed leaves an earlier message in place. *)
Lemma set_status_completed_keeps_error (path : option string) (now : string)
    (r : FileEntry) :
  f_errorMessage (set_status completed path None now r) = f_errorMessage r.
Proof. reflexivity. Qed.

(** C5, on the code.  A job fails in a first run and is stored as failed
    with the message of the retry policy; a second run in resume mode
    downloads it.  The stored record is then completed, has its download
    path, and still carries the error message of the first run. *)
Theorem completed_job_keeps_error_message :
  match start resume_options one_job_disk "2024-01-01T00:00:00.000Z"
          failing_schedule quiet_env with
  | Some (disk1, Returned _) =>
      stored_states disk1 ("data", "data.json")
      = [(failed, None, Some "Failed after 3 attempts")]
      /\ match start resume_options disk1 "2024-01-02T00:00:00.000Z"
                 succeeding_schedule quiet_env with
         | Some (disk2, Returned _) =>
             stored_states disk2 ("data", "data.json")
             = [(completed, Some "/srv/downloads/g1/note.txt",
                 Some "Failed after 3 attempts")]
         | _ => False
         end
  | _ => False
  end.
Proof. vm_compute. repeat split. Qed.

(** ** Secret store *)

Lemma split_on_nonempty (sep : ascii) (s : string) : split_on sep s <> [].
Proof.
  destruct s as [|c s]; simpl; [discriminate|].
  destruct (Ascii.eqb c sep); [discriminate|].
  destruct (split_on sep s); discriminate.
Qed.

(** [(x + sep + y).split(sep)] is [x.split(sep)] followed by
    [y.split(sep)]. *)
Lemma split_on_join (sep : ascii) (x y : string) :
  split_on sep (x +:+ String sep y) = (split_on sep x ++ split_on sep y)%list.
Proof.
  induction x as [|c x IH].
  - change (split_on sep (String sep y)
            = ([EmptyString] ++ split_on sep y)%list).
    simpl. rewrite Ascii.eqb_refl. reflexivity.
  - change (split_on sep (String c (x +:+ String sep y))
            = (split_on sep (String c x) ++ split_on sep y)%list).
    simpl. destruct (Ascii.eqb c sep).
    + rewrite IH. reflexivity.
    + rewrite IH. pose proof (split_on_nonempty sep x) as Hne.
      destruct (split_on sep x) as [|first others]; [contradiction|].
      reflexivity.
Qed.

Lemma split_on_single (sep : ascii) (s x : string) :
  split_on sep s = [x] -> x = s.
Proof.
  revert x. induction s as [|c s IH]; intros x; simpl.
  - intros [= <-]. reflexivity.
  - destruct (Ascii.eqb c sep).
    + intros [= _ Hrest]. exfalso. exact (split_on_nonempty sep s Hrest).
    + destruct (split_on sep s) as [|first others] eqn:E.
      * exfalso. exact (split_on_nonempty sep s E).
      * intros [= <- ->]. f_equal. apply IH. reflexivity.
Qed.

Section SecretStoreProperties.
Context {C : Crypto} {L : CryptoLaws C}.
Variable machineId : string.

Lemma split_triple (a b c : string) :
  split_on ":" (to_base64 a +:+ ":" +:+ b +:+ ":" +:+ to_base64 c)
  = ([to_base64 a] ++ split_on ":" b ++ [to_base64 c])%list.
Proof.
  change (to_base64 a +:+ ":" +:+ b +:+ ":" +:+ to_base64 c)
    with (to_base64 a +:+ String ":" (b +:+ String ":" (to_base64 c))).
  rewrite !split_on_join, !base64_no_colon. reflexivity.
Qed.

Lemma encrypt_parts (iv data : string) (password : option string) :
  split_on ":" (encrypt machineId iv data password)
  = [to_base64 iv;
     to_base64 (snd (gcm_encrypt (deriveKey machineId password) iv data));
     to_base64 (fst (gcm_encrypt (deriveKey machineId password) iv data))].
Proof.
  unfold encrypt.
  destruct (gcm_encrypt (deriveKey machineId password) iv data)
    as [encrypted authTag].
  rewrite split_triple, base64_no_colon. reflexivity.
Qed.

Lemma decrypt_encrypt (iv data : string) (password : option string) :
  decrypt machineId (encrypt machineId iv data password) password
  = Returned data.
Proof.
  unfold decrypt. rewrite encrypt_parts, !base64_round_trip, gcm_round_trip.
  reflexivity.
Qed.

(** Passphrases with the same key material derive the same key. *)
Lemma decrypt_same_material (iv data : string)
    (password other : option string) :
  str_or other machineId = str_or password machineId ->
  decrypt machineId (encrypt machineId iv data password) other
  = Returned data.
Proof.
  intros Hsame. unfold decrypt. rewrite encrypt_parts, !base64_round_trip.
  assert (Hkey : deriveKey machineId other = deriveKey machineId password).
  { unfold deriveKey. rewrite Hsame. reflexivity. }
  rewrite Hkey, gcm_round_trip. reflexivity.
Qed.

(** On an input of three parts [decrypt] does what the decipher does. *)
Lemma decrypt_three_parts (encryptedData ivBase64 authTagBase64
    encryptedBase64 : string) (password : option string) :
  split_on ":" encryptedData
  = [ivBase64; authTagBase64; encryptedBase64] ->
  decrypt machineId encryptedData password
  = match gcm_decrypt (deriveKey machineId password)
            (from_base64 ivBase64) (from_base64 encryptedBase64)
            (from_base64 authTagBase64) with
    | Some decrypted => Returned decrypted
    | None => Thrown AuthenticationFailure
    end.
Proof.
  intros Hsplit. unfold decrypt. rewrite Hsplit, base64_round_trip.
  reflexivity.
Qed.

(** A tag segment that was changed: with a colon in it the input no longer
    has three parts; without one, only the tag it decodes to counts. *)
Lemma decrypt_changed_segment (iv data : string) (password : option string)
    (segment : string) :
  let key := deriveKey machineId password in
  let tampered :=
    to_base64 iv +:+ ":" +:+ segment +:+ ":" +:+
    to_base64 (fst (gcm_encrypt key iv data)) in
  (length (split_on ":" segment) <> 1%nat ->
   decrypt machineId tampered password = Thrown InvalidFormat)
  /\ (length (split_on ":" segment) = 1%nat ->
      from_base64 segment = snd (gcm_encrypt key iv data) ->
      decrypt machineId tampered password = Returned data).
Proof.
  intros key tampered. unfold decrypt, tampered. rewrite split_triple.
  destruct (split_on ":" segment) as [|s [|s' more]] eqn:Hsplit.
  - exfalso. exact (split_on_nonempty _ _ Hsplit).
  - apply split_on_single in Hsplit. subst s. simpl. split; [lia|].
    intros _ Htag. rewrite !base64_round_trip, Htag. fold key.
    rewrite gcm_round_trip. reflexivity.
  - simpl. split; [|lia]. intros _. destruct more; reflexivity.
Qed.

Lemma decrypt_bad_format (encryptedData : string)
    (password : option string) :
  length (split_on ":" encryptedData) <> 3%nat ->
  decrypt machineId encryptedData password = Thrown InvalidFormat.
Proof.
  intros Hlen. unfold decrypt.
  destruct (split_on ":" encryptedData) as [|a [|b [|c [|d rest]]]];
    try reflexivity.
  simpl in Hlen. lia.
Qed.

(** The empty passphrase and the machine identifier used as a passphrase
    derive the same key. *)
Lemma decrypt_empty_passphrase (iv data : string) :
  decrypt machineId (encrypt machineId iv data (Some ""))
          (Some machineId) = Returned data.
Proof.
  unfold decrypt. rewrite encrypt_parts, !base64_round_trip.
  assert (Hkey : deriveKey machineId (Some machineId)
                 = deriveKey machineId (Some "")).
  { unfold deriveKey. f_equal. simpl. destruct (truthy machineId) eqn:E.
    - reflexivity.
    - reflexivity. }
  rewrite Hkey, gcm_round_trip. reflexivity.
Qed.
End SecretStoreProperties.

Lemma unescape_escape_colon (b : string) : unescape_colon (escape_colon b) = b.
Proof.
  induction b as [|c b IH]; simpl; [reflexivity|].
  destruct (Ascii.eqb_spec c ":") as [->|Hcolon]; simpl.
  - rewrite IH. reflexivity.
  - destruct (Ascii.eqb_spec c "%") as [->|Hpercent]; simpl.
    + rewrite IH. reflexivity.
    + destruct (Ascii.eqb_spec c "%") as [|_]; [contradiction|].
      rewrite IH. reflexivity.
Qed.

Lemma escape_colon_no_colon (b : string) :
  split_on ":" (escape_colon b) = [escape_colon b].
Proof.
  induction b as [|c b IH]; simpl; [reflexivity|].
  destruct (Ascii.eqb_spec c ":") as [->|Hcolon]; simpl.
  - rewrite IH. reflexivity.
  - destruct (Ascii.eqb_spec c "%") as [->|Hpercent]; simpl.
    + rewrite IH. reflexivity.
    + destruct (Ascii.eqb_spec c ":") as [|_]; [contradiction|].
      rewrite IH. reflexivity.
Qed.

Lemma symbolic_crypto_laws : CryptoLaws symbolic_crypto.
Proof.
  split; simpl.
  - apply unescape_escape_colon.
  - apply escape_colon_no_colon.
  - intros key iv data. rewrite String.eqb_refl. reflexivity.
Qed.

(** C8, amended.  For primitives that meet their round-trip laws:
    decrypting what [encrypt] produced, with the same passphrase, gives
    the plaintext back, and so does decrypting with any passphrase of the
    same key material (the passphrase, or the machine identifier when the
    passphrase is empty or absent); the output of [encrypt] splits on the
    colon into exactly three parts.  An input that does not split into
    exactly three parts is rejected with the format error, under every
    passphrase.  On an input of three parts [decrypt] returns what the
    decipher releases for the three decoded parts under the derived key,
    and throws when the decipher throws: the module adds no check of its
    own, so whether another passphrase or a changed tag is rejected is the
    decipher's doing.  A tag segment changed to hold a colon makes the
    input one of more than three parts, which is rejected for its format;
    a tag segment changed to another text that decodes to the same tag
    still decrypts to the plaintext. *)
Theorem secret_store_round_trip (C : Crypto) (L : CryptoLaws C)
    (machineId iv data : string) (password : option string) :
  decrypt machineId (encrypt machineId iv data password) password
  = Returned data
  /\ length (split_on ":" (encrypt machineId iv data password)) = 3%nat
  /\ (forall other : option string,
        str_or other machineId = str_or password machineId ->
        decrypt machineId (encrypt machineId iv data password) other
        = Returned data)
  /\ (forall (encryptedData : string) (other : option string),
        length (split_on ":" encryptedData) <> 3%nat ->
        decrypt machineId encryptedData other = Thrown InvalidFormat)
  /\ (forall (encryptedData ivBase64 authTagBase64 encryptedBase64 : string)
             (other : option string),
        split_on ":" encryptedData
        = [ivBase64; authTagBase64; encryptedBase64] ->
        decrypt machineId encryptedData other
        = match gcm_decrypt (deriveKey machineId other)
                  (from_base64 ivBase64) (from_base64 encryptedBase64)
                  (from_base64 authTagBase64) with
          | Some decrypted => Returned decrypted
          | None => Thrown AuthenticationFailure
          end)
  /\ (forall segment : string,
        let key := deriveKey machineId password in
        let tampered :=
          to_base64 iv +:+ ":" +:+ segment +:+ ":" +:+
          to_base64 (fst (gcm_encrypt key iv data)) in
        (length (split_on ":" segment) <> 1%nat ->
         decrypt machineId tampered password = Thrown InvalidFormat)
        /\ (length (split_on ":" segment) = 1%nat ->
            from_base64 segment = snd (gcm_encrypt key iv data) ->
            decrypt machineId tampered password = Returned data)).
Proof.
  split; [apply decrypt_encrypt|].
  split; [rewrite encrypt_parts; reflexivity|].
  split; [intros other; apply decrypt_same_material|].
  split; [intros encryptedData other; apply decrypt_bad_format|].
  split.
  - intros encryptedData ivBase64 authTagBase64 encryptedBase64 other.
    apply decrypt_three_parts.
  - intros segment. apply decrypt_changed_segment.
Qed.

Lemma secret_store_round_trip_witness :
  @decrypt symbolic_crypto "host-1" sealed_hello (Some "pw")
  = Returned "hello world"
  /\ @decrypt symbolic_crypto "host-1" "only:two" (Some "pw")
     = Thrown InvalidFormat
  /\ @decrypt symbolic_crypto "host-1" "nonce:%pw:hello world" (Some "pw")
     = Returned "hello world".
Proof.
  destruct (secret_store_round_trip symbolic_crypto symbolic_crypto_laws
              "host-1" "nonce" "hello world" (Some "pw"))
    as (Hsame & _ & _ & Hformat & _ & Hsegment).
  split; [exact Hsame|]. split.
  - apply Hformat. simpl. lia.
  - destruct (Hsegment "%pw") as [_ Htag].
    apply Htag; reflexivity.
Defined.

(** The claim of C8 about another passphrase fails, whatever the
    primitives: the empty passphrase falls back to the machine identifier,
    so the machine identifier given as passphrase decrypts what the empty
    passphrase encrypted.  No primitives that meet the round-trip laws
    make every other passphrase fail. *)
Lemma other_passphrase_can_decrypt :
  ~ (exists (C : Crypto),
       CryptoLaws C
       /\ forall (machineId iv data passphrase other : string),
            passphrase <> other ->
            exists error,
              decrypt machineId (encrypt machineId iv data (Some passphrase))
                      (Some other) = Thrown error).
Proof.
  intros (C & L & Hclaim).
  destruct (Hclaim "host-1" "nonce" "hello world" "" "host-1")
    as [error Herror]; [discriminate|].
  rewrite (@decrypt_empty_passphrase C L) in Herror.
  discriminate.
Qed.

(* ===================================================================== *)
(** * Part III: further properties of the code                            *)
(* ===================================================================== *)

(** ** The job store under repeated discovery *)

Lemma merge_file_idem (file prior : FileEntry) :
  merge_file file (merge_file file prior) = merge_file file prior.
Proof. reflexivity. Qed.

Lemma merge_file_self (file : FileEntry) : merge_file file file = file.
Proof. destruct file. reflexivity. Qed.

Lemma with_files_same (d : DataFile) : with_files d (d_files d) = d.
Proof. destruct d. reflexivity. Qed.

Lemma with_groups_same (d : DataFile) : with_groups d (d_groups d) = d.
Proof. destruct d. reflexivity. Qed.

(** [upsertFile] by index and by recursion leave the same records. *)
Lemma upsert_by_index (files : list FileEntry) (file : FileEntry) :
  match findIndex (fun f => String.eqb (f_id f) (f_id file)) files with
  | Some i =>
      match files !! i with
      | Some prior => <[i := merge_file file prior]> files
      | None => files
      end
  | None => (files ++ [file])%list
  end = upsert_at_first files file.
Proof.
  induction files as [|f rest IH]; simpl; [reflexivity|].
  destruct (String.eqb (f_id f) (f_id file)); simpl; [reflexivity|].
  destruct (findIndex _ rest) as [k|]; simpl in *.
  - destruct (rest !! k); simpl; rewrite <- IH; reflexivity.
  - rewrite <- IH. reflexivity.
Qed.

Lemma upsertFile_eq (d : DataFile) (file : FileEntry) :
  upsertFile d file = with_files d (upsert_at_first (d_files d) file).
Proof.
  rewrite <- upsert_by_index. unfold upsertFile.
  destruct (findIndex _ _) as [i|]; [|reflexivity].
  destruct (d_files d !! i); [reflexivity|].
  symmetry. apply with_files_same.
Qed.

Lemma upsertFile_files (d : DataFile) (file : FileEntry) :
  d_files (upsertFile d file) = upsert_at_first (d_files d) file.
Proof. rewrite upsertFile_eq. reflexivity. Qed.

Lemma upsertFile_groups (d : DataFile) (file : FileEntry) :
  d_groups (upsertFile d file) = d_groups d.
Proof. rewrite upsertFile_eq. reflexivity. Qed.

Lemma upsert_group_by_index (groups : list TelegramGroup)
    (group : TelegramGroup) :
  match findIndex (fun g => String.eqb (g_id g) (g_id group)) groups with
  | Some i => <[i := group]> groups
  | None => (groups ++ [group])%list
  end = upsert_group_at_first groups group.
Proof.
  induction groups as [|g rest IH]; simpl; [reflexivity|].
  destruct (String.eqb (g_id g) (g_id group)); simpl; [reflexivity|].
  destruct (findIndex _ rest) as [k|]; simpl in *; rewrite <- IH; reflexivity.
Qed.

Lemma upsertGroup_eq (d : DataFile) (group : TelegramGroup) :
  upsertGroup d group
  = with_groups d (upsert_group_at_first (d_groups d) group).
Proof.
  rewrite <- upsert_group_by_index. unfold upsertGroup.
  destruct (findIndex _ _); reflexivity.
Qed.

(** The record at an id after an upsert. *)
Lemma record_at_upsert (files : list FileEntry) (file : FileEntry)
    (id : string) :
  record_at (upsert_at_first files file) id
  = if String.eqb (f_id file) id
    then Some (match record_at files id with
               | Some prior => merge_file file prior
               | None => file
               end)
    else record_at files id.
Proof.
  unfold record_at. induction files as [|f rest IH]; simpl.
  - destruct (String.eqb (f_id file) id); reflexivity.
  - destruct (String.eqb_spec (f_id f) (f_id file)) as [E|E]; simpl.
    + rewrite E. destruct (String.eqb (f_id file) id); reflexivity.
    + destruct (String.eqb_spec (f_id f) id) as [E'|E'].
      * destruct (String.eqb_spec (f_id file) id); [congruence|reflexivity].
      * exact IH.
Qed.

Lemma ids_upsert (files : list FileEntry) (file : FileEntry) :
  f_id <$> upsert_at_first files file
  = if decide (f_id file ∈ f_id <$> files) then f_id <$> files
    else ((f_id <$> files) ++ [f_id file])%list.
Proof.
  induction files as [|f rest IH]; [reflexivity|].
  cbn [upsert_at_first]. rewrite (fmap_cons f_id f rest).
  destruct (String.eqb_spec (f_id f) (f_id file)) as [E|E].
  - rewrite fmap_cons. change (f_id (merge_file file f)) with (f_id file).
    rewrite E. rewrite decide_True by left. reflexivity.
  - rewrite fmap_cons, IH.
    destruct (decide (f_id file ∈ f_id <$> rest)) as [H|H].
    + rewrite decide_True by (right; exact H). reflexivity.
    + rewrite decide_False; [reflexivity|].
      intros H'. apply elem_of_cons in H' as [H'|H']; [congruence|auto].
Qed.

Lemma upsert_files_step (d : DataFile) (file : FileEntry)
    (rest : list FileEntry) :
  upsert_files d (file :: rest) = upsert_files (upsertFile d file) rest.
Proof. reflexivity. Qed.

(** A stored record keeps its download state through the upsert loop. *)
Lemma upsert_files_keeps_state (d : DataFile)
    (incoming : list FileEntry) (id : string) (r : FileEntry) :
  record_at (d_files d) id = Some r ->
  exists r',
    record_at (d_files (upsert_files d incoming)) id = Some r'
    /\ download_state_from r' r
    /\ (id ∉ f_id <$> incoming -> r' = r).
Proof.
  revert d r. induction incoming as [|file rest IH]; intros d r Hr.
  - exists r. unfold download_state_from. simpl. tauto.
  - rewrite upsert_files_step.
    destruct (String.eqb_spec (f_id file) id) as [E|E].
    + destruct (IH (upsertFile d file) (merge_file file r))
        as (r' & Hr' & Hstate & _).
      { rewrite upsertFile_files, record_at_upsert, Hr.
        apply String.eqb_eq in E. rewrite E. reflexivity. }
      exists r'. split; [exact Hr'|]. split.
      * unfold download_state_from in *. simpl in Hstate. exact Hstate.
      * intros Hnot. exfalso. apply Hnot. simpl. rewrite E. left.
    + destruct (IH (upsertFile d file) r) as (r' & Hr' & Hstate & Hsame).
      { rewrite upsertFile_files, record_at_upsert, Hr.
        apply String.eqb_neq in E. rewrite E. reflexivity. }
      exists r'. split; [exact Hr'|]. split; [exact Hstate|].
      intros Hnot. apply Hsame. intros Hin. apply Hnot. simpl. right.
      exact Hin.
Qed.

(** X1.  Rediscovery never resets progress: after the upsert loop of a
    discovery pass, whatever it scanned, a record that was stored before is
    still stored under its id with its downloadStatus, downloadedAt,
    downloadPath and errorMessage; when no scanned entry has its id the
    whole record is as it was. *)
Theorem rediscovery_keeps_download_state (d : DataFile)
    (incoming : list FileEntry) (id : string) (r : FileEntry) :
  record_at (d_files d) id = Some r ->
  exists r',
    record_at (d_files (upsert_files d incoming)) id = Some r'
    /\ download_state_from r' r
    /\ (id ∉ f_id <$> incoming -> r' = r).
Proof.
  intros Hr.
  destruct (upsert_files_keeps_state d incoming id r Hr)
    as (r' & Hr' & Hstate & Hsame).
  exists r'. split; [exact Hr'|]. split; [exact Hstate|exact Hsame].
Qed.

Lemma rediscovery_keeps_download_state_witness :
  exists r',
    record_at (d_files (upsert_files small_store [incoming_g1_10; job_of_3]))
              "g1:10" = Some r'
    /\ download_state_from r' stored_g1_10
    /\ ("g1:10" ∉ f_id <$> [incoming_g1_10; job_of_3] -> r' = stored_g1_10).
Proof.
  apply (rediscovery_keeps_download_state small_store
           [incoming_g1_10; job_of_3] "g1:10" stored_g1_10).
  reflexivity.
Defined.

Lemma upsertFile_ids (d : DataFile) (file : FileEntry) :
  file_ids (upsertFile d file)
  = if decide (f_id file ∈ file_ids d) then file_ids d
    else (file_ids d ++ [f_id file])%list.
Proof. unfold file_ids. rewrite upsertFile_files. apply ids_upsert. Qed.

Lemma upsertFile_ids_prefix (d : DataFile) (file : FileEntry) :
  file_ids d `prefix_of` file_ids (upsertFile d file).
Proof.
  rewrite upsertFile_ids. case_decide.
  - reflexivity.
  - apply prefix_app_r. reflexivity.
Qed.

Lemma upsertFile_ids_elem (d : DataFile) (file : FileEntry) (id : string) :
  id ∈ file_ids (upsertFile d file) <-> id ∈ file_ids d \/ id = f_id file.
Proof.
  rewrite upsertFile_ids. case_decide as H.
  - split; [auto|]. intros [H'| ->]; assumption.
  - rewrite elem_of_app, list_elem_of_singleton. reflexivity.
Qed.

(** The ids of the store through the upsert loop. *)
Lemma upsert_files_ids (d : DataFile) (incoming : list FileEntry) :
  file_ids d `prefix_of` file_ids (upsert_files d incoming)
  /\ (forall f, f ∈ incoming -> f_id f ∈ file_ids (upsert_files d incoming))
  /\ (forall id, id ∈ file_ids (upsert_files d incoming) ->
                 id ∈ file_ids d \/ id ∈ f_id <$> incoming)
  /\ (NoDup (file_ids d) -> NoDup (file_ids (upsert_files d incoming))).
Proof.
  revert d. induction incoming as [|file rest IH]; intros d.
  - simpl. repeat split; auto.
    intros f Hf. inversion Hf.
  - rewrite upsert_files_step.
    destruct (IH (upsertFile d file)) as (Hpre & Hin & Honly & Hnd).
    split; [|split; [|split]].
    + etransitivity; [apply upsertFile_ids_prefix|exact Hpre].
    + intros f Hf. apply elem_of_cons in Hf as [->|Hf]; [|auto].
      eapply elem_of_prefix; [|exact Hpre].
      apply upsertFile_ids_elem. right. reflexivity.
    + intros id Hid. rewrite fmap_cons.
      destruct (Honly id Hid) as [H|H].
      * apply upsertFile_ids_elem in H as [H| ->]; [left; exact H|].
        right. left.
      * right. right. exact H.
    + intros H. apply Hnd. apply upsertFile_unique_ids. exact H.
Qed.

(** X2.  The upsert loop keeps the ids of the store in place and adds the
    new ones behind them: the ids stored before are a prefix of the ids
    stored after, every scanned id is stored after, no other id appears,
    and ids that were pairwise distinct stay so, even when the scan lists
    an id twice. *)
Theorem upserted_ids_stay_unique (d : DataFile) (incoming : list FileEntry) :
  file_ids d `prefix_of` file_ids (upsert_files d incoming)
  /\ (forall f, f ∈ incoming -> f_id f ∈ file_ids (upsert_files d incoming))
  /\ (forall id, id ∈ file_ids (upsert_files d incoming) ->
                 id ∈ file_ids d \/ id ∈ f_id <$> incoming)
  /\ (NoDup (file_ids d) -> NoDup (file_ids (upsert_files d incoming))).
Proof.
  destruct (upsert_files_ids d incoming) as (Hprefix & Hin & Honly & Hnd).
  split; [exact Hprefix|]. split; [exact Hin|].
  split; [exact Honly|exact Hnd].
Qed.

Lemma upserted_ids_stay_unique_witness :
  file_ids (upsert_files small_store [incoming_g1_10; incoming_g1_10])
  = ["g1:10"; "g1:8"]
  /\ NoDup (file_ids (upsert_files small_store
                        [incoming_g1_10; incoming_g1_10])).
Proof.
  split; [reflexivity|].
  apply (upserted_ids_stay_unique small_store
           [incoming_g1_10; incoming_g1_10]).
  apply (bool_decide_unpack _). vm_compute. exact I.
Defined.

Lemma upsert_at_first_idem (files : list FileEntry) (file : FileEntry) :
  upsert_at_first (upsert_at_first files file) file
  = upsert_at_first files file.
Proof.
  induction files as [|f rest IH]; simpl.
  - rewrite String.eqb_refl, merge_file_self. reflexivity.
  - destruct (String.eqb (f_id f) (f_id file)) eqn:E; simpl.
    + rewrite String.eqb_refl. reflexivity.
    + rewrite E, IH. reflexivity.
Qed.

(** X3.  [upsertFile] is idempotent: upserting the same entry a second
    time changes nothing, whether the first upsert merged it into a stored
    record or appended it. *)
Theorem upsertFile_idempotent (d : DataFile) (file : FileEntry) :
  upsertFile (upsertFile d file) file = upsertFile d file.
Proof.
  rewrite (upsertFile_eq (upsertFile d file)), upsertFile_files.
  rewrite upsert_at_first_idem, upsertFile_eq. reflexivity.
Qed.

(** ** Groups *)

Lemma group_at_upsert (groups : list TelegramGroup) (group : TelegramGroup)
    (id : string) :
  group_at (upsert_group_at_first groups group) id
  = if String.eqb (g_id group) id then Some group else group_at groups id.
Proof.
  unfold group_at. induction groups as [|g rest IH]; simpl.
  - destruct (String.eqb (g_id group) id); reflexivity.
  - destruct (String.eqb_spec (g_id g) (g_id group)) as [E|E]; simpl.
    + rewrite E. destruct (String.eqb (g_id group) id); reflexivity.
    + destruct (String.eqb_spec (g_id g) id) as [E'|E'].
      * destruct (String.eqb_spec (g_id group) id); [congruence|reflexivity].
      * exact IH.
Qed.

Lemma length_upsert_group (groups : list TelegramGroup)
    (group : TelegramGroup) :
  length (upsert_group_at_first groups group)
  = match group_at groups (g_id group) with
    | Some _ => length groups
    | None => S (length groups)
    end.
Proof.
  unfold group_at. induction groups as [|g rest IH]; simpl; [reflexivity|].
  destruct (String.eqb (g_id g) (g_id group)); simpl; [reflexivity|].
  rewrite IH. destruct (find _ rest); reflexivity.
Qed.

(** X4.  [upsertGroup] stores the incoming group whole: looking its id up
    afterwards gives exactly the incoming group (nothing of a stored group
    with that id is kept, unlike for files), the groups under other ids and
    all job records are untouched, the number of groups grows by one only
    for an unknown id, and the directory handle the scheduler derives for a
    job of that group is the incoming handle, or the group id when the
    handle is absent or empty. *)
Theorem upsertGroup_then_lookup (d : DataFile) (group : TelegramGroup) :
  group_at (d_groups (upsertGroup d group)) (g_id group) = Some group
  /\ (forall id, id <> g_id group ->
        group_at (d_groups (upsertGroup d group)) id
        = group_at (d_groups d) id)
  /\ d_files (upsertGroup d group) = d_files d
  /\ length (d_groups (upsertGroup d group))
     = match group_at (d_groups d) (g_id group) with
       | Some _ => length (d_groups d)
       | None => S (length (d_groups d))
       end
  /\ (forall file, f_groupId file = g_id group ->
        groupHandle_of (upsertGroup d group) file
        = str_or (g_handle group) (f_groupId file)).
Proof.
  rewrite upsertGroup_eq. simpl. split; [|split; [|split; [|split]]].
  - rewrite group_at_upsert, String.eqb_refl. reflexivity.
  - intros id Hne. rewrite group_at_upsert.
    destruct (String.eqb_spec (g_id group) id); [congruence|reflexivity].
  - reflexivity.
  - apply length_upsert_group.
  - intros file Hfile. unfold groupHandle_of. simpl.
    change (find (fun g => String.eqb (g_id g) (f_groupId file))
                 (upsert_group_at_first (d_groups d) group))
      with (group_at (upsert_group_at_first (d_groups d) group)
                     (f_groupId file)).
    rewrite group_at_upsert, Hfile, String.eqb_refl. reflexivity.
Qed.

Lemma upsertGroup_then_lookup_witness :
  groupHandle_of (upsertGroup (upsertGroup small_store (group_g1 None))
                              (group_g1 (Some "books")))
                 job_of_3 = "books".
Proof.
  destruct (upsertGroup_then_lookup (upsertGroup small_store (group_g1 None))
              (group_g1 (Some "books"))) as (_ & _ & _ & _ & Hhandle).
  apply (Hhandle job_of_3). reflexivity.
Defined.

(** ** Statistics *)

Lemma status_counts_partition (files : list FileEntry) :
  (count_with_status pending files + count_with_status completed files
   + count_with_status failed files + count_with_status in_progress files
   = Z.of_nat (length files))%Z.
Proof.
  induction files as [|f rest IH]; [reflexivity|].
  cbn [count_with_status length]. rewrite Nat2Z.inj_succ.
  destruct (f_downloadStatus f); repeat case_decide; try congruence; lia.
Qed.

Lemma completed_sizes_bounded (files : list FileEntry) :
  (forall f, f ∈ files -> (0 <= f_size f)%Z) ->
  (0 <= sum_of_completed_sizes files <= sum_of_sizes files)%Z.
Proof.
  induction files as [|f rest IH]; intros Hpos; simpl; [lia|].
  assert (0 <= f_size f)%Z by (apply Hpos; left).
  assert (0 <= sum_of_completed_sizes rest <= sum_of_sizes rest)%Z.
  { apply IH. intros g Hg. apply Hpos. right. exact Hg. }
  case_decide; lia.
Qed.

(** X5.  The statistics that [updateStatistics] computes leave the
    in-progress jobs out of the three per-status counters: pendingFiles,
    completedFiles and failedFiles add up to totalFiles less the number of
    in-progress records, so they add up to totalFiles exactly when no
    record is in progress.  When no size is negative, totalDownloadedSize
    lies between 0 and totalSize. *)
Theorem statistics_partition (d : DataFile) (now : string) :
  let s := d_statistics (updateStatistics d now) in
  let running := Z.of_nat (length (filter_status in_progress (d_files d))) in
  (pendingFiles s + completedFiles s + failedFiles s + running
   = totalFiles s)%Z
  /\ (filter_status in_progress (d_files d) = [] <->
      (pendingFiles s + completedFiles s + failedFiles s = totalFiles s)%Z)
  /\ ((forall f, f ∈ d_files d -> (0 <= f_size f)%Z) ->
      (0 <= totalDownloadedSize s <= totalSize s)%Z).
Proof.
  intros s running. subst s running.
  rewrite updateStatistics_recompute. cbn [recompute pendingFiles
    completedFiles failedFiles totalFiles totalDownloadedSize totalSize].
  rewrite filter_status_count.
  pose proof (status_counts_partition (d_files d)) as Hsum.
  split; [exact Hsum|]. split.
  - rewrite <- length_zero_iff_nil.
    pose proof (filter_status_count in_progress (d_files d)) as Hc. lia.
  - apply completed_sizes_bounded.
Qed.

Lemma statistics_partition_witness :
  let s := d_statistics (updateStatistics small_store "now") in
  (0 <= totalDownloadedSize s <= totalSize s)%Z.
Proof.
  apply (statistics_partition small_store "now").
  intros f Hf. simpl in Hf.
  apply elem_of_cons in Hf as [->|Hf]; [simpl; lia|].
  apply list_elem_of_singleton in Hf as ->. simpl. lia.
Defined.

(** ** What a save leaves on disk *)

Lemma path_suffix_differs (p : Path) (s : string) :
  s <> "" -> path_suffix p s <> p.
Proof.
  destruct p as [dir name]. unfold path_suffix. simpl. intros Hs [= H].
  apply (f_equal String.length) in H. rewrite string_length_append in H.
  destruct s; [congruence|]. simpl in H. lia.
Qed.

Lemma temp_path_differs (env : SaveEnv) (p : Path) : temp_path_of env p <> p.
Proof. apply path_suffix_differs. discriminate. Qed.

Lemma backup_path_differs (env : SaveEnv) (p : Path) :
  backup_path_of env p <> p.
Proof. apply path_suffix_differs. discriminate. Qed.

Lemma temp_is_no_backup (env env' : SaveEnv) (p : Path) :
  temp_path_of env p <> backup_path_of env' p.
Proof.
  destruct p as [dir name]. unfold temp_path_of, backup_path_of, path_suffix.
  simpl. intros [= H]. apply string_app_inv_head in H. discriminate.
Qed.

(** [createBackup] writes at most the backup path. *)
Lemma createBackup_others (env : SaveEnv) (fs : FS) (p q : Path) :
  q <> backup_path_of env p ->
  fst (createBackup env fs p) !! q = fs !! q.
Proof.
  intros Hq. unfold createBackup, copyFile.
  fold (backup_path_of env p).
  destruct (fault env) as [|e|e|e]; try (destruct (fs !! p); simpl;
    [apply lookup_insert_ne; congruence|reflexivity]).
  destruct (e_code e) as [code|]; [|reflexivity].
  destruct (String.eqb code "ENOENT"); reflexivity.
Qed.

(** When [atomicWrite] throws, the temporary file is gone and nothing else
    has changed. *)
Lemma atomicWrite_thrown (env : SaveEnv) (fs fs' : FS) (p : Path)
    (c : content) (e : JsError) :
  atomicWrite env fs p c = (fs', Thrown e) ->
  fs' !! temp_path_of env p = None
  /\ forall q, q <> temp_path_of env p -> fs' !! q = fs !! q.
Proof.
  unfold atomicWrite. fold (temp_path_of env p). unfold unlink_quiet.
  destruct (fault env) as [|e'|e'|e']; intros [= <- _]; try discriminate.
  - split; [apply lookup_delete_eq|].
    intros q Hq. apply lookup_delete_ne. congruence.
  - split; [apply lookup_delete_eq|].
    intros q Hq. rewrite lookup_delete_ne by congruence.
    apply lookup_insert_ne. congruence.
Qed.

Lemma atomicWrite_returned (env : SaveEnv) (fs fs' : FS) (p : Path)
    (c : content) :
  atomicWrite env fs p c = (fs', Returned tt) ->
  fs' !! p = Some c
  /\ fs' !! temp_path_of env p = None
  /\ forall q, q <> p -> q <> temp_path_of env p -> fs' !! q = fs !! q.
Proof.
  unfold atomicWrite. fold (temp_path_of env p).
  pose proof (temp_path_differs env p) as Htmp.
  assert (Hok : forall fs0 : FS,
            let fs1 := <[p := c]> (delete (temp_path_of env p)
                                     (<[temp_path_of env p := c]> fs0)) in
            fs1 !! p = Some c
            /\ fs1 !! temp_path_of env p = None
            /\ forall q, q <> p -> q <> temp_path_of env p ->
                         fs1 !! q = fs0 !! q).
  { intros fs0 fs1. subst fs1. split; [apply lookup_insert_eq|]. split.
    - rewrite lookup_insert_ne by congruence. apply lookup_delete_eq.
    - intros q Hp Ht. rewrite lookup_insert_ne by congruence.
      rewrite lookup_delete_ne by congruence.
      apply lookup_insert_ne. congruence. }
  destruct (fault env) as [|e'|e'|e']; intros [= <-]; apply Hok.
Qed.

(** The disk after the optional backup of [saveDataFile]. *)
Lemma saveDataFile_split (env : SaveEnv) (fs : FS) (p : Path)
    (d : DataFile) (b : bool) :
  let fs1 := if (b && fileExists fs p)%bool
             then fst (createBackup env fs p) else fs in
  saveDataFile env fs p d b
  = atomicWrite env fs1 p (Json (updateStatistics d (update_stamp env)))
  \/ exists e, saveDataFile env fs p d b = (fs, Thrown e).
Proof.
  unfold saveDataFile.
  destruct (b && fileExists fs p)%bool; [|left; reflexivity].
  destruct (createBackup env fs p) as [fs1 [s|e]] eqn:Hb; simpl.
  - left. reflexivity.
  - right. exists e. f_equal.
    unfold createBackup in Hb. destruct (copyFile _ _ _ _); [discriminate|].
    destruct (e_code e0) as [code|]; [destruct (String.eqb code "ENOENT")|];
      congruence.
Qed.

Lemma after_backup_others (env : SaveEnv) (fs : FS) (p q : Path) (b : bool) :
  q <> backup_path_of env p ->
  (if (b && fileExists fs p)%bool then fst (createBackup env fs p) else fs)
    !! q = fs !! q.
Proof.
  intros Hq. destruct (b && fileExists fs p)%bool; [|reflexivity].
  apply createBackup_others. exact Hq.
Qed.

(** X6.  A save that throws leaves the snapshot file as it was: the path
    of the data file holds what it held before, every path other than the
    temporary and the backup path is untouched, no temporary file is left
    behind, and a snapshot that loaded before the failed save loads
    unchanged after it. *)
Theorem failed_save_keeps_snapshot (env : SaveEnv) (fs fs' : FS)
    (filePath : Path) (dataFile : DataFile) (createBackupFirst : bool)
    (e : JsError) :
  saveDataFile env fs filePath dataFile createBackupFirst = (fs', Thrown e) ->
  fs' !! filePath = fs !! filePath
  /\ (forall q, q <> temp_path_of env filePath ->
                q <> backup_path_of env filePath -> fs' !! q = fs !! q)
  /\ (is_Some (fs' !! temp_path_of env filePath) -> fs' = fs)
  /\ (forall now stored,
        fs !! filePath = Some (Json stored) ->
        loadDataFile now fs' filePath = Returned stored).
Proof.
  intros Hsave.
  destruct (saveDataFile_split env fs filePath dataFile createBackupFirst)
    as [Hwrite|(e' & Hthrown)].
  - rewrite Hwrite in Hsave. apply atomicWrite_thrown in Hsave as [Htmp Hrest].
    assert (Hothers : forall q, q <> temp_path_of env filePath ->
                                q <> backup_path_of env filePath ->
                                fs' !! q = fs !! q).
    { intros q Ht Hb. rewrite Hrest by exact Ht.
      apply after_backup_others. exact Hb. }
    assert (Hsame : fs' !! filePath = fs !! filePath).
    { apply Hothers.
      - intros H. symmetry in H. exact (temp_path_differs _ _ H).
      - intros H. symmetry in H. exact (backup_path_differs _ _ H). }
    split; [exact Hsame|]. split; [exact Hothers|]. split.
    + rewrite Htmp. intros [c Hc]. discriminate.
    + intros now stored Hstored. unfold loadDataFile, fileExists, read_and_parse.
      rewrite Hsame, Hstored. reflexivity.
  - rewrite Hthrown in Hsave. injection Hsave as <- _.
    split; [reflexivity|]. split; [reflexivity|]. split; [reflexivity|].
    intros now stored Hstored. unfold loadDataFile, fileExists, read_and_parse.
    rewrite Hstored. reflexivity.
Qed.

Lemma failed_save_keeps_snapshot_witness :
  loadDataFile "now"
    (fst (saveDataFile full_disk_env disk_with_backup ("data", "data.json")
            small_store true))
    ("data", "data.json")
  = Returned (snapshot_of [stored_g1_10]).
Proof.
  destruct (saveDataFile full_disk_env disk_with_backup ("data", "data.json")
              small_store true) as [fs' out] eqn:Hsave.
  assert (Hout : out = Thrown ENOSPC).
  { apply (f_equal snd) in Hsave. change (snd (fs', out)) with out in Hsave.
    rewrite <- Hsave. vm_compute. reflexivity. }
  subst out.
  apply (failed_save_keeps_snapshot _ _ _ _ _ _ _ Hsave). reflexivity.
Defined.

(** What a save that returns has done to the disk. *)
Lemma saveDataFile_returned_disk (env : SaveEnv) (fs fs' : FS)
    (filePath : Path) (dataFile : DataFile) (createBackupFirst : bool) :
  saveDataFile env fs filePath dataFile createBackupFirst
    = (fs', Returned tt) ->
  fs' !! filePath
    = Some (Json (updateStatistics dataFile (update_stamp env)))
  /\ fs' !! temp_path_of env filePath = None
  /\ (forall q, q <> filePath -> q <> temp_path_of env filePath ->
                q <> backup_path_of env filePath -> fs' !! q = fs !! q)
  /\ (forall previous,
        createBackupFirst = true -> fault env = NoFault ->
        fs !! filePath = Some previous ->
        fs' !! backup_path_of env filePath = Some previous)
  /\ (createBackupFirst = false ->
      fs' !! backup_path_of env filePath = fs !! backup_path_of env filePath).
Proof.
  intros Hsave.
  pose proof (temp_is_no_backup env env filePath) as Htb.
  pose proof (backup_path_differs env filePath) as Hbp.
  destruct (saveDataFile_split env fs filePath dataFile createBackupFirst)
    as [Hwrite|(e' & Hthrown)]; [|congruence].
  rewrite Hwrite in Hsave. apply atomicWrite_returned in Hsave
    as (Hfile & Htmp & Hrest).
  split; [exact Hfile|]. split; [exact Htmp|]. split; [|split].
  - intros q Hp Ht Hb. rewrite Hrest by assumption.
    apply after_backup_others. exact Hb.
  - intros previous -> Hfault Hprev.
    rewrite Hrest by congruence.
    unfold fileExists. rewrite Hprev. simpl.
    unfold createBackup, copyFile. rewrite Hfault, Hprev. simpl.
    apply lookup_insert_eq.
  - intros ->. rewrite Hrest by congruence. reflexivity.
Qed.

(** X7.  A save that returns has written exactly this: the data file
    holds the recomputed snapshot, no temporary file is left, every path
    other than the data file, the temporary path and the backup path is
    untouched (so earlier backups are never pruned), and, when a backup was
    asked for and no I/O fault occurred, the backup path holds what the
    data file held before.  Without [createBackupFirst] the backup path is
    untouched as well. *)
Theorem saveDataFile_footprint (env : SaveEnv) (fs fs' : FS)
    (filePath : Path) (dataFile : DataFile) (createBackupFirst : bool) :
  saveDataFile env fs filePath dataFile createBackupFirst
    = (fs', Returned tt) ->
  fs' !! filePath
    = Some (Json (updateStatistics dataFile (update_stamp env)))
  /\ fs' !! temp_path_of env filePath = None
  /\ (forall q, q <> filePath -> q <> temp_path_of env filePath ->
                q <> backup_path_of env filePath -> fs' !! q = fs !! q)
  /\ (forall previous,
        createBackupFirst = true -> fault env = NoFault ->
        fs !! filePath = Some previous ->
        fs' !! backup_path_of env filePath = Some previous)
  /\ (createBackupFirst = false ->
      fs' !! backup_path_of env filePath = fs !! backup_path_of env filePath).
Proof.
  intros Hsave.
  destruct (saveDataFile_returned_disk _ _ _ _ _ _ Hsave)
    as (Hfile & Htmp & Hothers & Hbackup & Hnone).
  split; [exact Hfile|]. split; [exact Htmp|]. split; [exact Hothers|].
  split; [exact Hbackup|exact Hnone].
Qed.

Lemma saveDataFile_footprint_witness :
  let fs' := fst (saveDataFile later_env disk_with_backup
                    ("data", "data.json") small_store true) in
  fs' !! backup_path_of later_env ("data", "data.json")
    = Some (Json (snapshot_of [stored_g1_10]))
  /\ fs' !! ("data", backup_2023) = Some (Json (snapshot_of [])).
Proof.
  intros fs'.
  destruct (saveDataFile later_env disk_with_backup ("data", "data.json")
              small_store true) as [fs1 out] eqn:Hsave.
  assert (Hout : out = Returned tt).
  { apply (f_equal snd) in Hsave. change (snd (fs1, out)) with out in Hsave.
    rewrite <- Hsave. vm_compute. reflexivity. }
  subst out. subst fs'. simpl.
  destruct (saveDataFile_footprint _ _ _ _ _ _ Hsave)
    as (_ & _ & Hothers & Hbackup & _).
  split.
  - apply Hbackup; reflexivity.
  - rewrite Hothers by (vm_compute; congruence). reflexivity.
Defined.

(** ** Recovery after a save *)

Lemma prefix_append (a b : string) : String.prefix a (a +:+ b) = true.
Proof.
  induction a as [|c a IH]; [destruct b; reflexivity|].
  change (String c a +:+ b) with (String c (a +:+ b)). simpl.
  destruct (ascii_dec c c); [exact IH|congruence].
Qed.

Lemma prefix_length (a b : string) :
  String.prefix a b = true -> (String.length a <= String.length b)%nat.
Proof.
  revert b. induction a as [|c a IH]; intros [|c' b]; simpl;
    try discriminate; try lia.
  destruct (ascii_dec c c'); [|discriminate].
  intros H. apply IH in H. lia.
Qed.

(** The data file itself is not one of its backups. *)
Lemma basename_is_no_backup (name : string) :
  String.prefix (name +:+ ".backup.") name = false.
Proof.
  destruct (String.prefix (name +:+ ".backup.") name) eqn:E; [|reflexivity].
  apply prefix_length in E. rewrite string_length_append in E.
  simpl in E. lia.
Qed.

Lemma leb_refl (s : string) : String.leb s s = true.
Proof.
  unfold String.leb. induction s as [|c s IH]; simpl; [reflexivity|].
  rewrite ascii_compare_refl. exact IH.
Qed.

(** X8.  Recovery is one save behind.  After a save with a backup over a
    stored snapshot, when the new backup's name sorts no earlier than the
    names of the backups already there (as the timestamps in the names do
    when the clock moves forward), a later corruption of the data file
    makes [loadDataFile] return the snapshot that was stored before that
    save, not the one the save wrote. *)
Theorem recovery_is_one_save_behind (env : SaveEnv) (fs fs' : FS)
    (filePath : Path) (previous dataFile : DataFile) (junk now : string) :
  fs !! filePath = Some (Json previous) ->
  fault env = NoFault ->
  (forall name, is_backup fs filePath name ->
     String.leb name (path_basename (backup_path_of env filePath)) = true) ->
  saveDataFile env fs filePath dataFile true = (fs', Returned tt) ->
  loadDataFile now (<[filePath := Blob junk]> fs') filePath
  = Returned previous.
Proof.
  intros Hprev Hfault Hlatest Hsave.
  destruct (saveDataFile_returned_disk _ _ _ _ _ _ Hsave)
    as (_ & Htmp & Hothers & Hbackup & _).
  specialize (Hbackup (Json previous) eq_refl Hfault Hprev).
  pose proof (backup_path_differs env filePath) as Hbp.
  set (disk := <[filePath := Blob junk]> fs').
  assert (Hlookup : disk !! backup_path_of env filePath
                    = Some (Json previous)).
  { unfold disk. rewrite lookup_insert_ne by congruence. exact Hbackup. }
  assert (Hfind : findLatestBackup disk filePath
                  = Some (backup_path_of env filePath)).
  { change (backup_path_of env filePath)
      with (path_dirname filePath,
            path_basename (backup_path_of env filePath)).
    apply findLatestBackup_latest. split.
    - split.
      + change (is_Some (disk !! backup_path_of env filePath)).
        rewrite Hlookup. eauto.
      + change (path_basename (backup_path_of env filePath))
          with (path_basename filePath +:+
                (".backup." +:+ replace_colon_dot (backup_stamp env))).
        rewrite <- string_append_assoc. apply prefix_append.
    - intros other [[c Hc] Hpre].
      destruct (decide (other = path_basename (backup_path_of env filePath)))
        as [->|Hne]; [apply leb_refl|].
      apply Hlatest. split; [|exact Hpre].
      unfold disk in Hc.
      assert (Hp : (path_dirname filePath, other) <> filePath).
      { destruct filePath as [dir base]. simpl in *. intros [= ->].
        rewrite basename_is_no_backup in Hpre. discriminate. }
      rewrite lookup_insert_ne in Hc by congruence.
      assert (Ht : (path_dirname filePath, other)
                   <> temp_path_of env filePath).
      { intros H. rewrite H, Htmp in Hc. discriminate. }
      assert (Hb : (path_dirname filePath, other)
                   <> backup_path_of env filePath).
      { intros H. apply Hne. apply (f_equal snd) in H. exact H. }
      rewrite (Hothers _ Hp Ht Hb) in Hc. eauto. }
  unfold loadDataFile, fileExists, read_and_parse.
  unfold disk at 1 2. rewrite lookup_insert_eq. simpl.
  rewrite Hfind, Hlookup. reflexivity.
Qed.

Lemma recovery_is_one_save_behind_witness :
  loadDataFile "now"
    (<[("data", "data.json") := Blob "{ vers"]>
       (fst (saveDataFile later_env disk_with_backup ("data", "data.json")
               small_store true)))
    ("data", "data.json")
  = Returned (snapshot_of [stored_g1_10]).
Proof.
  destruct (saveDataFile later_env disk_with_backup ("data", "data.json")
              small_store true) as [fs1 out] eqn:Hsave.
  assert (Hout : out = Returned tt).
  { apply (f_equal snd) in Hsave. change (snd (fs1, out)) with out in Hsave.
    rewrite <- Hsave. vm_compute. reflexivity. }
  subst out.
  apply (recovery_is_one_save_behind later_env disk_with_backup fs1
           ("data", "data.json") (snapshot_of [stored_g1_10]) small_store).
  - reflexivity.
  - reflexivity.
  - intros name [[c Hc] Hpre]. unfold disk_with_backup in Hc. simpl in Hc.
    destruct (decide (name = backup_2023)) as [->|Hne]; [reflexivity|].
    rewrite lookup_insert_ne in Hc.
    + rewrite lookup_insert_ne in Hc by congruence.
      rewrite lookup_empty in Hc. discriminate.
    + intros [= <-]. vm_compute in Hpre. discriminate.
  - exact Hsave.
Defined.

(** ** File names *)

















Lemma every_char_spec (p : ascii -> bool) (s : string) (c : ascii) :
  every_char p s = true -> In c (list_ascii_of_string s) -> p c = true.
Proof.
  induction s as [|x s IH]; simpl; [tauto|].
  intros H. apply andb_true_iff in H as [Hx Hs].
  intros [<-|Hin]; auto.
Qed.





(** ** What an attempt leaves on disk *)

Lemma downloadFile_cases (remote : Remote) (fs : FS) (file : FileEntry)
    (groupHandle : string) (config : Configuration) :
  let out := output_path config file groupHandle in
  let part := part_path config file groupHandle in
  let text := outputPath_string config file groupHandle in
  (download_flag overwriteExisting config = false
   /\ output_exists fs config file groupHandle = true
   /\ downloadFile remote fs file groupHandle config
      = (fs, mkResult true file (Some text) None))
  \/ (exists buffer,
        remote = Media buffer
        /\ Z.of_nat (String.length buffer) = f_size file
        /\ output_is_directory fs config file groupHandle = false
        /\ downloadFile remote fs file groupHandle config
           = (<[out := Blob buffer]> (delete part (<[part := Blob buffer]> fs)),
              mkResult true file (Some text) None))
  \/ (exists message,
        downloadFile remote fs file groupHandle config
        = (delete part fs, mkResult false file None (Some message))).
Proof.
  intros out part text. unfold downloadFile, downloadFile_try.
  fold out. fold text. change (path_suffix out ".part") with part.
  destruct (negb (download_flag overwriteExisting config)
            && output_exists fs config file groupHandle)%bool eqn:Hskip.
  - left. apply andb_true_iff in Hskip as [Hflag Hexists].
    apply negb_true_iff in Hflag. auto.
  - right. unfold transfer, unlink_quiet.
    destruct remote as [e|e| | |e| |buffer];
      try (right; eexists; reflexivity).
    unfold stat_size. rewrite lookup_insert_eq.
    destruct (Z.of_nat (String.length buffer) =? f_size file)%Z eqn:Hsize;
      simpl.
    + destruct (output_is_directory fs config file groupHandle) eqn:Hdir.
      * right. rewrite delete_insert_eq. eexists. reflexivity.
      * left. exists buffer. apply Z.eqb_eq in Hsize. auto.
    + right. rewrite delete_insert_eq. eexists. reflexivity.
Qed.

Lemma downloadFile_failure_disk (remote : Remote) (fs : FS)
    (file : FileEntry) (groupHandle : string) (config : Configuration) :
  r_success (snd (downloadFile remote fs file groupHandle config)) = false ->
  fst (downloadFile remote fs file groupHandle config)
  = delete (part_path config file groupHandle) fs.
Proof.
  destruct (downloadFile_cases remote fs file groupHandle config)
    as [(_ & _ & ->)|[(buffer & _ & _ & _ & ->)|(message & ->)]]; simpl;
    try discriminate.
  reflexivity.
Qed.

Lemma result_after_shift (j : nat) (attempt : Z) (peer : Z -> Remote)
    (fs : FS) (file : FileEntry) (groupHandle : string)
    (config : Configuration) :
  result_after (S j) attempt peer fs file groupHandle config
  = result_after j (attempt + 1) peer
      (fst (downloadFile (peer attempt) fs file groupHandle config))
      file groupHandle config.
Proof.
  unfold result_after. cbn [fs_after].
  replace (attempt + Z.of_nat (S j))%Z with (attempt + 1 + Z.of_nat j)%Z
    by lia.
  reflexivity.
Qed.

Lemma failed_attempts_disk (k : nat) (attempt : Z) (peer : Z -> Remote)
    (fs : FS) (file : FileEntry) (groupHandle : string)
    (config : Configuration) :
  (forall j, (j < k)%nat ->
     r_success (result_after j attempt peer fs file groupHandle config)
     = false) ->
  fs_after k attempt peer fs file groupHandle config
  = match k with
    | O => fs
    | S _ => delete (part_path config file groupHandle) fs
    end.
Proof.
  revert attempt fs. induction k as [|k IH]; intros attempt fs Hfail;
    [reflexivity|].
  cbn [fs_after].
  assert (Hfirst : fst (downloadFile (peer attempt) fs file groupHandle config)
                   = delete (part_path config file groupHandle) fs).
  { apply downloadFile_failure_disk.
    specialize (Hfail 0%nat ltac:(lia)). unfold result_after in Hfail.
    cbn [fs_after] in Hfail. rewrite Z.add_0_r in Hfail. exact Hfail. }
  rewrite IH.
  - rewrite Hfirst. destruct k; [reflexivity|]. apply delete_delete_eq.
  - intros j Hj. rewrite <- result_after_shift. apply Hfail. lia.
Qed.

(** X11.  A download that fails after its retries leaves no trace: every
    path other than the job's [.part] file holds what it held before (an
    existing output file is never damaged, with or without
    overwriteExisting), and when at least one attempt was made the [.part]
    file is gone.  With a negative retryAttempts no attempt is made and
    the disk is untouched. *)
Theorem failed_download_leaves_no_trace (peer : Z -> Remote) (fs fs' : FS)
    (file : FileEntry) (groupHandle : string) (config : Configuration)
    (events : list RetryEvent) (result : DownloadResult) :
  downloadFileWithRetry peer fs file groupHandle config
    = (fs', events, result) ->
  r_success result = false ->
  (forall q, q <> part_path config file groupHandle -> fs' !! q = fs !! q)
  /\ ((1 <= maxAttempts_of config)%Z ->
      fs' = delete (part_path config file groupHandle) fs)
  /\ ((maxAttempts_of config <= 0)%Z -> fs' = fs /\ events = []).
Proof.
  unfold downloadFileWithRetry.
  destruct (retry_loop_spec (maxAttempts_of config) (retryDelay_of config)
              peer file groupHandle config
              (Z.to_nat (maxAttempts_of config)) 1%Z fs)
    as (k & _ & Hfs & Hev & _ & Hfin); [f_equal; lia|].
  destruct (retry_loop _ _ _ _ _ _ _ _ _) as [[fs1 events1] [final|]];
    simpl in Hfs, Hev, Hfin.
  - destruct Hfin as (_ & Hok & _). intros [= _ _ <-] Hfail. congruence.
  - destruct Hfin as [-> Hall]. intros [= <- <- _] _.
    rewrite Hfs, Hev, (failed_attempts_disk _ _ _ _ _ _ _ Hall).
    split; [|split].
    + intros q Hq. destruct (Z.to_nat (maxAttempts_of config));
        [reflexivity|]. apply lookup_delete_ne. congruence.
    + intros Hmax.
      destruct (Z.to_nat (maxAttempts_of config)) eqn:E; [lia|reflexivity].
    + intros Hmax. replace (Z.to_nat (maxAttempts_of config)) with 0%nat
        by lia. split; reflexivity.
Qed.

Lemma failed_download_leaves_no_trace_witness :
  fst (fst (downloadFileWithRetry (fun _ => Media "ab")
              (<[("/srv/downloads/g1", "note.txt.part") := Blob "stale"]> ∅)
              job_of_3 "g1" sample_config))
  = delete (part_path sample_config job_of_3 "g1")
      (<[("/srv/downloads/g1", "note.txt.part") := Blob "stale"]> ∅).
Proof.
  destruct (downloadFileWithRetry (fun _ => Media "ab")
              (<[("/srv/downloads/g1", "note.txt.part") := Blob "stale"]> ∅)
              job_of_3 "g1" sample_config) as [[fs' events] result] eqn:Hrun.
  assert (Hresult : r_success result = false).
  { apply (f_equal snd) in Hrun. change (snd (fs', events, result))
      with result in Hrun. rewrite <- Hrun. vm_compute. reflexivity. }
  simpl.
  apply (failed_download_leaves_no_trace _ _ _ _ _ _ _ _ Hrun Hresult).
  vm_compute. discriminate.
Defined.

(** X12.  A successful attempt is one of two things.  Either
    overwriting is off and [fs.access] found the output path, which is the
    case when a file is there and also when the name sanitises to the
    empty string, so that the output path is the output directory that
    [ensureDir] has just made: nothing is fetched and the disk is
    unchanged.  Or the output path is not a directory and the peer
    delivered a buffer of exactly the declared size: the output path holds
    that buffer, the [.part] file is gone and no other path changed.  In
    both cases the result names the output path, as [path.join] normalised
    it, and carries no error.  So a job whose output path is the output
    directory never stores anything: it succeeds without a fetch when
    overwriting is off, and fails when it is on. *)
Theorem successful_attempt_stores_the_buffer (remote : Remote) (fs fs' : FS)
    (file : FileEntry) (groupHandle : string) (config : Configuration)
    (result : DownloadResult) :
  let out := output_path config file groupHandle in
  let part := part_path config file groupHandle in
  downloadFile remote fs file groupHandle config = (fs', result) ->
  r_success result = true ->
  result = mkResult true file
             (Some (outputPath_string config file groupHandle)) None
  /\ ((download_flag overwriteExisting config = false
       /\ output_exists fs config file groupHandle = true /\ fs' = fs)
      \/ exists buffer,
           remote = Media buffer
           /\ Z.of_nat (String.length buffer) = f_size file
           /\ output_is_directory fs config file groupHandle = false
           /\ fs' !! out = Some (Blob buffer)
           /\ fs' !! part = None
           /\ forall q, q <> out -> q <> part -> fs' !! q = fs !! q)
  /\ (output_is_directory fs config file groupHandle = true ->
      download_flag overwriteExisting config = false /\ fs' = fs).
Proof.
  intros out part.
  destruct (downloadFile_cases remote fs file groupHandle config)
    as [(Hflag & Hexists & ->)|[(buffer & Hremote & Hsize & Hdir & ->)
                               |(message & ->)]];
    fold out; fold part; intros [= <- <-]; simpl; try discriminate.
  - intros _. split; [reflexivity|]. split; [left; auto|auto].
  - intros _. split; [reflexivity|].
    split; [|intros E; congruence].
    right. exists buffer.
    assert (Hne : part <> out) by apply part_path_differs.
    split; [exact Hremote|]. split; [exact Hsize|]. split; [exact Hdir|].
    split; [apply lookup_insert_eq|]. split.
    + rewrite lookup_insert_ne by congruence. apply lookup_delete_eq.
    + intros q Hq Hp. rewrite lookup_insert_ne by congruence.
      rewrite lookup_delete_ne by congruence.
      apply lookup_insert_ne. congruence.
Qed.

Lemma successful_attempt_stores_the_buffer_witness :
  fst (downloadFile (Media "abc") ∅ job_of_3 "g1" sample_config)
    !! output_path sample_config job_of_3 "g1" = Some (Blob "abc").
Proof.
  destruct (downloadFile (Media "abc") ∅ job_of_3 "g1" sample_config)
    as [fs' result] eqn:Hrun.
  assert (Hresult : r_success result = true).
  { apply (f_equal snd) in Hrun. change (snd (fs', result)) with result
      in Hrun. rewrite <- Hrun. vm_compute. reflexivity. }
  destruct (successful_attempt_stores_the_buffer _ _ _ _ _ _ _ Hrun Hresult)
    as (_ & [(_ & Hexists & _)|(buffer & Hremote & _ & _ & Hout & _)] & _).
  - vm_compute in Hexists. discriminate.
  - injection Hremote as <-. exact Hout.
Defined.

Lemma same_place_same_path (config : Configuration)
    (file other : FileEntry) (groupHandle otherHandle : string) :
  output_dir config other otherHandle = output_dir config file groupHandle ->
  sanitizeFilename (f_name other) = sanitizeFilename (f_name file) ->
  outputPath_string config other otherHandle
  = outputPath_string config file groupHandle
  /\ output_path config other otherHandle
     = output_path config file groupHandle
  /\ names_output_dir other = names_output_dir file.
Proof.
  intros Hdir Hname.
  unfold output_path, outputPath_string, names_output_dir.
  rewrite Hdir, Hname. auto.
Qed.

Example empty_name_is_never_stored :
  sanitizeFilename (f_name dotted_job) = ""
  /\ downloadFile NoMessages ∅ dotted_job "g1" sample_config
     = (∅, mkResult true dotted_job (Some "/srv/downloads/g1") None)
  /\ snd (downloadFile (Media "abc") ∅ dotted_job "g1" overwriting_config)
     = mkResult false dotted_job None
         (Some "EISDIR: illegal operation on a directory, rename '/srv/downloads/g1.part' -> '/srv/downloads/g1'")
  /\ fst (downloadFile (Media "abc") ∅ dotted_job "g1" overwriting_config)
       !! ("/srv/downloads", "g1.part") = None.
Proof. vm_compute. repeat split. Qed.

Example rename_onto_directory_codes :
  e_code (rename_onto_directory "out.part" "out") = Some "EISDIR"
  /\ e_code (rename_onto_directory "out/.part" "out/") = Some "ENOTDIR"
  /\ e_code (rename_onto_directory "/.part" "/") = Some "EBUSY"
  /\ e_code (rename_onto_directory "...part" "..") = Some "EBUSY".
Proof. vm_compute. repeat split. Qed.

(** X13.  With overwriting off, a job whose output path is taken is
    never fetched: once one job has been downloaded, an attempt for any job
    that maps to the same output path (the same job again, or another job
    with the same output directory whose name sanitises to the same name)
    succeeds whatever the peer would do, names that path, and leaves the
    disk as it is, so the file on disk is still the first job's. *)
Theorem colliding_job_is_not_fetched (first second : Remote) (fs : FS)
    (file other : FileEntry) (groupHandle otherHandle : string)
    (config : Configuration) :
  let out := outputPath_string config file groupHandle in
  let fs' := fst (downloadFile first fs file groupHandle config) in
  download_flag overwriteExisting config = false ->
  r_success (snd (downloadFile first fs file groupHandle config)) = true ->
  output_dir config other otherHandle = output_dir config file groupHandle ->
  sanitizeFilename (f_name other) = sanitizeFilename (f_name file) ->
  outputPath_string config other otherHandle = out
  /\ downloadFile second fs' other otherHandle config
     = (fs', mkResult true other (Some out) None).
Proof.
  intros out fs' Hflag Hok Hdir Hname. subst fs'.
  destruct (same_place_same_path config file other groupHandle otherHandle
              Hdir Hname) as (Htext & Hplace & Hempty).
  split; [exact Htext|]. fold out in Htext. rewrite <- Htext.
  apply downloadFile_existing; [exact Hflag|].
  unfold output_exists. rewrite Hplace, Hempty.
  destruct (downloadFile_cases first fs file groupHandle config)
    as [(_ & Hexists & ->)|[(buffer & _ & _ & _ & ->)|(message & Hfail)]].
  - exact Hexists.
  - simpl. unfold fileExists. rewrite lookup_insert_eq.
    apply orb_true_r.
  - rewrite Hfail in Hok. discriminate.
Qed.

Lemma colliding_job_is_not_fetched_witness :
  let fs' := fst (downloadFile (Media "abc") ∅ job_with_blank "g1"
                    sample_config) in
  downloadFile NoMessages fs' job_with_underscore "g1" sample_config
  = (fs', mkResult true job_with_underscore
            (Some "/srv/downloads/g1/my_file.txt") None)
  /\ fs' !! ("/srv/downloads/g1", "my_file.txt") = Some (Blob "abc").
Proof.
  intros fs'. split; [|reflexivity].
  apply (colliding_job_is_not_fetched (Media "abc") NoMessages ∅
           job_with_blank job_with_underscore "g1" "g1" sample_config);
    reflexivity.
Defined.

(** ** What a run keeps of the snapshot *)

Lemma same_catalogue_refl (files : list FileEntry) :
  same_catalogue files files.
Proof.
  apply Forall2_same_length_lookup_2; [reflexivity|].
  intros i r r' H1 H2. assert (r' = r) as -> by congruence.
  unfold descriptive_from. tauto.
Qed.

Lemma same_catalogue_update (files : list FileEntry) (d : DataFile)
    (id : string) (st : DownloadStatus) (path message : option string)
    (now : string) :
  same_catalogue files (d_files d) ->
  same_catalogue files
    (d_files (updateFileStatus d id st path message now)).
Proof.
  intros H. unfold updateFileStatus.
  destruct (findIndex _ _) as [i|]; [|exact H]. simpl.
  unfold same_catalogue in *. revert i.
  induction H as [|r r' before after Hr H IH]; intros [|i].
  - constructor.
  - constructor.
  - constructor; [|exact H]. exact Hr.
  - constructor; [exact Hr|]. apply IH.
Qed.

Lemma same_catalogue_ids (before after : list FileEntry) :
  same_catalogue before after -> f_id <$> after = f_id <$> before.
Proof.
  induction 1 as [|r r' before after Hr H IH]; [reflexivity|].
  rewrite !fmap_cons, IH. f_equal. apply Hr.
Qed.

(** X14.  A run never adds, removes, reorders or renames a job, and never
    touches the groups: in every state of a run the snapshot lists the
    same groups, and the same job records in the same order, each with its
    id, group, name, size, type, extension, message and timestamps of
    discovery as before the run.  Only the four download-state fields can
    differ. *)
Theorem run_keeps_the_catalogue (opts : DownloadManagerOptions)
    (data : DataFile) (st : DownloadStats) (fs : FS)
    (files : list FileEntry) (schedule : list Event) (m : Manager) :
  run_events opts schedule (begin_run opts data st fs files) = Some m ->
  d_groups (dataFile m) = d_groups data
  /\ same_catalogue (d_files data) (d_files (dataFile m))
  /\ file_ids (dataFile m) = file_ids data
  /\ length (d_files (dataFile m)) = length (d_files data).
Proof.
  intros Hrun.
  assert (H : d_groups (dataFile m) = d_groups data
              /\ same_catalogue (d_files data) (d_files (dataFile m))).
  { refine (run_updates
              (fun d => d_groups d = d_groups data
                        /\ same_catalogue (d_files data) (d_files d))
              files _ opts data st fs schedule m _ Hrun).
    - intros d id status path message now _ [Hg Hc]. split.
      + rewrite updateFileStatus_groups. exact Hg.
      + apply same_catalogue_update. exact Hc.
    - split; [reflexivity|apply same_catalogue_refl]. }
  destruct H as [Hg Hc]. split; [exact Hg|]. split; [exact Hc|]. split.
  - apply same_catalogue_ids. exact Hc.
  - symmetry. eapply Forall2_length. exact Hc.
Qed.

Lemma run_keeps_the_catalogue_witness :
  match run_events two_at_a_time sample_schedule
          (begin_run two_at_a_time five_pending
             (set_totals constructor_stats (d_files five_pending)) ∅
             (d_files five_pending)) with
  | Some m => file_ids (dataFile m) = file_ids five_pending
  | None => False
  end.
Proof.
  destruct (run_events two_at_a_time sample_schedule _) as [m|] eqn:Hrun.
  - apply (run_keeps_the_catalogue _ _ _ _ _ _ _ Hrun).
  - assert (H : match run_events two_at_a_time sample_schedule
                         (begin_run two_at_a_time five_pending
                            (set_totals constructor_stats
                               (d_files five_pending))
                            ∅ (d_files five_pending)) with
                 | Some _ => true
                 | None => false
                 end = true)
      by (vm_compute; reflexivity).
    rewrite Hrun in H. discriminate.
Defined.

(** X15.  A run leaves the other jobs alone: the record under an id that
    no candidate has is, in every state of the run, the record that was
    loaded.  With unique ids this covers every record that is completed or
    in-progress when the run starts.  So a job that an interrupted run left
    in-progress is never picked up again, with or without resumeExisting:
    it is not a candidate, and no run changes it. *)
Theorem run_leaves_other_jobs_alone (opts : DownloadManagerOptions)
    (data : DataFile) (st : DownloadStats) (fs : FS)
    (schedule : list Event) (m : Manager) :
  let candidates := getFilesToDownload opts data in
  run_events opts schedule (begin_run opts data st fs candidates) = Some m ->
  (forall r, r ∈ candidates ->
     f_downloadStatus r <> in_progress /\ f_downloadStatus r <> completed)
  /\ (forall id, id ∉ f_id <$> candidates ->
        record_at (d_files (dataFile m)) id = record_at (d_files data) id)
  /\ (NoDup (file_ids data) ->
      forall r, r ∈ d_files data ->
        f_downloadStatus r = in_progress \/ f_downloadStatus r = completed ->
        record_at (d_files (dataFile m)) (f_id r) = Some r).
Proof.
  intros candidates Hrun.
  assert (Hstatus : forall r, r ∈ candidates ->
            f_downloadStatus r <> in_progress
            /\ f_downloadStatus r <> completed).
  { intros r Hr.
    destruct (getFilesToDownload_status opts data r Hr) as [-> | ->];
      split; discriminate. }
  assert (Hframe : forall id, id ∉ f_id <$> candidates ->
            record_at (d_files (dataFile m)) id
            = record_at (d_files data) id).
  { intros id Hid.
    refine (run_updates
              (fun d => record_at (d_files d) id = record_at (d_files data) id)
              candidates _ opts data st fs schedule m eq_refl Hrun).
    intros d id' status path message now Hin HP.
    rewrite record_at_update_other; [exact HP|].
    intros ->. contradiction. }
  split; [exact Hstatus|]. split; [exact Hframe|].
  intros Hnd r Hr Hr_status.
  rewrite Hframe; [apply unique_id_same_record; assumption|].
  intros Hin. apply list_elem_of_fmap in Hin as (c & Hid & Hc).
  assert (Hc' : c ∈ d_files data).
  { eapply elem_of_sublist; [exact Hc|apply getFilesToDownload_sublist]. }
  assert (c = r) as ->.
  { pose proof (unique_id_same_record _ _ Hnd Hc') as H1.
    pose proof (unique_id_same_record _ _ Hnd Hr) as H2.
    rewrite <- Hid in H1. congruence. }
  destruct (Hstatus r Hc) as [H1 H2]. destruct Hr_status; contradiction.
Qed.

Lemma run_leaves_other_jobs_alone_witness :
  match run_events resume_options succeeding_schedule
          (begin_run resume_options interrupted_store constructor_stats ∅
             (getFilesToDownload resume_options interrupted_store)) with
  | Some m =>
      record_at (d_files (dataFile m)) "g1:9" = Some interrupted_job
  | None => False
  end.
Proof.
  destruct (run_events resume_options succeeding_schedule _) as [m|] eqn:Hrun.
  - destruct (run_leaves_other_jobs_alone _ _ _ _ _ _ Hrun)
      as (_ & _ & Hkept).
    apply (Hkept ltac:(apply (bool_decide_unpack _); vm_compute; exact I)
                 interrupted_job).
    + right. left.
    + left. reflexivity.
  - assert (H : match run_events resume_options succeeding_schedule
                         (begin_run resume_options interrupted_store
                            constructor_stats ∅
                            (getFilesToDownload resume_options
                               interrupted_store)) with
                 | Some _ => true
                 | None => false
                 end = true)
      by (vm_compute; reflexivity).
    rewrite Hrun in H. discriminate.
Defined.

(** ** The statistics of a run *)

Lemma sum_list_with_alter {A} (f : A -> nat) (g : A -> A) (l : list A)
    (i : nat) (x : A) :
  l !! i = Some x ->
  (sum_list_with f (alter g i l) + f x = sum_list_with f l + f (g x))%nat.
Proof.
  revert i. induction l as [|a l IH]; intros [|i]; simpl; try discriminate.
  - intros [= ->]. lia.
  - intros H. specialize (IH i H).
    change (list_alter g i l) with (alter g i l). lia.
Qed.

Lemma sum_list_with_delete {A} (f : A -> nat) (l : list A) (i : nat)
    (x : A) :
  l !! i = Some x ->
  (sum_list_with f (delete i l) + f x = sum_list_with f l)%nat.
Proof.
  revert i. induction l as [|a l IH]; intros [|i]; simpl; try discriminate.
  - intros [= ->]. lia.
  - intros H. specialize (IH i H).
    change (list_delete i l) with (delete i l). lia.
Qed.

Lemma length_delete_Some {A} (l : list A) (i : nat) (x : A) :
  l !! i = Some x -> S (length (delete i l)) = length l.
Proof.
  revert i. induction l as [|a l IH]; intros [|i]; simpl; try discriminate.
  - reflexivity.
  - intros H. rewrite <- (IH i H). reflexivity.
Qed.

Lemma fill_counts limit queue active (d : DataFile) queue' active' d' :
  fill limit queue active d = (queue', active', d') ->
  (length queue' + length active' = length queue + length active)%nat
  /\ recorded active' = recorded active.
Proof.
  revert active d. induction queue as [|f rest IH]; intros active d; simpl.
  - intros [= <- <- _]. auto.
  - destruct (Z.of_nat (length active) <? limit)%Z.
    + intros Hfill. destruct (IH _ _ Hfill) as [Hlen Hrec].
      rewrite length_app in Hlen. simpl in Hlen.
      unfold recorded in *. rewrite sum_list_with_app in Hrec. simpl in Hrec.
      split; lia.
    + intros [= <- <- _]. auto.
Qed.

Lemma refill_counts opts (m : Manager) :
  settled (refill opts m) = settled m
  /\ counted (refill opts m) = counted m
  /\ recorded (active (refill opts m)) = recorded (active m)
  /\ stats (refill opts m) = stats m.
Proof.
  unfold refill, settled, counted.
  destruct (fill _ _ _ _) as [[queue' active'] d'] eqn:Hfill. simpl.
  destruct (fill_counts _ _ _ _ _ _ _ Hfill) as [Hlen Hrec].
  repeat split; try assumption; lia.
Qed.

Lemma saveDataFile_unfaulted (env : SaveEnv) (fs : FS) (p : Path)
    (d : DataFile) (b : bool) :
  fault env = NoFault -> snd (saveDataFile env fs p d b) = Returned tt.
Proof.
  intros Hfault. unfold saveDataFile, fileExists.
  destruct b; simpl.
  - destruct (fs !! p) as [c|] eqn:Hp.
    + unfold createBackup, copyFile. rewrite Hfault, Hp.
      unfold atomicWrite. rewrite Hfault. reflexivity.
    + unfold atomicWrite. rewrite Hfault. reflexivity.
  - unfold atomicWrite. rewrite Hfault. reflexivity.
Qed.

(** An execution that ends, after [extra] more outcomes were counted as
    failures. *)
Lemma finish_accounted (opts : DownloadManagerOptions) (m : Manager) (i : nat) (file : FileEntry)
    (ph : phase) (d' : DataFile) (st' : DownloadStats) (disk' : FS) :
  active m !! i = Some (mkTask file ph) ->
  total st' = total (stats m) ->
  s_completed st' = s_completed (stats m) ->
  Accounted m ->
  let weight := match ph with SavingOutcome => 1 | _ => 0 end%Z in
  let m' := refill opts
              (remove_active i
                 {| dataFile := d'; stats := st'; queue := queue m;
                    active := active m; disk := disk' |}) in
  (s_failed st' = s_failed (stats m)
     \/ s_failed st' = s_failed (stats m) + 1)%Z ->
  (s_failed st' = s_failed (stats m) -> weight = 1%Z) ->
  Accounted m'
  /\ (Counted_once m ->
      (s_failed st' = s_failed (stats m) + 1 -> weight = 0)%Z ->
      Counted_once m').
Proof.
  intros Hi Htotal Hcompleted Hacc weight m' Hfailed Hweight.
  destruct (refill_counts opts
              (remove_active i
                 {| dataFile := d'; stats := st'; queue := queue m;
                    active := active m; disk := disk' |}))
    as (Hs & Hc & Hr & Hst).
  fold m' in Hs, Hc, Hr, Hst.
  pose proof (length_delete_Some _ _ _ Hi) as Hlen.
  pose proof (sum_list_with_delete
                (fun t => match t_phase t with SavingOutcome => 1 | _ => 0 end)
                _ _ _ Hi)%nat as Hsum.
  fold (recorded (delete i (active m))) in Hsum.
  fold (recorded (active m)) in Hsum.
  unfold Accounted, Counted_once in *. rewrite Hs, Hc, Hr, Hst.
  unfold settled, counted in *. simpl in *.
  rewrite Htotal, Hcompleted.
  destruct Hacc as (Hcount & Hdone & Hfail).
  destruct ph; simpl in Hsum, weight; subst weight; split; try lia.
Qed.

Lemma step_accounted opts (m m' : Manager) (ev : Event) :
  Accounted m ->
  step opts m ev = Some m' ->
  Accounted m'
  /\ (Counted_once m -> save_unfaulted ev -> Counted_once m').
Proof.
  intros Hacc Hstep.
  destruct ev as [i env|i peer now]; simpl in Hstep;
    destruct (active m !! i) as [[file ph]|] eqn:Hi; try discriminate;
    destruct ph; try discriminate.
  - pose proof (saveDataFile_unfaulted env (disk m) (dataFilePath opts)
                  (dataFile m) true) as Hquiet.
    destruct (saveDataFile _ _ _ _ _) as [disk' [[]|error]];
      injection Hstep as <-.
    + pose proof (sum_list_with_alter
                    (fun t => match t_phase t with
                              | SavingOutcome => 1 | _ => 0 end)%nat
                    (set_task_phase Transferring) _ _ _ Hi) as Hsum.
      unfold Accounted, Counted_once, settled, counted, recorded in *.
      simpl in *. rewrite length_alter. split; [lia|]. intros H _. lia.
    + destruct (finish_accounted opts m i file SavingStart
                  (dataFile (catch_failure m file error disk'))
                  (stats (catch_failure m file error disk')) disk' Hi)
        as [H1 H2]; try reflexivity; try exact Hacc.
      * right. reflexivity.
      * simpl. lia.
      * split; [exact H1|]. intros _ Hfault. simpl in Hfault.
        specialize (Hquiet Hfault). discriminate.
  - pose proof (saveDataFile_unfaulted env (disk m) (dataFilePath opts)
                  (dataFile m) true) as Hquiet.
    destruct (saveDataFile _ _ _ _ _) as [disk' [[]|error]];
      injection Hstep as <-.
    + destruct (finish_accounted opts m i file SavingOutcome (dataFile m)
                  (stats m) disk' Hi) as [H1 H2]; try reflexivity;
        try exact Hacc.
      * left. reflexivity.
      * split; [exact H1|]. intros Honce _. apply H2; [exact Honce|].
        intros H. lia.
    + destruct (finish_accounted opts m i file SavingOutcome
                  (dataFile (catch_failure m file error disk'))
                  (stats (catch_failure m file error disk')) disk' Hi)
        as [H1 H2]; try reflexivity; try exact Hacc.
      * right. reflexivity.
      * split; [exact H1|]. intros _ Hfault. simpl in Hfault.
        specialize (Hquiet Hfault). discriminate.
  - destruct (downloadFileWithRetry _ _ _ _ _) as [[disk' events] result].
    injection Hstep as <-.
    pose proof (sum_list_with_alter
                  (fun t => match t_phase t with
                            | SavingOutcome => 1 | _ => 0 end)%nat
                  (set_task_phase SavingOutcome) _ _ _ Hi) as Hsum.
    unfold record_result.
    destruct (r_success result);
      unfold Accounted, Counted_once, settled, counted, recorded in *;
      simpl in *; rewrite length_alter; (split; [lia|]); intros H _; lia.
Qed.

Lemma run_events_accounted opts (schedule : list Event) (m m' : Manager) :
  Accounted m ->
  run_events opts schedule m = Some m' ->
  Accounted m'
  /\ (Counted_once m -> Forall save_unfaulted schedule -> Counted_once m').
Proof.
  revert m. induction schedule as [|ev rest IH]; intros m Hacc; simpl.
  - intros [= <-]. auto.
  - destruct (step opts m ev) as [m1|] eqn:Hstep; [|discriminate].
    intros Hrun. destruct (step_accounted _ _ _ _ Hacc Hstep) as [H1 Honce1].
    destruct (IH _ H1 Hrun) as [H2 Honce2]. split; [exact H2|].
    intros Honce Hall. apply Forall_cons in Hall as [Hev Hall]. auto.
Qed.

Lemma begin_run_accounted opts data fs (files : list FileEntry) :
  let m := begin_run opts data (set_totals constructor_stats files) fs
                     files in
  Accounted m /\ Counted_once m
  /\ total (stats m) = Z.of_nat (length files).
Proof.
  intros m. unfold m, begin_run.
  destruct (refill_counts opts
              {| dataFile := data;
                 stats := set_totals constructor_stats files;
                 queue := files; active := []; disk := fs |})
    as (Hs & Hc & Hr & Hst).
  unfold Accounted, Counted_once. rewrite Hs, Hc, Hr, Hst.
  unfold settled, counted, recorded. simpl. repeat split; lia.
Qed.

(** X16.  What the statistics of a finished run add up to.  [total] is
    the number of candidates.  Every candidate is counted at least once in
    [completed] or [failed] and at most twice, and at most once in
    [completed]: so [completed + failed] lies between [total] and twice
    [total].  When no save of the run meets an I/O fault every candidate is
    counted exactly once and [completed + failed = total]. *)
Theorem stats_account_for_every_job (opts : DownloadManagerOptions)
    (data : DataFile) (fs : FS) (files : list FileEntry)
    (schedule : list Event) (m : Manager) :
  run_events opts schedule
    (begin_run opts data (set_totals constructor_stats files) fs files)
    = Some m ->
  finished m = true ->
  total (stats m) = Z.of_nat (length files)
  /\ (total (stats m) <= s_completed (stats m) + s_failed (stats m)
      <= 2 * total (stats m))%Z
  /\ (0 <= s_completed (stats m) <= total (stats m))%Z
  /\ (Forall save_unfaulted schedule ->
      (s_completed (stats m) + s_failed (stats m) = total (stats m))%Z).
Proof.
  intros Hrun Hfinished.
  destruct (begin_run_accounted opts data fs files) as (Hacc0 & Honce0 & Ht0).
  destruct (run_events_accounted _ _ _ _ Hacc0 Hrun) as [Hacc Honce].
  assert (Htotal : total (stats m) = Z.of_nat (length files)).
  { rewrite <- Ht0. clear - Hrun.
    refine (_ : (fun s => total s = total (stats _)) (stats m)).
    revert Hrun. generalize (begin_run opts data
                               (set_totals constructor_stats files) fs files).
    induction schedule as [|ev rest IH]; intros m0; simpl.
    - intros [= <-]. reflexivity.
    - destruct (step opts m0 ev) as [m1|] eqn:Hstep; [|discriminate].
      intros Hrun. rewrite (IH _ Hrun).
      destruct ev as [i env|i peer now]; simpl in Hstep;
        destruct (active m0 !! i) as [[file ph]|]; try discriminate;
        destruct ph; try discriminate.
      + destruct (saveDataFile _ _ _ _ _) as [disk' [[]|error]];
          injection Hstep as <-; rewrite ?refill_stats; reflexivity.
      + destruct (saveDataFile _ _ _ _ _) as [disk' [[]|error]];
          injection Hstep as <-; rewrite ?refill_stats; reflexivity.
      + destruct (downloadFileWithRetry _ _ _ _ _) as [[disk' events] result].
        injection Hstep as <-. unfold record_result.
        destruct (r_success result); reflexivity. }
  unfold finished in Hfinished.
  destruct (queue m) eqn:Hq; [|discriminate].
  destruct (active m) eqn:Ha; [|discriminate].
  unfold Accounted, Counted_once, settled, counted, recorded in *.
  rewrite Hq, Ha in *. simpl in *.
  split; [exact Htotal|]. split; [lia|]. split; [lia|].
  intros Hall. specialize (Honce Honce0 Hall). lia.
Qed.

Lemma stats_account_for_every_job_witness :
  match run_events sample_options outcome_save_fails
          (begin_run sample_options (snapshot_of [job_of_3])
             (set_totals constructor_stats [job_of_3]) one_job_disk
             [job_of_3]) with
  | Some m =>
      total (stats m) = 1%Z
      /\ (s_completed (stats m) + s_failed (stats m) <= 2)%Z
  | None => False
  end.
Proof.
  destruct (run_events sample_options outcome_save_fails _) as [m|] eqn:Hrun.
  - assert (Hdone : finished m = true).
    { assert (H : match run_events sample_options outcome_save_fails
                          (begin_run sample_options (snapshot_of [job_of_3])
                             (set_totals constructor_stats [job_of_3])
                             one_job_disk [job_of_3]) with
                  | Some m => finished m
                  | None => false
                  end = true) by (vm_compute; reflexivity).
      rewrite Hrun in H. exact H. }
    destruct (stats_account_for_every_job _ _ _ _ _ _ Hrun Hdone)
      as (Htotal & Hcount & _).
    simpl in Htotal. split; [exact Htotal|]. rewrite Htotal in Hcount. lia.
  - assert (H : match run_events sample_options outcome_save_fails
                        (begin_run sample_options (snapshot_of [job_of_3])
                           (set_totals constructor_stats [job_of_3])
                           one_job_disk [job_of_3]) with
                | Some _ => true
                | None => false
                end = true) by (vm_compute; reflexivity).
    rewrite Hrun in H. discriminate.
Defined.

(** The upper bound is met: a job whose transfer succeeds and whose save
    afterwards fails is counted as completed and as failed. *)
Example a_job_can_count_twice :
  match run_events sample_options outcome_save_fails
          (begin_run sample_options (snapshot_of [job_of_3])
             (set_totals constructor_stats [job_of_3]) one_job_disk
             [job_of_3]) with
  | Some m =>
      finished m = true
      /\ total (stats m) = 1%Z /\ s_completed (stats m) = 1%Z
      /\ s_failed (stats m) = 1%Z
      /\ status_at (d_files (dataFile m)) "g1:8" = Some failed
  | None => False
  end.
Proof. vm_compute. repeat split. Qed.

(** ** Configuration validation *)

Lemma every_char_iff (p : ascii -> bool) (s : string) :
  every_char p s = true
  <-> forall c, In c (list_ascii_of_string s) -> p c = true.
Proof.
  split; [intros H c; apply every_char_spec; exact H|].
  induction s as [|x s IH]; cbn [every_char list_ascii_of_string];
    [reflexivity|].
  intros H. rewrite (H x (or_introl eq_refl)), IH; [reflexivity|].
  intros c Hc. apply H. right. exact Hc.
Qed.

Lemma handle_char_spec (c : ascii) :
  handle_char c = true
  <-> (97 <= nat_of_ascii c <= 122 \/ 65 <= nat_of_ascii c <= 90
       \/ 48 <= nat_of_ascii c <= 57 \/ nat_of_ascii c = 95)%nat.
Proof.
  unfold handle_char. cbv zeta.
  rewrite !orb_true_iff, !andb_true_iff, !Nat.leb_le, Nat.eqb_eq. tauto.
Qed.

Lemma handlePattern_test_spec (handle : string) :
  handlePattern_test handle = true <-> handle_ok handle.
Proof.
  unfold handlePattern_test, handle_ok.
  rewrite andb_true_iff, every_char_iff. cbv zeta. split.
  - intros [Ht Hc]. split; [intros ->; discriminate|].
    intros c Hin. apply handle_char_spec, Hc. exact Hin.
  - intros [Hne Hc]. split; [destruct handle; [congruence|reflexivity]|].
    intros c Hin. apply handle_char_spec, Hc. exact Hin.
Qed.

Lemma validateHandles_spec (handles : list string) :
  (validateHandles handles = Returned tt <-> Forall handle_ok handles)
  /\ (forall e, validateHandles handles = Thrown e ->
        e_name e = "ValidationError" /\ e_code e = Some "INVALID_HANDLE").
Proof.
  induction handles as [|h rest [IH1 IH2]]; cbn [validateHandles].
  - split; [split; [constructor|reflexivity]|discriminate].
  - destruct (handlePattern_test h) eqn:E; cbn [negb].
    + apply handlePattern_test_spec in E. split; [|exact IH2].
      rewrite Forall_cons, IH1. tauto.
    + split.
      * split; [discriminate|]. intros H. apply Forall_cons in H as [H _].
        apply handlePattern_test_spec in H. congruence.
      * intros e [= <-]. split; reflexivity.
Qed.

Lemma trimStart_empty (s : string) :
  trimStart s = "" <-> every_char space_char s = true.
Proof.
  induction s as [|c s IH]; cbn [trimStart every_char];
    [split; reflexivity|].
  destruct (space_char c); cbn [andb]; [exact IH|].
  split; discriminate.
Qed.

Lemma trimStart_head (s : string) (c : ascii) (rest : string) :
  trimStart s = String c rest -> space_char c = false.
Proof.
  induction s as [|x s IH]; cbn [trimStart]; [discriminate|].
  destruct (space_char x) eqn:E; [exact IH|]. intros [= <- _]. exact E.
Qed.

Lemma trimEnd_empty (s : string) :
  trimEnd s = "" <-> every_char space_char s = true.
Proof.
  induction s as [|c s IH]; cbn [trimEnd every_char]; [split; reflexivity|].
  destruct (trimEnd s) as [|k kept].
  - destruct (space_char c); cbn [andb]; [|split; discriminate].
    split; intros _; [apply IH|]; reflexivity.
  - split; [discriminate|]. intros H. apply andb_true_iff in H as [_ H].
    apply IH in H. discriminate.
Qed.

Lemma trim_blank (s : string) :
  (String.length (trim s) =? 0)%nat = true <-> blank s.
Proof.
  unfold blank. rewrite <- every_char_iff, Nat.eqb_eq. unfold trim. split.
  - intros H. apply trimStart_empty.
    destruct (trimStart s) as [|c rest] eqn:E; [reflexivity|].
    assert (Hall : every_char space_char (String c rest) = true).
    { apply trimEnd_empty. destruct (trimEnd (String c rest));
        [reflexivity|discriminate]. }
    cbn [every_char] in Hall. rewrite (trimStart_head _ _ _ E) in Hall.
    discriminate.
  - intros H. apply trimStart_empty in H. rewrite H. reflexivity.
Qed.

Lemma validateGlobPatterns_spec (patterns : list string) :
  (validateGlobPatterns patterns = Returned tt
   <-> Forall (fun p => ~ blank p) patterns)
  /\ (forall e, validateGlobPatterns patterns = Thrown e ->
        e_name e = "ValidationError" /\ e_code e = Some "INVALID_PATTERN").
Proof.
  induction patterns as [|p rest [IH1 IH2]]; cbn [validateGlobPatterns].
  - split; [split; [constructor|reflexivity]|discriminate].
  - destruct (String.length (trim p) =? 0)%nat eqn:E.
    + apply trim_blank in E. split.
      * split; [discriminate|]. intros H. apply Forall_cons in H as [H _].
        contradiction.
      * intros e [= <-]. split; reflexivity.
    + assert (Hp : ~ blank p).
      { intros H. apply trim_blank in H. congruence. }
      split; [|exact IH2]. rewrite Forall_cons, IH1. tauto.
Qed.

Lemma when_present_spec (items : option (list string))
    (check : list string -> outcome unit) (P : string -> Prop)
    (code : string) :
  (forall l, (check l = Returned tt <-> Forall P l)
             /\ (forall e, check l = Thrown e ->
                   e_name e = "ValidationError" /\ e_code e = Some code)) ->
  (when_present items check = Returned tt <-> all_of items P)
  /\ (forall e, when_present items check = Thrown e ->
        e_name e = "ValidationError" /\ e_code e = Some code).
Proof.
  intros Hcheck. destruct items as [l|]; simpl; [apply Hcheck|].
  split; [tauto|discriminate].
Qed.

Lemma validatePaths_spec (config : ConfigurationFile) :
  (validatePaths config = Returned tt
   <-> forall dir, download_field outputDir (c_download config) = Some dir ->
                   dir = "" \/ ~ blank dir)
  /\ (forall e, validatePaths config = Thrown e ->
        e_name e = "ValidationError" /\ e_code e = Some "INVALID_PATH").
Proof.
  unfold validatePaths.
  destruct (download_field outputDir (c_download config)) as [dir|].
  - destruct (String.length (trim dir) =? 0)%nat eqn:E.
    + apply trim_blank in E. destruct dir as [|c dir]; cbn [truthy andb].
      * split; [|discriminate]. split; [|reflexivity].
        intros _ d [= <-]. left. reflexivity.
      * split; [|intros e [= <-]; split; reflexivity].
        split; [discriminate|]. intros H.
        destruct (H _ eq_refl) as [H'|H']; [discriminate|contradiction].
    + rewrite andb_false_r. split; [|discriminate].
      split; [|reflexivity]. intros _ d [= <-]. right.
      intros H. apply trim_blank in H. congruence.
  - split; [|discriminate]. split; [|reflexivity]. intros _ d. discriminate.
Qed.

Lemma returned_unit {code : string} (o : outcome unit) :
  (forall e, o = Thrown e ->
     e_name e = "ValidationError" /\ e_code e = Some code) ->
  (exists e, o = Thrown e /\ e_name e = "ValidationError"
             /\ e_code e = Some code)
  \/ o = Returned tt.
Proof.
  intros H. destruct o as [[]|e]; [right; reflexivity|].
  left. exists e. destruct (H e eq_refl). auto.
Qed.

(** X17.  [validateConfig] returns exactly on the valid configurations:
    every listed group handle is a non-empty word of ASCII letters, digits
    and underscores (so a handle written with its at-sign is rejected),
    no glob pattern is blank, the output directory is empty or not blank,
    concurrency, when given, is between 1 and 10, the size limits, when
    given, are not negative and the minimum does not exceed the maximum.
    It throws in every other case, always a ValidationError with one of
    five codes, and it returns at most three warnings. *)
Theorem validateConfig_accepts_exactly (config : ConfigurationFile) :
  ((exists warnings, validateConfig config = Returned warnings)
   <-> config_ok config)
  /\ (forall e, validateConfig config = Thrown e ->
        e_name e = "ValidationError"
        /\ exists code, e_code e = Some code /\ In code validation_codes)
  /\ (forall warnings, validateConfig config = Returned warnings ->
        (length warnings <= 3)%nat).
Proof.
  destruct (when_present_spec (groups_field gf_include config)
              validateHandles handle_ok _ validateHandles_spec) as [A1 A2].
  destruct (when_present_spec (groups_field gf_exclude config)
              validateHandles handle_ok _ validateHandles_spec) as [B1 B2].
  destruct (when_present_spec (files_field ff_include config)
              validateGlobPatterns _ _ validateGlobPatterns_spec)
    as [C1 C2].
  destruct (when_present_spec (files_field ff_exclude config)
              validateGlobPatterns _ _ validateGlobPatterns_spec)
    as [D1 D2].
  destruct (validatePaths_spec config) as [E1 E2].
  assert (Hthrown : forall (o : outcome (list string)) code,
            In code validation_codes ->
            (exists e, o = Thrown e /\ e_name e = "ValidationError"
                       /\ e_code e = Some code) ->
            (~ exists warnings, o = Returned warnings)
            /\ (forall e, o = Thrown e ->
                  e_name e = "ValidationError"
                  /\ exists code, e_code e = Some code
                                  /\ In code validation_codes)
            /\ (forall warnings, o = Returned warnings ->
                  (length warnings <= 3)%nat)).
  { intros o code Hcode (e & -> & Hn & Hc). split; [|split].
    - intros [w H]. discriminate.
    - intros e' [= <-]. eauto.
    - discriminate. }
  assert (Hreject : forall (o : outcome (list string)) code,
            In code validation_codes ->
            (exists e, o = Thrown e /\ e_name e = "ValidationError"
                       /\ e_code e = Some code) ->
            ~ config_ok config ->
            ((exists warnings, o = Returned warnings) <-> config_ok config)
            /\ (forall e, o = Thrown e ->
                  e_name e = "ValidationError"
                  /\ exists code, e_code e = Some code
                                  /\ In code validation_codes)
            /\ (forall warnings, o = Returned warnings ->
                  (length warnings <= 3)%nat)).
  { intros o code Hcode Hex Hnot.
    destruct (Hthrown o code Hcode Hex) as (H1 & H2 & H3).
    split; [tauto|]. split; assumption. }
  unfold validateConfig, validation_codes.
  destruct (returned_unit _ A2) as [Hex|HA]; [|rewrite HA].
  { destruct Hex as (e & He & Hex). rewrite He. cbn [and_then].
    apply (Hreject _ "INVALID_HANDLE"); [simpl; tauto|eauto|].
    intros [H _ _ _ _ _ _ _ _]. apply A1 in H. congruence. }
  cbn [and_then]. destruct (returned_unit _ B2) as [Hex|HB]; [|rewrite HB].
  { destruct Hex as (e & He & Hex). rewrite He. cbn [and_then].
    apply (Hreject _ "INVALID_HANDLE"); [simpl; tauto|eauto|].
    intros [_ H _ _ _ _ _ _ _]. apply B1 in H. congruence. }
  cbn [and_then]. destruct (returned_unit _ C2) as [Hex|HC]; [|rewrite HC].
  { destruct Hex as (e & He & Hex). rewrite He. cbn [and_then].
    apply (Hreject _ "INVALID_PATTERN"); [simpl; tauto|eauto|].
    intros [_ _ H _ _ _ _ _ _]. apply C1 in H. congruence. }
  cbn [and_then]. destruct (returned_unit _ D2) as [Hex|HD]; [|rewrite HD].
  { destruct Hex as (e & He & Hex). rewrite He. cbn [and_then].
    apply (Hreject _ "INVALID_PATTERN"); [simpl; tauto|eauto|].
    intros [_ _ _ H _ _ _ _ _]. apply D1 in H. congruence. }
  cbn [and_then]. destruct (returned_unit _ E2) as [Hex|HE]; [|rewrite HE].
  { destruct Hex as (e & He & Hex). rewrite He. cbn [and_then].
    apply (Hreject _ "INVALID_PATH"); [simpl; tauto|eauto|].
    intros [_ _ _ _ H _ _ _ _]. apply E1 in H. congruence. }
  cbn [and_then].
  destruct (concurrency_out_of_range config) eqn:Hc.
  { apply (Hreject _ "INVALID_CONCURRENCY");
      [simpl; tauto|eexists; split; [reflexivity|split; reflexivity]|].
    intros [_ _ _ _ _ H _ _ _]. unfold concurrency_out_of_range in Hc.
    destruct (download_field concurrency (c_download config)) as [n|];
      [|discriminate].
    specialize (H n eq_refl). lia. }
  destruct (minSize_negative config) eqn:Hmin.
  { apply (Hreject _ "INVALID_FILE_SIZE");
      [simpl; tauto|eexists; split; [reflexivity|split; reflexivity]|].
    intros [_ _ _ _ _ _ H _ _]. unfold minSize_negative in Hmin.
    destruct (files_field minSize config) as [n|]; [|discriminate].
    specialize (H n eq_refl). lia. }
  destruct (maxSize_negative config) eqn:Hmax.
  { apply (Hreject _ "INVALID_FILE_SIZE");
      [simpl; tauto|eexists; split; [reflexivity|split; reflexivity]|].
    intros [_ _ _ _ _ _ _ H _]. unfold maxSize_negative in Hmax.
    destruct (files_field maxSize config) as [[n|]|]; try discriminate.
    specialize (H n eq_refl). lia. }
  destruct (minSize_above_maxSize config) eqn:Hboth.
  { apply (Hreject _ "INVALID_FILE_SIZE");
      [simpl; tauto|eexists; split; [reflexivity|split; reflexivity]|].
    intros [_ _ _ _ _ _ _ _ H]. unfold minSize_above_maxSize in Hboth.
    destruct (files_field minSize config) as [lo|]; [|discriminate].
    destruct (files_field maxSize config) as [[hi|]|]; try discriminate.
    specialize (H lo hi eq_refl eq_refl). lia. }
  split; [|split].
  - split; [intros _|eauto]. constructor.
    + apply A1. exact HA.
    + apply B1. exact HB.
    + apply C1. exact HC.
    + apply D1. exact HD.
    + apply E1. exact HE.
    + intros n Hn. unfold concurrency_out_of_range in Hc.
      rewrite Hn in Hc. lia.
    + intros n Hn. unfold minSize_negative in Hmin. rewrite Hn in Hmin. lia.
    + intros n Hn. unfold maxSize_negative in Hmax. rewrite Hn in Hmax. lia.
    + intros lo hi Hlo Hhi. unfold minSize_above_maxSize in Hboth.
      rewrite Hlo, Hhi in Hboth. lia.
  - discriminate.
  - intros warnings [= <-]. rewrite length_app.
    unfold checkLargeExcludeList, checkConflictingRules.
    rewrite length_app.
    destruct (groups_field gf_exclude config) as [ex|];
      destruct (groups_field gf_include config) as [inc|];
      destruct (files_field ff_exclude config) as [fex|];
      repeat match goal with
             | |- context [if ?b then _ else _] => destruct b
             end; simpl; lia.
Qed.

Lemma validateConfig_accepts_exactly_witness : config_ok readme_config.
Proof.
  apply (validateConfig_accepts_exactly readme_config).
  exists []. vm_compute. reflexivity.
Defined.

(** The handles of the generated default configuration carry an at-sign,
    which the handle pattern refuses. *)
Example generated_handles_are_refused :
  exists e, validateConfig generated_config = Thrown e
            /\ e_code e = Some "INVALID_HANDLE".
Proof. eexists. split; [vm_compute; reflexivity|reflexivity]. Qed.

Lemma validated_concurrency (config : ConfigurationFile)
    (warnings : list string) :
  validateConfig config = Returned warnings ->
  forall n, download_field concurrency (c_download config) = Some n ->
            (1 <= n <= 10)%Z.
Proof.
  unfold validateConfig. intros H n Hn.
  destruct (when_present (groups_field gf_include config) validateHandles);
    [|discriminate]; cbn [and_then] in H.
  destruct (when_present (groups_field gf_exclude config) validateHandles);
    [|discriminate]; cbn [and_then] in H.
  destruct (when_present (files_field ff_include config)
              validateGlobPatterns); [|discriminate]; cbn [and_then] in H.
  destruct (when_present (files_field ff_exclude config)
              validateGlobPatterns); [|discriminate]; cbn [and_then] in H.
  destruct (validatePaths config); [|discriminate]; cbn [and_then] in H.
  destruct (concurrency_out_of_range config) eqn:Hc; [discriminate|].
  unfold concurrency_out_of_range in Hc. rewrite Hn in Hc. lia.
Qed.

(** X18.  A validated configuration bounds the run: with the download
    settings of a configuration that [validateConfig] returned on, the
    scheduler's limit is between 1 and 10 (3 when concurrency is absent),
    and in every state of a run at most 10 executions are in flight. *)
Theorem validated_config_bounds_the_run (config : ConfigurationFile)
    (warnings : list string) (path : Path) (progress resume : option bool)
    (data : DataFile) (st : DownloadStats) (fs : FS)
    (files : list FileEntry) (schedule : list Event) (m : Manager) :
  let opts := mkOptions (c_download config) path progress resume in
  validateConfig config = Returned warnings ->
  (1 <= concurrency_of opts <= 10)%Z
  /\ (download_field concurrency (c_download config) = None ->
      concurrency_of opts = 3%Z)
  /\ (run_events opts schedule (begin_run opts data st fs files) = Some m ->
      (length (active m) <= 10)%nat).
Proof.
  intros opts Hvalid.
  assert (Hrange : (1 <= concurrency_of opts <= 10)%Z).
  { unfold concurrency_of, opts. simpl.
    pose proof (validated_concurrency config warnings Hvalid) as Hc.
    destruct (download_field concurrency (c_download config)) as [n|];
      simpl; [|lia].
    specialize (Hc n eq_refl). destruct (Z.eqb_spec n 0); lia. }
  split; [exact Hrange|]. split.
  - intros Hnone. unfold concurrency_of, opts. simpl. rewrite Hnone.
    reflexivity.
  - intros Hrun.
    destruct (begin_run_slots opts data st fs files) as [Hslots _]; [lia|].
    destruct (run_events_slots _ _ _ _ Hslots Hrun) as [[Hle _] _]. lia.
Qed.

Lemma validated_config_bounds_the_run_witness :
  (1 <= concurrency_of
          (mkOptions (c_download readme_config) ("data", "data.json")
                     None None) <= 10)%Z.
Proof.
  apply (validated_config_bounds_the_run readme_config [] ("data", "data.json")
           None None five_pending constructor_stats ∅ [] []
           (begin_run (mkOptions (c_download readme_config)
                         ("data", "data.json") None None)
                      five_pending constructor_stats ∅ [])).
  vm_compute. reflexivity.
Defined.

(** ** Discovery filters *)

Lemma filter_all {A} (l : list A) : List.filter (fun _ => true) l = l.
Proof. induction l as [|x l IH]; simpl; [reflexivity|]. rewrite IH. reflexivity. Qed.

Lemma filter_filter {A} (p q : A -> bool) (l : list A) :
  List.filter q (List.filter p l) = List.filter (fun x => p x && q x) l.
Proof.
  induction l as [|x l IH]; simpl; [reflexivity|].
  destruct (p x); simpl; [destruct (q x)|]; rewrite IH; reflexivity.
Qed.

Lemma filter_when_listed_filter {A} (items : option (list string))
    (test : list string -> A -> bool) (l : list A) :
  filter_when_listed items test l
  = List.filter (fun x => decide_when_listed items (fun lst => test lst x) true)
                l.
Proof.
  unfold filter_when_listed, decide_when_listed.
  destruct items as [lst|]; [destruct (0 <? length lst)%nat|];
    try reflexivity; symmetry; apply filter_all.
Qed.

Lemma decide_when_listed_true (items : option (list string))
    (test : list string -> bool) :
  decide_when_listed items test true = true
  <-> forall l, items = Some l -> l <> [] -> test l = true.
Proof.
  unfold decide_when_listed. destruct items as [[|x l]|]; simpl.
  - split; [|reflexivity]. intros _ l [= <-] H. congruence.
  - split.
    + intros H l' [= <-] _. exact H.
    + intros H. apply H; [reflexivity|discriminate].
  - split; [|reflexivity]. intros _ l. discriminate.
Qed.

Lemma decide_when_listed_unlisted (items : option (list string))
    (test : list string -> bool) (otherwise : bool) :
  ~ listed items -> decide_when_listed items test otherwise = otherwise.
Proof.
  unfold listed, decide_when_listed. intros H.
  destruct items as [[|x l]|]; simpl; try reflexivity.
  exfalso. apply H. eexists. split; [reflexivity|discriminate].
Qed.

Lemma decide_when_listed_listed (items : option (list string))
    (test : list string -> bool) (otherwise : bool) (l : list string) :
  items = Some l -> l <> [] -> decide_when_listed items test otherwise = test l.
Proof.
  intros -> Hl. unfold decide_when_listed. destruct l; [congruence|reflexivity].
Qed.

Lemma list_filter_sublist {A} (p : A -> bool) (l : list A) :
  List.filter p l `sublist_of` l.
Proof.
  induction l as [|x l IH]; simpl; [constructor|].
  destruct (p x); [apply sublist_skip|apply sublist_cons]; exact IH.
Qed.

Lemma classic_listed (items : option (list string)) :
  listed items \/ ~ listed items.
Proof.
  unfold listed. destruct items as [[|x l]|].
  - right. intros (l & [= <-] & H). congruence.
  - left. eexists. split; [reflexivity|discriminate].
  - right. intros (l & H & _). discriminate.
Qed.

Section FilterProperties.
Variable toLowerCase : string -> string.
Variable minimatch : string -> string -> bool.

Lemma some_handle_spec (handles : list string) (handle : string) :
  some_handle toLowerCase handles handle = true
  <-> exists h, In h handles /\ toLowerCase h = handle.
Proof.
  unfold some_handle. rewrite existsb_exists.
  split; intros (h & Hin & H); exists h; split; auto;
    apply String.eqb_eq; exact H.
Qed.

Lemma applyGroupFilters_filter (groups : list TelegramGroup)
    (config : ConfigurationFile) :
  applyGroupFilters toLowerCase groups config
  = List.filter
      (fun g =>
         decide_when_listed (groups_field gf_include config)
           (fun l => in_include toLowerCase l g) true
         && decide_when_listed (groups_field gf_exclude config)
              (fun l => not_in_exclude toLowerCase l g) true)
      groups.
Proof.
  unfold applyGroupFilters. cbv zeta.
  rewrite !filter_when_listed_filter, filter_filter. reflexivity.
Qed.

(** X19.  Which groups [applyGroupFilters] keeps.  A group is kept when
    it passes both lists: if the include list is given and not empty, the
    group has a handle whose lower-casing is not empty and equals the
    lower-casing of an entry of the list; if the exclude list is given and
    not empty, the group has no such handle on it.  So a group without a
    handle is dropped by any include list and kept by every exclude list.
    The groups kept come in the order they were scanned. *)
Theorem applyGroupFilters_keeps (groups : list TelegramGroup)
    (config : ConfigurationFile) (group : TelegramGroup) :
  (In group (applyGroupFilters toLowerCase groups config)
   <-> In group groups
       /\ (forall include,
             groups_field gf_include config = Some include ->
             include <> [] ->
             exists handle h,
               lower_handle toLowerCase group = Some handle
               /\ handle <> "" /\ In h include /\ toLowerCase h = handle)
       /\ (forall exclude handle h,
             groups_field gf_exclude config = Some exclude ->
             lower_handle toLowerCase group = Some handle ->
             handle <> "" -> In h exclude -> toLowerCase h <> handle))
  /\ applyGroupFilters toLowerCase groups config `sublist_of` groups.
Proof.
  rewrite applyGroupFilters_filter. split; [|apply list_filter_sublist].
  rewrite filter_In, andb_true_iff, !decide_when_listed_true.
  unfold in_include, not_in_exclude.
  split; intros (Hin & Hinc & Hexc); (split; [exact Hin|]); split.
  - intros include Hi Hne. specialize (Hinc include Hi Hne).
    destruct (lower_handle toLowerCase group) as [handle|]; [|discriminate].
    apply andb_true_iff in Hinc as [Ht Hs].
    apply some_handle_spec in Hs as (h & Hh & Heq).
    exists handle, h. repeat split; auto. intros ->. discriminate.
  - intros exclude handle h He Hl Hne Hh Heq.
    destruct exclude as [|x exclude]; [destruct Hh|].
    specialize (Hexc _ He ltac:(discriminate)).
    rewrite Hl in Hexc. apply orb_true_iff in Hexc as [Hexc|Hexc].
    + destruct handle; [congruence|discriminate].
    + apply negb_true_iff in Hexc.
      assert (Hs : some_handle toLowerCase (x :: exclude) handle = true)
        by (apply some_handle_spec; eauto).
      congruence.
  - intros include Hi Hne.
    destruct (Hinc include Hi Hne) as (handle & h & -> & Hne' & Hh & Heq).
    apply andb_true_iff. split.
    + destruct handle; [congruence|reflexivity].
    + apply some_handle_spec. eauto.
  - intros exclude He Hne.
    destruct (lower_handle toLowerCase group) as [handle|] eqn:Hl;
      [|reflexivity].
    destruct handle as [|c handle]; [reflexivity|]. simpl.
    apply negb_true_iff.
    destruct (some_handle toLowerCase exclude (String c handle)) eqn:Hs;
      [|reflexivity].
    apply some_handle_spec in Hs as (h & Hh & Heq).
    exfalso.
    apply (Hexc exclude (String c handle) h He eq_refl ltac:(discriminate)
                Hh Heq).
Qed.

(** X20.  The two group filters agree unless both lists are given.
    Every group that [applyGroupFilters] keeps is one that
    [shouldProcessGroup] accepts, and when the include list or the exclude
    list is absent or empty the bulk filter keeps exactly the groups the
    single test accepts.  With both lists given the single test reads the
    include list only, and the bulk filter applies the exclude list as
    well: a group on both lists is accepted by the one and dropped by the
    other. *)
Theorem group_filters_agree (groups : list TelegramGroup)
    (config : ConfigurationFile) :
  (forall group, In group (applyGroupFilters toLowerCase groups config) ->
                 shouldProcessGroup toLowerCase group config = true)
  /\ (~ (listed (groups_field gf_include config)
         /\ listed (groups_field gf_exclude config)) ->
      applyGroupFilters toLowerCase groups config
      = List.filter (fun g => shouldProcessGroup toLowerCase g config) groups)
  /\ (forall include exclude group,
        groups_field gf_include config = Some include -> include <> [] ->
        groups_field gf_exclude config = Some exclude -> exclude <> [] ->
        In group groups ->
        in_include toLowerCase include group = true ->
        in_include toLowerCase exclude group = true ->
        shouldProcessGroup toLowerCase group config = true
        /\ ~ In group (applyGroupFilters toLowerCase groups config)).
Proof.
  rewrite applyGroupFilters_filter. unfold shouldProcessGroup. cbv zeta.
  split; [|split].
  - intros group Hin. apply filter_In in Hin as [_ H].
    apply andb_true_iff in H as [Hi He].
    destruct (groups_field gf_include config) as [[|x l]|]; simpl in *;
      assumption.
  - intros Hnot. apply filter_ext. intros g.
    destruct (classic_listed (groups_field gf_include config)) as [Hi|Hi].
    + assert (He : ~ listed (groups_field gf_exclude config)) by tauto.
      rewrite (decide_when_listed_unlisted _ _ true He), andb_true_r.
      destruct Hi as (l & Hl & Hne).
      rewrite !(decide_when_listed_listed _ _ _ l Hl Hne). reflexivity.
    + rewrite !(decide_when_listed_unlisted _ _ _ Hi). reflexivity.
  - intros include exclude group Hi Hine He Hene Hin Hpass Hboth.
    rewrite !(decide_when_listed_listed _ _ _ include Hi Hine).
    split; [exact Hpass|].
    rewrite filter_In, (decide_when_listed_listed _ _ _ exclude He Hene).
    intros [_ H]. apply andb_true_iff in H as [_ H].
    unfold in_include, not_in_exclude in *.
    destruct (lower_handle toLowerCase group) as [handle|]; [|discriminate].
    apply andb_true_iff in Hboth as [Ht Hs]. rewrite Ht, Hs in H.
    discriminate.
Qed.

End FilterProperties.

Lemma applyGroupFilters_keeps_witness :
  exists handle h,
    lower_handle lower_case group_books = Some handle
    /\ handle <> "" /\ In h ["books"; "spam"] /\ lower_case h = handle.
Proof.
  destruct (applyGroupFilters_keeps lower_case scanned_groups both_lists
              group_books) as [Hkeeps _].
  destruct (proj1 Hkeeps) as (_ & Hinclude & _).
  - vm_compute. left. reflexivity.
  - apply (Hinclude ["books"; "spam"]); [reflexivity|discriminate].
Defined.

Lemma group_filters_agree_witness :
  shouldProcessGroup lower_case group_spam both_lists = true
  /\ ~ In group_spam (applyGroupFilters lower_case scanned_groups both_lists).
Proof.
  destruct (group_filters_agree lower_case scanned_groups both_lists)
    as (_ & _ & Hboth).
  apply (Hboth ["books"; "spam"] ["spam"] group_spam);
    try reflexivity; try discriminate.
  right. left. reflexivity.
Defined.

Section FileFilterProperties.
Variable minimatch : string -> string -> bool.

Lemma some_pattern_spec (patterns : list string) (file : FileEntry) :
  some_pattern minimatch patterns file = true
  <-> exists pattern, In pattern patterns
                      /\ minimatch (f_name file) pattern = true.
Proof. unfold some_pattern. apply existsb_exists. Qed.

Lemma applyFileFilters_filter (files : list FileEntry)
    (config : ConfigurationFile) :
  applyFileFilters minimatch files config
  = List.filter
      (fun f =>
         decide_when_listed (files_field ff_include config)
           (fun l => some_pattern minimatch l f) true
         && decide_when_listed (files_field ff_exclude config)
              (fun l => no_pattern minimatch l f) true)
      files.
Proof.
  unfold applyFileFilters. cbv zeta.
  rewrite !filter_when_listed_filter, filter_filter. reflexivity.
Qed.

(** X21.  Which files [applyFileFilters] keeps.  A scanned file is kept
    when its name matches a pattern of the include list, if that list is
    given and not empty, and matches no pattern of the exclude list.
    Nothing else is read: neither the size limits of the configuration nor
    the size or the status of the file play a part.  The files kept come
    in scan order, each is one [shouldProcessFile] accepts, and the two
    filters agree unless both lists are given. *)
Theorem applyFileFilters_keeps (files : list FileEntry)
    (config : ConfigurationFile) :
  (forall file,
     In file (applyFileFilters minimatch files config)
     <-> In file files
         /\ (forall include,
               files_field ff_include config = Some include ->
               include <> [] ->
               exists pattern, In pattern include
                               /\ minimatch (f_name file) pattern = true)
         /\ (forall exclude pattern,
               files_field ff_exclude config = Some exclude ->
               In pattern exclude ->
               minimatch (f_name file) pattern = false))
  /\ applyFileFilters minimatch files config `sublist_of` files
  /\ (forall file, In file (applyFileFilters minimatch files config) ->
                   shouldProcessFile minimatch file config = true)
  /\ (~ (listed (files_field ff_include config)
         /\ listed (files_field ff_exclude config)) ->
      applyFileFilters minimatch files config
      = List.filter (fun f => shouldProcessFile minimatch f config) files).
Proof.
  rewrite applyFileFilters_filter. unfold shouldProcessFile. cbv zeta.
  split; [|split; [apply list_filter_sublist|split]].
  - intros file.
    rewrite filter_In, andb_true_iff, !decide_when_listed_true.
    unfold no_pattern.
    split; intros (Hin & Hinc & Hexc); (split; [exact Hin|]); split.
    + intros include Hi Hne. apply some_pattern_spec. eauto.
    + intros exclude pattern He Hp.
      destruct exclude as [|x exclude]; [destruct Hp|].
      specialize (Hexc _ He ltac:(discriminate)).
      apply negb_true_iff in Hexc.
      destruct (minimatch (f_name file) pattern) eqn:E; [|reflexivity].
      assert (Hs : some_pattern minimatch (x :: exclude) file = true)
        by (apply some_pattern_spec; eauto).
      congruence.
    + intros include Hi Hne. apply some_pattern_spec. eauto.
    + intros exclude He Hne. apply negb_true_iff.
      destruct (some_pattern minimatch exclude file) eqn:Hs; [|reflexivity].
      apply some_pattern_spec in Hs as (pattern & Hp & Hm).
      rewrite (Hexc exclude pattern He Hp) in Hm. discriminate.
  - intros file Hin. apply filter_In in Hin as [_ H].
    apply andb_true_iff in H as [Hi He].
    destruct (files_field ff_include config) as [[|x l]|]; simpl in *;
      assumption.
  - intros Hnot. apply filter_ext. intros f.
    destruct (classic_listed (files_field ff_include config)) as [Hi|Hi].
    + assert (He : ~ listed (files_field ff_exclude config)) by tauto.
      rewrite (decide_when_listed_unlisted _ _ true He), andb_true_r.
      destruct Hi as (l & Hl & Hne).
      rewrite !(decide_when_listed_listed _ _ _ l Hl Hne). reflexivity.
    + rewrite !(decide_when_listed_unlisted _ _ _ Hi). reflexivity.
Qed.

End FileFilterProperties.

Lemma applyFileFilters_keeps_witness :
  applyFileFilters star_match scanned_files both_lists
  = [incoming_g1_10; job_with_blank]
  /\ exists pattern, In pattern ["*.pdf"; "*.txt"]
       /\ star_match (f_name incoming_g1_10) pattern = true.
Proof.
  split; [reflexivity|].
  destruct (applyFileFilters_keeps star_match scanned_files both_lists)
    as (Hkeeps & _).
  destruct (proj1 (Hkeeps incoming_g1_10)) as (_ & Hinclude & _).
  - vm_compute. left. reflexivity.
  - apply (Hinclude ["*.pdf"; "*.txt"]); [reflexivity|discriminate].
Defined.

(** ** File extensions *)

Lemma every_char_app (p : ascii -> bool) (a b : string) :
  every_char p (a +:+ b) = every_char p a && every_char p b.
Proof.
  induction a as [|c a IH]; [reflexivity|].
  change (String c a +:+ b) with (String c (a +:+ b)).
  cbn [every_char]. rewrite IH, andb_assoc. reflexivity.
Qed.

Lemma dot_free_tail_spec (tail : string) :
  dot_free_tail tail = true
  <-> tail <> "" /\ forall c, In c (list_ascii_of_string tail) -> c <> "."%char.
Proof.
  unfold dot_free_tail. rewrite andb_true_iff, every_char_iff. split.
  - intros [Ht Hc]. split; [intros ->; discriminate|].
    intros c Hin ->. specialize (Hc _ Hin). discriminate.
  - intros [Hne Hc]. split; [destruct tail; [congruence|reflexivity]|].
    intros c Hin. unfold not_dot. apply negb_true_iff.
    apply Ascii.eqb_neq. apply Hc. exact Hin.
Qed.

Lemma dotted_is_not_dot_free (stem tail : string) :
  dot_free_tail (stem +:+ "." +:+ tail) = false.
Proof.
  unfold dot_free_tail. rewrite every_char_app.
  change ("." +:+ tail) with (String "." tail). cbn [every_char].
  unfold not_dot at 2. rewrite Ascii.eqb_refl. cbn [negb andb].
  rewrite andb_false_r, andb_false_r. reflexivity.
Qed.

(** X22.  [getFileExtension] returns the text from the last dot on, when
    that dot is followed by at least one character: the result [ext] is a
    suffix of the name, starts with a dot, and has no other dot.  A name
    without a dot, or one that ends in a dot, has no extension; a name
    that is only a dot followed by letters (a dot-file) is its own
    extension. *)
Theorem getFileExtension_spec (filename : string) :
  (forall ext,
     getFileExtension filename = Some ext
     <-> exists stem tail,
           filename = stem +:+ ext /\ ext = "." +:+ tail /\ tail <> ""
           /\ forall c, In c (list_ascii_of_string tail) -> c <> "."%char)
  /\ (every_char not_dot filename = true -> getFileExtension filename = None)
  /\ (forall stem, getFileExtension (stem +:+ ".") = None)
  /\ (forall tail, dot_free_tail tail = true ->
        getFileExtension ("." +:+ tail) = Some ("." +:+ tail)).
Proof.
  split; [|split; [|split]].
  - intros ext. split.
    + induction filename as [|c rest IH]; cbn [getFileExtension];
        [discriminate|].
      destruct (Ascii.eqb c "." && dot_free_tail rest)%bool eqn:E.
      * intros [= <-]. apply andb_true_iff in E as [Hc Hrest].
        apply Ascii.eqb_eq in Hc. subst c.
        apply dot_free_tail_spec in Hrest as [Hne Hdots].
        exists "", rest. repeat split; auto.
      * intros H. destruct (IH H) as (stem & tail & -> & Hext & Hne & Hdots).
        exists (String c stem), tail. repeat split; auto.
    + intros (stem & tail & -> & -> & Hne & Hdots).
      assert (Htail : dot_free_tail tail = true)
        by (apply dot_free_tail_spec; auto).
      induction stem as [|c stem IH].
      * change ("" +:+ "." +:+ tail) with (String "." tail).
        cbn [getFileExtension]. rewrite Ascii.eqb_refl, Htail. reflexivity.
      * change (String c stem +:+ "." +:+ tail)
          with (String c (stem +:+ "." +:+ tail)).
        cbn [getFileExtension].
        rewrite dotted_is_not_dot_free, andb_false_r. exact IH.
  - induction filename as [|c rest IH]; cbn [getFileExtension every_char];
      [reflexivity|].
    intros H. apply andb_true_iff in H as [Hc Hrest].
    unfold not_dot in Hc. apply negb_true_iff in Hc. rewrite Hc.
    cbn [andb]. exact (IH Hrest).
  - intros stem. induction stem as [|c stem IH]; [reflexivity|].
    change (String c stem +:+ ".") with (String c (stem +:+ ".")).
    cbn [getFileExtension].
    replace (dot_free_tail (stem +:+ ".")) with false.
    + rewrite andb_false_r. exact IH.
    + symmetry. unfold dot_free_tail. rewrite every_char_app.
      cbn [every_char]. unfold not_dot at 2. rewrite Ascii.eqb_refl.
      cbn [negb andb]. rewrite andb_false_r, andb_false_r. reflexivity.
  - intros tail Htail. change ("." +:+ tail) with (String "." tail).
    cbn [getFileExtension]. rewrite Ascii.eqb_refl, Htail. reflexivity.
Qed.

Lemma getFileExtension_spec_witness :
  getFileExtension "archive.tar.gz" = Some ".gz"
  /\ getFileExtension ".bashrc" = Some ".bashrc"
  /\ getFileExtension "README" = None.
Proof.
  destruct (getFileExtension_spec "archive.tar.gz") as [Hext _].
  destruct (getFileExtension_spec ".bashrc") as (_ & _ & _ & Hdotfile).
  destruct (getFileExtension_spec "README") as (_ & Hnone & _).
  split; [|split].
  - apply Hext. exists "archive.tar", "gz".
    repeat split; try reflexivity; try discriminate.
    intros c [<-|[<-|[]]]; discriminate.
  - apply (Hdotfile "bashrc"). reflexivity.
  - apply Hnone. reflexivity.
Defined.

(** ** Discovery *)

Lemma upsertGroup_files (d : DataFile) (group : TelegramGroup) :
  d_files (upsertGroup d group) = d_files d
  /\ d_statistics (upsertGroup d group) = d_statistics d.
Proof. rewrite upsertGroup_eq. split; reflexivity. Qed.

Lemma upsert_groups_files (d : DataFile) (groups : list TelegramGroup) :
  d_files (upsert_groups d groups) = d_files d
  /\ d_statistics (upsert_groups d groups) = d_statistics d.
Proof.
  revert d. induction groups as [|g rest IH]; intros d; [split; reflexivity|].
  change (upsert_groups d (g :: rest))
    with (upsert_groups (upsertGroup d g) rest).
  destruct (IH (upsertGroup d g)) as [-> ->]. apply upsertGroup_files.
Qed.

Lemma upsert_files_statistics (d : DataFile) (files : list FileEntry) :
  d_statistics (upsert_files d files) = d_statistics d.
Proof.
  revert d. induction files as [|f rest IH]; intros d; [reflexivity|].
  rewrite upsert_files_step, IH, upsertFile_eq. reflexivity.
Qed.

Lemma upsert_at_first_elem (files : list FileEntry) (file r : FileEntry) :
  r ∈ upsert_at_first files file ->
  r ∈ files \/ r = file
  \/ exists prior, prior ∈ files /\ f_id prior = f_id file
                   /\ r = merge_file file prior.
Proof.
  induction files as [|f rest IH]; cbn [upsert_at_first].
  - intros H. apply list_elem_of_singleton in H. auto.
  - destruct (String.eqb_spec (f_id f) (f_id file)) as [E|E].
    + intros H. apply elem_of_cons in H as [->|H].
      * right. right. exists f. split; [left|auto].
      * left. right. exact H.
    + intros H. apply elem_of_cons in H as [->|H]; [left; left|].
      destruct (IH H) as [H'|[H'|(prior & Hp & Hid & Hr)]].
      * left. right. exact H'.
      * auto.
      * right. right. exists prior. split; [right; exact Hp|auto].
Qed.

Lemma upsert_files_state_as_scanned (d : DataFile)
    (seen incoming : list FileEntry) :
  state_as_scanned seen (d_files d) ->
  state_as_scanned (seen ++ incoming) (d_files (upsert_files d incoming)).
Proof.
  revert d seen. induction incoming as [|file rest IH]; intros d seen Hseen.
  - rewrite app_nil_r. exact Hseen.
  - rewrite upsert_files_step.
    replace (seen ++ file :: rest)%list with ((seen ++ [file]) ++ rest)%list
      by (rewrite <- app_assoc; reflexivity).
    apply IH. intros r Hr. rewrite upsertFile_files in Hr.
    apply upsert_at_first_elem in Hr
      as [Hr|[->|(prior & Hp & Hid & ->)]].
    + destruct (Hseen r Hr) as (f & Hf & Hfid & Hstate).
      exists f. split; [apply elem_of_app; left; exact Hf|auto].
    + exists file. split; [apply elem_of_app; right; left|].
      unfold download_state_from. tauto.
    + destruct (Hseen prior Hp) as (f & Hf & Hfid & Hstate).
      exists f. split; [apply elem_of_app; left; exact Hf|].
      split; [simpl; congruence|exact Hstate].
Qed.

Section DiscoveryProperties.
Variable toLowerCase : string -> string.
Variable minimatch : string -> string -> bool.

(** The snapshot a discovery that returns has built and saved. *)
Lemma discoverFiles_returned (env : DiscoveryEnv) (fs fs' : FS)
    (options : DiscoveryOptions) (result : DiscoveryResult) :
  discoverFiles toLowerCase minimatch env fs options = (fs', Returned result) ->
  exists config start allGroups,
    loaded_config env = Returned config
    /\ (if flag_or (o_update options) false
        then loadDataFile (clock env) fs (dataFilePath_of options)
        else Returned (createDataFile (clock env))) = Returned start
    /\ scanned_dialogs env = Returned allGroups
    /\ dr_groups result = applyGroupFilters toLowerCase allGroups config
    /\ dr_files result
       = (if flag_or (o_groupsOnly options) false then []
          else applyFileFilters minimatch
                 (scan_all env (dr_groups result)) config)
    /\ dr_dataFile result
       = upsert_files (upsert_groups start (dr_groups result))
                      (dr_files result)
    /\ saveDataFile (save_env env) fs (dataFilePath_of options)
         (dr_dataFile result)
         (flag_or (o_groupsOnly options) false
          || flag_or (o_update options) false)
       = (fs', Returned tt).
Proof.
  unfold discoverFiles. cbv zeta.
  destruct (loaded_config env) as [config|]; [|discriminate].
  destruct (if flag_or (o_update options) false then _ else _)
    as [start|]; [|discriminate].
  destruct (scanned_dialogs env) as [allGroups|]; [|discriminate].
  destruct (flag_or (o_groupsOnly options) false).
  - destruct (saveDataFile _ _ _ _ _) as [fs1 [[]|e]] eqn:Hsave;
      intros [= <- <-].
    exists config, start, allGroups. simpl. repeat split; auto.
  - destruct (saveDataFile _ _ _ _ _) as [fs1 [[]|e]] eqn:Hsave;
      intros [= <- <-].
    exists config, start, allGroups. simpl. repeat split; auto.
Qed.

(** X23.  A discovery in update mode keeps the progress made.  When it
    returns, every job record that the stored snapshot held is still
    there, under its id and in its place, with its downloadStatus,
    downloadedAt, downloadPath and errorMessage, whatever the scan found;
    unique ids stay unique; the snapshot is on disk with recomputed
    statistics, while the snapshot handed back still carries the
    statistics that were loaded.  With groupsOnly the job records are not
    touched at all. *)
Theorem discovery_update_keeps_progress (env : DiscoveryEnv) (fs fs' : FS)
    (options : DiscoveryOptions) (result : DiscoveryResult)
    (stored : DataFile) :
  flag_or (o_update options) false = true ->
  loadDataFile (clock env) fs (dataFilePath_of options) = Returned stored ->
  discoverFiles toLowerCase minimatch env fs options
    = (fs', Returned result) ->
  (forall id r,
     record_at (d_files stored) id = Some r ->
     exists r',
       record_at (d_files (dr_dataFile result)) id = Some r'
       /\ download_state_from r' r)
  /\ file_ids stored `prefix_of` file_ids (dr_dataFile result)
  /\ (NoDup (file_ids stored) -> NoDup (file_ids (dr_dataFile result)))
  /\ fs' !! dataFilePath_of options
     = Some (Json (updateStatistics (dr_dataFile result)
                     (update_stamp (save_env env))))
  /\ d_statistics (dr_dataFile result) = d_statistics stored
  /\ (flag_or (o_groupsOnly options) false = true ->
      d_files (dr_dataFile result) = d_files stored).
Proof.
  intros Hupdate Hload Hrun.
  destruct (discoverFiles_returned _ _ _ _ _ Hrun)
    as (config & start & allGroups & _ & Hstart & _ & _ & Hfiles & Hdata
        & Hsave).
  rewrite Hupdate, Hload in Hstart. injection Hstart as <-.
  set (withGroups := upsert_groups stored (dr_groups result)) in *.
  destruct (upsert_groups_files stored (dr_groups result)) as [Hgf Hgs].
  fold withGroups in Hgf, Hgs.
  destruct (upsert_files_ids withGroups (dr_files result))
    as (Hprefix & _ & _ & Hnd).
  unfold file_ids in *. rewrite Hdata. rewrite Hgf in Hprefix, Hnd.
  split; [|split; [exact Hprefix|split; [exact Hnd|split; [|split]]]].
  - intros id r Hr. rewrite <- Hgf in Hr.
    destruct (upsert_files_keeps_state withGroups (dr_files result) id r Hr)
      as (r' & Hr' & Hstate & _).
    eauto.
  - rewrite <- Hdata. eapply saveDataFile_written. exact Hsave.
  - rewrite upsert_files_statistics. exact Hgs.
  - intros Hgroups. rewrite Hgroups in Hfiles. rewrite Hfiles. exact Hgf.
Qed.

(** X24.  A discovery without update starts over.  What it returns does
    not depend on what the disk held: the snapshot is built from an empty
    one, so every job record has the download state its scanned entry came
    with, ids are unique, and the statistics handed back are the zeros of
    [createDataFile] whatever was found.  The data file is overwritten
    with that snapshot and, in a full discovery, no backup of the file it
    replaces is made. *)
Theorem discovery_without_update_starts_over (env : DiscoveryEnv)
    (fs fs' : FS) (options : DiscoveryOptions) (result : DiscoveryResult) :
  flag_or (o_update options) false = false ->
  discoverFiles toLowerCase minimatch env fs options
    = (fs', Returned result) ->
  (forall other other' result',
     discoverFiles toLowerCase minimatch env other options
       = (other', Returned result') ->
     result' = result)
  /\ state_as_scanned (dr_files result) (d_files (dr_dataFile result))
  /\ NoDup (file_ids (dr_dataFile result))
  /\ d_statistics (dr_dataFile result)
     = d_statistics (createDataFile (clock env))
  /\ fs' !! dataFilePath_of options
     = Some (Json (updateStatistics (dr_dataFile result)
                     (update_stamp (save_env env))))
  /\ (flag_or (o_groupsOnly options) false = false ->
      fs' !! backup_path_of (save_env env) (dataFilePath_of options)
      = fs !! backup_path_of (save_env env) (dataFilePath_of options)).
Proof.
  intros Hupdate Hrun.
  destruct (discoverFiles_returned _ _ _ _ _ Hrun)
    as (config & start & allGroups & Hconfig & Hstart & Hdialogs & Hgroups
        & Hfiles & Hdata & Hsave).
  rewrite Hupdate in Hstart. injection Hstart as <-.
  assert (Hsame : forall other other' result',
            discoverFiles toLowerCase minimatch env other options
              = (other', Returned result') ->
            result' = result).
  { intros other other' result' Hother.
    destruct (discoverFiles_returned _ _ _ _ _ Hother)
      as (config' & start' & allGroups' & Hconfig' & Hstart' & Hdialogs'
          & Hgroups' & Hfiles' & Hdata' & _).
    rewrite Hupdate in Hstart'. injection Hstart' as <-.
    rewrite Hconfig in Hconfig'. injection Hconfig' as <-.
    rewrite Hdialogs in Hdialogs'. injection Hdialogs' as <-.
    destruct result as [g f d], result' as [g' f' d']. simpl in *.
    subst g g'. subst f f'. subst d d'. reflexivity. }
  set (withGroups := upsert_groups (createDataFile (clock env))
                                   (dr_groups result)) in *.
  destruct (upsert_groups_files (createDataFile (clock env))
              (dr_groups result)) as [Hgf Hgs].
  fold withGroups in Hgf, Hgs.
  split; [exact Hsame|split; [|split; [|split; [|split]]]].
  - rewrite Hdata.
    apply (upsert_files_state_as_scanned withGroups [] (dr_files result)).
    rewrite Hgf. intros r Hr. inversion Hr.
  - rewrite Hdata.
    destruct (upsert_files_ids withGroups (dr_files result))
      as (_ & _ & _ & Hnd).
    apply Hnd. unfold file_ids. rewrite Hgf. constructor.
  - rewrite Hdata, upsert_files_statistics. exact Hgs.
  - eapply saveDataFile_written. exact Hsave.
  - intros Hgroups'. rewrite Hgroups', Hupdate in Hsave. simpl in Hsave.
    destruct (saveDataFile_returned_disk _ _ _ _ _ _ Hsave)
      as (_ & _ & _ & _ & Hnone).
    apply Hnone. reflexivity.
Qed.

(** X25.  A discovery fails only where it cannot go on.  When the
    configuration loads, the dialogs are scanned, the stored snapshot loads
    (in update mode) and the save meets no I/O fault, [discoverFiles]
    returns, however many of the per-group file scans throw: a group whose
    scan throws contributes no files, and when every scan throws the result
    lists the groups and no files. *)
Theorem discovery_survives_failing_scans (env : DiscoveryEnv) (fs : FS)
    (options : DiscoveryOptions) (config : ConfigurationFile)
    (allGroups : list TelegramGroup) :
  loaded_config env = Returned config ->
  scanned_dialogs env = Returned allGroups ->
  fault (save_env env) = NoFault ->
  (flag_or (o_update options) false = true ->
   exists stored,
     loadDataFile (clock env) fs (dataFilePath_of options)
     = Returned stored) ->
  exists fs' result,
    discoverFiles toLowerCase minimatch env fs options
      = (fs', Returned result)
    /\ dr_groups result = applyGroupFilters toLowerCase allGroups config
    /\ (forall f, In f (dr_files result) ->
          exists group files,
            In group (dr_groups result)
            /\ scanned_in env group = Returned files /\ In f files)
    /\ ((forall group, exists e, scanned_in env group = Thrown e) ->
        dr_files result = []).
Proof.
  intros Hconfig Hdialogs Hfault Hload.
  assert (Hscan : forall groups f,
            In f (scan_all env groups) ->
            exists group files,
              In group groups /\ scanned_in env group = Returned files
              /\ In f files).
  { intros groups f Hf. unfold scan_all in Hf.
    apply in_flat_map in Hf as (group & Hg & Hf).
    destruct (scanned_in env group) as [files|] eqn:E; [|destruct Hf].
    eauto. }
  assert (Hnone : forall groups,
            (forall group, exists e, scanned_in env group = Thrown e) ->
            scan_all env groups = []).
  { intros groups Hall. unfold scan_all.
    induction groups as [|g rest IH]; [reflexivity|]. simpl.
    destruct (Hall g) as [e ->]. exact IH. }
  unfold discoverFiles. cbv zeta. rewrite Hconfig, Hdialogs.
  destruct (flag_or (o_update options) false) eqn:Hupdate.
  - destruct (Hload eq_refl) as [stored ->].
    destruct (flag_or (o_groupsOnly options) false).
    + pose proof (saveDataFile_unfaulted (save_env env) fs
                    (dataFilePath_of options)
                    (upsert_groups stored
                       (applyGroupFilters toLowerCase allGroups config))
                    true Hfault) as Hsave.
      destruct (saveDataFile _ _ _ _ _) as [fs1 out]. simpl in Hsave.
      subst out. eexists _, _. split; [reflexivity|]. simpl.
      split; [reflexivity|]. split; [intros f []|reflexivity].
    + pose proof (saveDataFile_unfaulted (save_env env) fs
                    (dataFilePath_of options)
                    (upsert_files
                       (upsert_groups stored
                          (applyGroupFilters toLowerCase allGroups config))
                       (applyFileFilters minimatch
                          (scan_all env
                             (applyGroupFilters toLowerCase allGroups config))
                          config))
                    true Hfault) as Hsave.
      destruct (saveDataFile _ _ _ _ _) as [fs1 out]. simpl in Hsave.
      subst out. eexists _, _. split; [reflexivity|]. simpl.
      split; [reflexivity|]. split.
      * intros f Hf. apply Hscan.
        rewrite applyFileFilters_filter in Hf.
        apply filter_In in Hf as [Hf _]. exact Hf.
      * intros Hall. rewrite (Hnone _ Hall), applyFileFilters_filter.
        reflexivity.
  - destruct (flag_or (o_groupsOnly options) false).
    + pose proof (saveDataFile_unfaulted (save_env env) fs
                    (dataFilePath_of options)
                    (upsert_groups (createDataFile (clock env))
                       (applyGroupFilters toLowerCase allGroups config))
                    true Hfault) as Hsave.
      destruct (saveDataFile _ _ _ _ _) as [fs1 out]. simpl in Hsave.
      subst out. eexists _, _. split; [reflexivity|]. simpl.
      split; [reflexivity|]. split; [intros f []|reflexivity].
    + pose proof (saveDataFile_unfaulted (save_env env) fs
                    (dataFilePath_of options)
                    (upsert_files
                       (upsert_groups (createDataFile (clock env))
                          (applyGroupFilters toLowerCase allGroups config))
                       (applyFileFilters minimatch
                          (scan_all env
                             (applyGroupFilters toLowerCase allGroups config))
                          config))
                    false Hfault) as Hsave.
      destruct (saveDataFile _ _ _ _ _) as [fs1 out]. simpl in Hsave.
      subst out. eexists _, _. split; [reflexivity|]. simpl.
      split; [reflexivity|]. split.
      * intros f Hf. apply Hscan.
        rewrite applyFileFilters_filter in Hf.
        apply filter_In in Hf as [Hf _]. exact Hf.
      * intros Hall. rewrite (Hnone _ Hall), applyFileFilters_filter.
        reflexivity.
Qed.

End DiscoveryProperties.

Lemma discovery_update_keeps_progress_witness :
  match discoverFiles lower_case star_match sample_discovery disk_with_backup
          update_run with
  | (_, Returned result) =>
      exists r',
        record_at (d_files (dr_dataFile result)) "g1:10" = Some r'
        /\ download_state_from r' stored_g1_10
  | (_, Thrown _) => False
  end.
Proof.
  destruct (discoverFiles lower_case star_match sample_discovery
              disk_with_backup update_run) as [fs' [result|e]] eqn:Hrun.
  - destruct (discovery_update_keeps_progress lower_case star_match
                sample_discovery disk_with_backup fs' update_run result
                (snapshot_of [stored_g1_10]) eq_refl eq_refl Hrun)
      as (Hkept & _).
    apply (Hkept "g1:10" stored_g1_10). reflexivity.
  - assert (H : match snd (discoverFiles lower_case star_match
                             sample_discovery disk_with_backup update_run)
                with
                | Returned _ => true
                | Thrown _ => false
                end = true) by (vm_compute; reflexivity).
    rewrite Hrun in H. discriminate.
Defined.

Lemma discovery_without_update_starts_over_witness :
  match discoverFiles lower_case star_match sample_discovery disk_with_backup
          fresh_run with
  | (fs', Returned result) =>
      d_statistics (dr_dataFile result)
      = d_statistics (createDataFile (clock sample_discovery))
      /\ fs' !! backup_path_of later_env ("data", "data.json") = None
  | (_, Thrown _) => False
  end.
Proof.
  destruct (discoverFiles lower_case star_match sample_discovery
              disk_with_backup fresh_run) as [fs' [result|e]] eqn:Hrun.
  - destruct (discovery_without_update_starts_over lower_case star_match
                sample_discovery disk_with_backup fs' fresh_run result
                eq_refl Hrun) as (_ & _ & _ & Hstats & _ & Hbackup).
    split; [exact Hstats|].
    etransitivity; [exact (Hbackup eq_refl)|reflexivity].
  - assert (H : match snd (discoverFiles lower_case star_match
                             sample_discovery disk_with_backup fresh_run)
                with
                | Returned _ => true
                | Thrown _ => false
                end = true) by (vm_compute; reflexivity).
    rewrite Hrun in H. discriminate.
Defined.

Lemma discovery_survives_failing_scans_witness :
  exists fs' result,
    discoverFiles lower_case star_match sample_discovery disk_with_backup
                  update_run = (fs', Returned result)
    /\ dr_groups result = [group_books; group_spam].
Proof.
  destruct (discovery_survives_failing_scans lower_case star_match
              sample_discovery disk_with_backup update_run
              (mkConfigurationFile None None (mkConfig None) None)
              [group_books; group_spam] eq_refl eq_refl eq_refl)
    as (fs' & result & Hrun & Hgroups & _).
  - intros _. exists (snapshot_of [stored_g1_10]). reflexivity.
  - exists fs', result. split; [exact Hrun|exact Hgroups].
Defined.

(** The record of ["g1:10"] before and after the two kinds of discovery
    over the same disk: completed stays completed in update mode, and is
    pending again after a discovery without update. *)
Example discovery_modes_compared :
  status_at
    (d_files match snd (discoverFiles lower_case star_match sample_discovery
                          disk_with_backup update_run) with
             | Returned result => dr_dataFile result
             | Thrown _ => createDataFile ""
             end) "g1:10" = Some completed
  /\ status_at
       (d_files match snd (discoverFiles lower_case star_match
                             sample_discovery disk_with_backup fresh_run) with
                | Returned result => dr_dataFile result
                | Thrown _ => createDataFile ""
                end) "g1:10" = Some pending.
Proof. split; vm_compute; reflexivity. Qed.

(** ** The session file *)

Section SessionStoreProperties.
Context {C : Crypto} {L : CryptoLaws C}.
Variable machineId : string.
Variable session_stringify : SessionFile -> string.
Variable session_parse : string -> outcome SessionFile.
Variable snapshot_text : DataFile -> string.

(** X26.  A session that was saved loads again.  After [saveSession]
    under any passphrase and either mode, without a write fault,
    [loadSession] with the same mode and passphrase returns the session
    with its lastUsedAt set to the time of the load, and writes it back in
    that form; the session file exists in between, and no other path is
    touched by either call.  This needs only that the JSON text of the
    session parses back to it. *)
Theorem session_round_trip (saving loading : SessionEnv) (fs : FS)
    (sessionPath : string) (session : SessionFile) (encrypted : bool)
    (password : option string) :
  let saved :=
    fst (saveSession machineId session_stringify saving fs sessionPath
           session encrypted password) in
  let refreshed := with_lastUsedAt session (used_at loading) in
  session_fault saving = None ->
  session_fault loading = None ->
  session_parse (session_stringify session) = Returned session ->
  sessionExists saved sessionPath = true
  /\ loadSession machineId session_stringify session_parse snapshot_text
       loading saved sessionPath encrypted password
     = (fst (saveSession machineId session_stringify loading saved
               sessionPath refreshed encrypted password),
        Returned (Some refreshed))
  /\ forall q, q <> session_file sessionPath ->
       fst (loadSession machineId session_stringify session_parse
              snapshot_text loading saved sessionPath encrypted password)
         !! q = fs !! q.
Proof.
  intros saved refreshed Hsaving Hloading Hparse.
  assert (Hsaved : saved
            = <[session_file sessionPath :=
                  Blob (if encrypted
                        then encrypt machineId (session_iv saving)
                               (session_stringify session) password
                        else session_stringify session)]> fs).
  { unfold saved, saveSession. rewrite Hsaving. reflexivity. }
  assert (Hexists : sessionExists saved sessionPath = true).
  { unfold sessionExists, fileExists. rewrite Hsaved, lookup_insert_eq.
    reflexivity. }
  assert (Hload : loadSession machineId session_stringify session_parse
                    snapshot_text loading saved sessionPath encrypted
                    password
                  = (fst (saveSession machineId session_stringify loading
                            saved sessionPath refreshed encrypted password),
                     Returned (Some refreshed))).
  { unfold loadSession. fold (sessionExists saved sessionPath).
    rewrite Hexists. cbn [negb]. unfold readFile.
    rewrite Hsaved at 1. rewrite lookup_insert_eq. cbn [and_then].
    destruct encrypted.
    - rewrite decrypt_encrypt. cbn [and_then]. rewrite Hparse.
      fold refreshed. unfold saveSession. rewrite Hloading. reflexivity.
    - rewrite Hparse. fold refreshed. unfold saveSession.
      rewrite Hloading. reflexivity. }
  split; [exact Hexists|]. split; [exact Hload|].
  intros q Hq. rewrite Hload. cbn [fst]. unfold saveSession.
  rewrite Hloading. cbn [fst].
  rewrite lookup_insert_ne by congruence.
  rewrite Hsaved. apply lookup_insert_ne. congruence.
Qed.

(** X27.  A deleted session is gone.  When [deleteSession] returns, the
    session file does not exist, no other path has changed, a load finds
    nothing and returns [null] without writing, and deleting again is a
    no-op that cannot fail.  It returns whenever the file was absent or
    the unlink meets no fault. *)
Theorem deleted_session_is_gone (env again : SessionEnv) (fs fs' : FS)
    (sessionPath : string) (encrypted : bool) (password : option string) :
  deleteSession env fs sessionPath = (fs', Returned tt) ->
  sessionExists fs' sessionPath = false
  /\ (forall q, q <> session_file sessionPath -> fs' !! q = fs !! q)
  /\ loadSession machineId session_stringify session_parse snapshot_text
       again fs' sessionPath encrypted password
     = (fs', Returned None)
  /\ deleteSession again fs' sessionPath = (fs', Returned tt)
  /\ (sessionExists fs sessionPath = false -> fs' = fs).
Proof.
  unfold deleteSession. fold (sessionExists fs sessionPath).
  intros Hdelete.
  assert (Hgone : sessionExists fs' sessionPath = false
                  /\ (forall q, q <> session_file sessionPath ->
                                fs' !! q = fs !! q)
                  /\ (sessionExists fs sessionPath = false -> fs' = fs)).
  { destruct (sessionExists fs sessionPath) eqn:E.
    - destruct (session_fault env); [discriminate|].
      injection Hdelete as <-. split; [|split].
      + unfold sessionExists, fileExists. rewrite lookup_delete_eq.
        reflexivity.
      + intros q Hq. apply lookup_delete_ne. congruence.
      + discriminate.
    - injection Hdelete as <-. auto. }
  destruct Hgone as (Hgone & Hothers & Hsame).
  split; [exact Hgone|]. split; [exact Hothers|]. split; [|split].
  - unfold loadSession. fold (sessionExists fs' sessionPath).
    rewrite Hgone. reflexivity.
  - fold (sessionExists fs' sessionPath). rewrite Hgone. reflexivity.
  - exact Hsame.
Qed.

End SessionStoreProperties.

Lemma session_round_trip_witness :
  snd (@loadSession symbolic_crypto "host-1" session_lines session_of_lines
         (fun _ => "")
         (quiet_session_env "iv-2" "2024-02-02T00:00:00.000Z")
         (fst (@saveSession symbolic_crypto "host-1" session_lines
                 (quiet_session_env "iv-1" "2024-01-01T00:00:00.000Z")
                 ∅ "data/session" sample_session true None))
         "data/session" true None)
  = Returned (Some (with_lastUsedAt sample_session
                      "2024-02-02T00:00:00.000Z")).
Proof.
  destruct (@session_round_trip symbolic_crypto symbolic_crypto_laws "host-1"
              session_lines session_of_lines (fun _ => "")
              (quiet_session_env "iv-1" "2024-01-01T00:00:00.000Z")
              (quiet_session_env "iv-2" "2024-02-02T00:00:00.000Z")
              ∅ "data/session" sample_session true None
              eq_refl eq_refl eq_refl) as (_ & Hload & _).
  rewrite Hload. reflexivity.
Defined.

Lemma deleted_session_is_gone_witness :
  let saved :=
    fst (@saveSession symbolic_crypto "host-1" session_lines
           (quiet_session_env "iv-1" "2024-01-01T00:00:00.000Z")
           ∅ "data/session" sample_session true None) in
  sessionExists saved "data/session" = true
  /\ sessionExists
       (fst (deleteSession (quiet_session_env "" "") saved "data/session"))
       "data/session" = false.
Proof.
  intros saved. split; [reflexivity|].
  destruct (deleteSession (quiet_session_env "" "") saved "data/session")
    as [fs' out] eqn:Hdelete.
  assert (Hout : out = Returned tt).
  { apply (f_equal snd) in Hdelete. change (snd (fs', out)) with out
      in Hdelete. rewrite <- Hdelete. reflexivity. }
  subst out.
  apply (@deleted_session_is_gone symbolic_crypto "host-1" session_lines
           session_of_lines (fun _ => "") (quiet_session_env "" "")
           (quiet_session_env "" "") saved fs' "data/session" true None
           Hdelete).
Defined.

(** ** What a finished run leaves *)

(** X28.  Every completed record has its download path.  If the records
    stored as completed have a non-empty downloadPath when a run starts (as
    they do after a discovery, where everything is pending), then so they
    do in every state of the run: the scheduler marks a job completed only
    with the path the transfer returned, and that path is never empty. *)
Theorem completed_records_have_a_path (opts : DownloadManagerOptions)
    (data : DataFile) (st : DownloadStats) (fs : FS)
    (files : list FileEntry) (schedule : list Event) (m : Manager) :
  completed_have_path (d_files data) ->
  run_events opts schedule (begin_run opts data st fs files) = Some m ->
  forall r, r ∈ d_files (dataFile m) ->
    f_downloadStatus r = completed ->
    exists path, f_downloadPath r = Some path /\ path <> "".
Proof.
  intros Hstart Hrun r Hr Hcompleted.
  assert (Hall : completed_have_path (d_files (dataFile m))).
  { eapply run_events_completed_path; [|exact Hrun].
    unfold begin_run. apply refill_completed_path. exact Hstart. }
  unfold completed_have_path in Hall. rewrite Forall_forall in Hall.
  specialize (Hall r Hr Hcompleted).
  destruct (f_downloadPath r) as [path|]; [|discriminate].
  exists path. split; [reflexivity|]. intros ->. discriminate.
Qed.

Lemma completed_records_have_a_path_witness :
  match run_events resume_options succeeding_schedule
          (begin_run resume_options interrupted_store constructor_stats ∅
             (getFilesToDownload resume_options interrupted_store)) with
  | Some m =>
      forall r, r ∈ d_files (dataFile m) ->
        f_downloadStatus r = completed ->
        exists path, f_downloadPath r = Some path /\ path <> ""
  | None => False
  end.
Proof.
  destruct (run_events resume_options succeeding_schedule _) as [m|] eqn:Hrun.
  - assert (Hstart : completed_have_path (d_files interrupted_store)).
    { unfold completed_have_path, interrupted_store, snapshot_of. simpl.
      repeat constructor; simpl; intros; try discriminate; reflexivity. }
    apply (completed_records_have_a_path _ _ _ _ _ _ _ Hstart Hrun).
  - assert (H : match run_events resume_options succeeding_schedule
                        (begin_run resume_options interrupted_store
                           constructor_stats ∅
                           (getFilesToDownload resume_options
                              interrupted_store)) with
                | Some _ => true
                | None => false
                end = true)
      by (vm_compute; reflexivity).
    rewrite Hrun in H. discriminate.
Defined.

Lemma filter_status_none (status : DownloadStatus) (files : list FileEntry) :
  (forall r, r ∈ files -> f_downloadStatus r <> status) ->
  filter_status status files = [].
Proof.
  unfold filter_status. induction files as [|f rest IH]; intros H;
    [reflexivity|].
  rewrite filter_cons_False by (apply H; left).
  apply IH. intros r Hr. apply H. right. exact Hr.
Qed.

Lemma pending_is_candidate (opts : DownloadManagerOptions) (data : DataFile)
    (r : FileEntry) :
  r ∈ d_files data -> f_downloadStatus r = pending ->
  r ∈ getFilesToDownload opts data.
Proof.
  intros Hr Hp. unfold getFilesToDownload, filter_status.
  destruct (resumeExisting opts) as [[|]|]; apply list_elem_of_filter; auto.
Qed.

(** X29.  A run that returns leaves nothing pending.  When [start()]
    returns its statistics for a snapshot with unique ids that had
    something to download, the data file holds a snapshot with the same
    jobs in which no job is pending: every candidate is completed or
    failed, the other records are as they were loaded, and the stored
    pendingFiles is 0. *)
Theorem finished_run_leaves_nothing_pending (opts : DownloadManagerOptions)
    (fs fs' : FS) (now : string) (schedule : list Event)
    (finalEnv : SaveEnv) (result : DownloadStats) (data : DataFile) :
  loadDataFile now fs (dataFilePath opts) = Returned data ->
  NoDup (file_ids data) ->
  getFilesToDownload opts data <> [] ->
  start opts fs now schedule finalEnv = Some (fs', Returned result) ->
  exists saved,
    fs' !! dataFilePath opts = Some (Json saved)
    /\ file_ids saved = file_ids data
    /\ filter_status pending (d_files saved) = []
    /\ pendingFiles (d_statistics saved) = 0%Z
    /\ (forall r, r ∈ d_files saved ->
          f_id r ∈ f_id <$> getFilesToDownload opts data ->
          f_downloadStatus r = completed \/ f_downloadStatus r = failed)
    /\ (forall r, r ∈ d_files saved ->
          f_id r ∉ f_id <$> getFilesToDownload opts data ->
          r ∈ d_files data).
Proof.
  intros Hload Hnd Hsome. unfold start. rewrite Hload.
  set (cands := getFilesToDownload opts data) in *.
  destruct cands as [|c rest] eqn:Hcands; [congruence|].
  rewrite <- Hcands. clear Hsome.
  destruct (run_events opts schedule _) as [m|] eqn:Hrun; [|discriminate].
  destruct (finished m) eqn:Hfinished; [|discriminate].
  destruct (saveDataFile finalEnv (disk m) (dataFilePath opts) (dataFile m)
              true) as [disk' [[]|e]] eqn:Hsave; intros [= <- _].
  apply saveDataFile_written in Hsave.
  pose proof (begin_run_tracked opts data
                (set_totals constructor_stats cands) fs Hnd) as Htracked0.
  fold cands in Htracked0. rewrite Hcands in Htracked0 at 2.
  rewrite <- Hcands in Htracked0.
  pose proof (run_events_tracked _ _ _ _ _ _ Htracked0 Hrun) as Htracked.
  pose proof (inv_ids _ _ _ _ _ Htracked) as Hids.
  assert (Hnd' : NoDup (f_id <$> d_files (dataFile m))).
  { rewrite Hids. exact Hnd. }
  assert (Hdone : forall r, r ∈ d_files (dataFile m) ->
            f_id r ∈ f_id <$> cands ->
            f_downloadStatus r = completed \/ f_downloadStatus r = failed).
  { intros r Hr Hc.
    eapply (finished_all_done (f_id <$> d_files data) cands m r); eauto. }
  assert (Hframe : forall r, r ∈ d_files (dataFile m) ->
            f_id r ∉ f_id <$> cands -> r ∈ d_files data).
  { intros r Hr Hc.
    assert (Hat : record_at (d_files (dataFile m)) (f_id r)
                  = record_at (d_files data) (f_id r)).
    { refine (run_updates
                (fun d => record_at (d_files d) (f_id r)
                          = record_at (d_files data) (f_id r))
                cands _ opts data _ fs schedule m eq_refl Hrun).
      intros d id' status path message now' Hin HP.
      rewrite record_at_update_other; [exact HP|].
      intros Heq. rewrite Heq in Hc. contradiction. }
    rewrite (unique_id_same_record _ _ Hnd' Hr) in Hat.
    symmetry in Hat. unfold record_at in Hat. apply find_some in Hat as [H _].
    apply list_elem_of_In. exact H. }
  assert (Hnone : forall r, r ∈ d_files (dataFile m) ->
            f_downloadStatus r <> pending).
  { intros r Hr Hp.
    destruct (decide (f_id r ∈ f_id <$> cands)) as [Hc|Hc].
    - destruct (Hdone r Hr Hc); congruence.
    - apply Hc. apply list_elem_of_fmap_2.
      apply pending_is_candidate; [apply Hframe; assumption|exact Hp]. }
  exists (updateStatistics (dataFile m) (update_stamp finalEnv)).
  split; [exact Hsave|]. simpl.
  rewrite (filter_status_none pending _ Hnone).
  split; [exact Hids|]. split; [reflexivity|]. split; [reflexivity|].
  split; [exact Hdone|exact Hframe].
Qed.

Lemma finished_run_leaves_nothing_pending_witness :
  match start resume_options
          (<[("data", "data.json") := Json interrupted_store]> ∅) "now"
          succeeding_schedule quiet_env with
  | Some (fs', Returned _) =>
      exists saved,
        fs' !! ("data", "data.json") = Some (Json saved)
        /\ pendingFiles (d_statistics saved) = 0%Z
  | _ => False
  end.
Proof.
  destruct (start resume_options
              (<[("data", "data.json") := Json interrupted_store]> ∅) "now"
              succeeding_schedule quiet_env) as [[fs' [result|e]]|] eqn:Hrun.
  - assert (Hload : loadDataFile "now"
                       (<[("data", "data.json") := Json interrupted_store]> ∅)
                       (dataFilePath resume_options)
                     = Returned interrupted_store)
      by (vm_compute; reflexivity).
    assert (Hnd : NoDup (file_ids interrupted_store))
      by (apply (bool_decide_unpack _); vm_compute; exact I).
    assert (Hsome : getFilesToDownload resume_options interrupted_store <> [])
      by (vm_compute; discriminate).
    destruct (finished_run_leaves_nothing_pending resume_options _ fs' "now"
                succeeding_schedule quiet_env result interrupted_store
                Hload Hnd Hsome Hrun)
      as (saved & Hsaved & _ & _ & Hpending & _).
    exists saved. split; [exact Hsaved|exact Hpending].
  - assert (H : match start resume_options
                        (<[("data", "data.json") := Json interrupted_store]> ∅)
                        "now" succeeding_schedule quiet_env with
                | Some (_, Returned _) => true
                | _ => false
                end = true) by (vm_compute; reflexivity).
    rewrite Hrun in H. discriminate.
  - assert (H : match start resume_options
                        (<[("data", "data.json") := Json interrupted_store]> ∅)
                        "now" succeeding_schedule quiet_env with
                | Some (_, Returned _) => true
                | _ => false
                end = true) by (vm_compute; reflexivity).
    rewrite Hrun in H. discriminate.
Defined.

(* ===================================================================== *)
(** * Part IV: jobs whose output is already on the disk                   *)
(* ===================================================================== *)

Lemma sum_Z_with_app {A} (f : A -> Z) (l k : list A) :
  sum_Z_with f (l ++ k) = (sum_Z_with f l + sum_Z_with f k)%Z.
Proof. induction l as [|x l IH]; simpl; [reflexivity|]. rewrite IH. lia. Qed.

Lemma sum_Z_with_alter {A} (f : A -> Z) (g : A -> A) (l : list A) (i : nat)
    (x : A) :
  l !! i = Some x ->
  (sum_Z_with f (alter g i l) + f x = sum_Z_with f l + f (g x))%Z.
Proof.
  revert i. induction l as [|a l IH]; intros [|i]; simpl; try discriminate.
  - intros [= ->]. lia.
  - intros H. specialize (IH i H).
    change (list_alter g i l) with (alter g i l). lia.
Qed.

Lemma sum_Z_with_delete {A} (f : A -> Z) (l : list A) (i : nat) (x : A) :
  l !! i = Some x ->
  (sum_Z_with f (delete i l) + f x = sum_Z_with f l)%Z.
Proof.
  revert i. induction l as [|a l IH]; intros [|i]; simpl; try discriminate.
  - intros [= ->]. lia.
  - intros H. specialize (IH i H).
    change (list_delete i l) with (delete i l). lia.
Qed.

Lemma retryAttempts_not_negative (config : Configuration) :
  (forall n, download_field retryAttempts config = Some n -> (0 <= n)%Z) ->
  (1 <= maxAttempts_of config)%Z.
Proof.
  intros H. unfold maxAttempts_of, num_or.
  destruct (download_field retryAttempts config) as [n|]; [|lia].
  specialize (H n eq_refl).
  destruct (Z.eqb_spec n 0); lia.
Qed.

Lemma groupHandle_of_groups (d d' : DataFile) (file : FileEntry) :
  d_groups d = d_groups d' -> groupHandle_of d file = groupHandle_of d' file.
Proof. intros H. unfold groupHandle_of. rewrite H. reflexivity. Qed.

(** A save touches the directory of the data file only. *)
Lemma saveDataFile_other_directories (env : SaveEnv) (fs fs' : FS)
    (filePath q : Path) (d : DataFile) (b : bool) :
  saveDataFile env fs filePath d b = (fs', Returned tt) ->
  path_dirname q <> path_dirname filePath ->
  fs' !! q = fs !! q.
Proof.
  intros Hsave Hq.
  destruct (saveDataFile_returned_disk _ _ _ _ _ _ Hsave)
    as (_ & _ & Hothers & _).
  apply Hothers; intros ->; apply Hq; reflexivity.
Qed.

Lemma fill_all_there limit queue active (d : DataFile) queue' active' d' :
  fill limit queue active d = (queue', active', d') ->
  d_groups d' = d_groups d
  /\ (forall f, f ∈ queue' -> f ∈ queue)
  /\ (forall t, t ∈ active' -> t ∈ active \/ t_file t ∈ queue)
  /\ (Z.of_nat (length queue')
      + sum_Z_with (fun t => if unrecorded t then 1 else 0) active'
      = Z.of_nat (length queue)
        + sum_Z_with (fun t => if unrecorded t then 1 else 0) active)%Z
  /\ (sum_of_sizes queue'
      + sum_Z_with (fun t => if unrecorded t then f_size (t_file t) else 0)
                   active'
      = sum_of_sizes queue
        + sum_Z_with (fun t => if unrecorded t then f_size (t_file t) else 0)
                     active)%Z.
Proof.
  revert active d. induction queue as [|f rest IH]; intros active d; simpl.
  - intros [= <- <- <-]. repeat split; auto.
  - destruct (Z.of_nat (length active) <? limit)%Z.
    + intros Hfill.
      destruct (IH _ _ Hfill) as (Hg & Hq & Ha & Hcount & Hsize).
      rewrite updateFileStatus_groups in Hg.
      rewrite !sum_Z_with_app in Hcount, Hsize. simpl in Hcount, Hsize.
      split; [exact Hg|]. split; [intros g Hin; right; auto|].
      split.
      * intros t Ht. destruct (Ha t Ht) as [Hin|Hin].
        -- apply elem_of_app in Hin as [Hin|Hin]; [left; exact Hin|].
           apply list_elem_of_singleton in Hin. subst t. right. left.
        -- right. right. exact Hin.
      * split; lia.
    + intros [= <- <- <-]. repeat split; auto.
Qed.

Lemma refill_all_there (opts : DownloadManagerOptions) (data : DataFile)
    (fs0 : FS) (m : Manager) :
  all_there opts data fs0 m -> all_there opts data fs0 (refill opts m).
Proof.
  intros (Hg & Hdisk & Hq & Ha & Hstats). unfold refill.
  destruct (fill _ _ _ _) as [[queue' active'] d'] eqn:Hfill.
  destruct (fill_all_there _ _ _ _ _ _ _ Hfill)
    as (Hg' & Hq' & Ha' & Hcount & Hsize).
  unfold all_there, open_count, open_size in *. simpl in *.
  split; [congruence|]. split; [exact Hdisk|].
  split; [auto|]. split.
  - intros t Ht. destruct (Ha' t Ht); auto.
  - rewrite Hstats. f_equal; lia.
Qed.

(** An execution that has recorded its outcome leaves the run. *)
Lemma finish_all_there (opts : DownloadManagerOptions) (data : DataFile)
    (fs0 : FS) (m : Manager) (i : nat) (file : FileEntry) (disk' : FS) :
  active m !! i = Some (mkTask file SavingOutcome) ->
  (forall q, path_dirname q <> path_dirname (dataFilePath opts) ->
             disk' !! q = disk m !! q) ->
  all_there opts data fs0 m ->
  all_there opts data fs0
    (refill opts
       (remove_active i
          {| dataFile := dataFile m; stats := stats m; queue := queue m;
             active := active m; disk := disk' |})).
Proof.
  intros Hi Hdisk' (Hg & Hdisk & Hq & Ha & Hstats).
  apply refill_all_there.
  pose proof (sum_Z_with_delete (fun t => if unrecorded t then 1 else 0)%Z
                _ _ _ Hi) as Hcount.
  pose proof (sum_Z_with_delete
                (fun t => if unrecorded t then f_size (t_file t) else 0)%Z
                _ _ _ Hi) as Hsize.
  unfold all_there, open_count, open_size in *. simpl in *.
  split; [exact Hg|]. split.
  { intros q Hne. rewrite Hdisk' by exact Hne. apply Hdisk. exact Hne. }
  split; [exact Hq|]. split.
  - intros t Ht. apply Ha. eapply elem_of_sublist; [exact Ht|].
    apply sublist_delete.
  - rewrite Hstats. f_equal; lia.
Qed.

Lemma step_all_there (opts : DownloadManagerOptions) (data : DataFile)
    (fs0 : FS) (m m' : Manager) (ev : Event) :
  outputs_there opts data fs0 ->
  save_unfaulted ev ->
  all_there opts data fs0 m ->
  step opts m ev = Some m' ->
  all_there opts data fs0 m'.
Proof.
  intros (Hretry & Hflag & Hthere) Hquiet Hinv Hstep.
  pose proof Hinv as (Hg & Hdisk & Hq & Ha & Hstats).
  destruct ev as [i env|i peer now]; simpl in Hstep;
    destruct (active m !! i) as [[file ph]|] eqn:Hi; try discriminate;
    destruct ph; try discriminate.
  - (* the save after marking the job in-progress *)
    pose proof (saveDataFile_unfaulted env (disk m) (dataFilePath opts)
                  (dataFile m) true Hquiet) as Hreturns.
    destruct (saveDataFile _ _ _ _ _) as [disk' [[]|error]] eqn:Hsave;
      [|discriminate].
    injection Hstep as <-.
    pose proof (sum_Z_with_alter (fun t => if unrecorded t then 1 else 0)%Z
                  (set_task_phase Transferring) _ _ _ Hi) as Hcount.
    pose proof (sum_Z_with_alter
                  (fun t => if unrecorded t then f_size (t_file t) else 0)%Z
                  (set_task_phase Transferring) _ _ _ Hi) as Hsize.
    unfold all_there, open_count, open_size in *. simpl in *.
    split; [exact Hg|]. split.
    { intros q Hne.
      rewrite (saveDataFile_other_directories _ _ _ _ _ _ _ Hsave Hne).
      apply Hdisk. exact Hne. }
    split; [exact Hq|]. split.
    + intros t Ht. apply list_elem_of_lookup in Ht as [j Hj].
      destruct (decide (j = i)) as [->|Hne].
      * rewrite list_lookup_alter, Hi in Hj. simpl in Hj.
        rewrite decide_True in Hj by reflexivity. injection Hj as <-.
        apply (Ha (mkTask file SavingStart)).
        eapply list_elem_of_lookup_2. exact Hi.
      * rewrite list_lookup_alter_ne in Hj by congruence.
        apply Ha. eapply list_elem_of_lookup_2. exact Hj.
    + rewrite Hstats. f_equal; lia.
  - (* the save after the outcome *)
    pose proof (saveDataFile_unfaulted env (disk m) (dataFilePath opts)
                  (dataFile m) true Hquiet) as Hreturns.
    destruct (saveDataFile _ _ _ _ _) as [disk' [[]|error]] eqn:Hsave;
      [|discriminate].
    injection Hstep as <-.
    apply (finish_all_there opts data fs0 m i file disk' Hi); [|exact Hinv].
    intros q Hne.
    exact (saveDataFile_other_directories _ _ _ _ _ _ _ Hsave Hne).
  - (* the transfer *)
    assert (Hfile : file ∈ getFilesToDownload opts data).
    { apply (Ha (mkTask file Transferring)).
      eapply list_elem_of_lookup_2. exact Hi. }
    destruct (Hthere file Hfile) as [Hexists Hapart].
    rewrite (groupHandle_of_groups (dataFile m) data file Hg) in Hstep.
    assert (Hnow : output_exists (disk m) (config opts) file
                     (groupHandle_of data file) = true).
    { unfold output_exists, fileExists in *.
      rewrite (Hdisk _ Hapart). exact Hexists. }
    rewrite (downloadFileWithRetry_existing peer (disk m) file
               (groupHandle_of data file) (config opts)
               (retryAttempts_not_negative _ Hretry) Hflag Hnow) in Hstep.
    injection Hstep as <-.
    pose proof (sum_Z_with_alter (fun t => if unrecorded t then 1 else 0)%Z
                  (set_task_phase SavingOutcome) _ _ _ Hi) as Hcount.
    pose proof (sum_Z_with_alter
                  (fun t => if unrecorded t then f_size (t_file t) else 0)%Z
                  (set_task_phase SavingOutcome) _ _ _ Hi) as Hsize.
    unfold all_there, open_count, open_size, record_result in *.
    simpl in *.
    split; [rewrite updateFileStatus_groups; exact Hg|].
    split; [exact Hdisk|]. split; [exact Hq|]. split.
    + intros t Ht. apply list_elem_of_lookup in Ht as [j Hj].
      destruct (decide (j = i)) as [->|Hne].
      * rewrite list_lookup_alter, Hi in Hj. simpl in Hj.
        rewrite decide_True in Hj by reflexivity. injection Hj as <-.
        exact Hfile.
      * rewrite list_lookup_alter_ne in Hj by congruence.
        apply Ha. eapply list_elem_of_lookup_2. exact Hj.
    + unfold add_completed. rewrite Hstats. simpl. f_equal; lia.
Qed.

Lemma run_events_all_there (opts : DownloadManagerOptions) (data : DataFile)
    (fs0 : FS) (schedule : list Event) (m m' : Manager) :
  outputs_there opts data fs0 ->
  Forall save_unfaulted schedule ->
  all_there opts data fs0 m ->
  run_events opts schedule m = Some m' ->
  all_there opts data fs0 m'.
Proof.
  intros Hpre Hquiet. revert m.
  induction Hquiet as [|ev rest Hev Hrest IH]; intros m Hinv; simpl.
  - intros [= <-]. exact Hinv.
  - destruct (step opts m ev) as [m1|] eqn:Hstep; [|discriminate].
    apply IH. eapply step_all_there; eassumption.
Qed.

Lemma begin_run_all_there (opts : DownloadManagerOptions) (data : DataFile)
    (fs0 : FS) :
  let candidates := getFilesToDownload opts data in
  all_there opts data fs0
    (begin_run opts data (set_totals constructor_stats candidates) fs0
               candidates).
Proof.
  intros candidates. unfold begin_run. apply refill_all_there.
  unfold all_there, open_count, open_size. simpl. fold candidates.
  split; [reflexivity|]. split; [reflexivity|]. split; [auto|].
  split; [intros t Ht; inversion Ht|].
  unfold set_totals. simpl. rewrite reduce_size_sum. f_equal; lia.
Qed.

(** C10, amended.  The [skipped] field of the statistics [start()]
    returns is 0.  A job whose output path exists, with overwriting off,
    succeeds without touching the disk, whatever the peer would do;
    provided [retryAttempts] is not negative, the scheduler then marks it
    completed, adds 1 to [completed] and its declared size to
    [downloadedSize], and leaves [skipped] and [failed] alone.  So when
    the outputs of all [N] candidates exist, in a directory other than
    the data file's, and no save of the run meets an I/O fault, [start()]
    returns [total = completed = N], [failed = skipped = 0] and
    [downloadedSize = totalSize], the sum of the declared sizes, although
    nothing was transferred; the disk is unchanged outside the directory
    of the data file. *)
Theorem skipped_is_never_counted (opts : DownloadManagerOptions) :
  (forall (fs : FS) (now : string) (schedule : list Event)
          (finalEnv : SaveEnv) (disk' : FS) (result : DownloadStats),
     start opts fs now schedule finalEnv = Some (disk', Returned result) ->
     skipped result = 0%Z)
  /\ (forall (remote : Remote) (fs : FS) (file : FileEntry)
             (groupHandle : string),
        download_flag overwriteExisting (config opts) = false ->
        output_exists fs (config opts) file groupHandle = true ->
        downloadFile remote fs file groupHandle (config opts)
        = (fs, mkResult true file
                 (Some (outputPath_string (config opts) file groupHandle))
                 None))
  /\ (forall (m : Manager) (i : nat) (file : FileEntry)
             (peer : Z -> Remote) (now : string),
        (forall n, download_field retryAttempts (config opts) = Some n ->
                   (0 <= n)%Z) ->
        download_flag overwriteExisting (config opts) = false ->
        active m !! i = Some (mkTask file Transferring) ->
        output_exists (disk m) (config opts) file
          (groupHandle_of (dataFile m) file) = true ->
        exists m',
          step opts m (TransferSettled i peer now) = Some m'
          /\ disk m' = disk m
          /\ s_completed (stats m') = (s_completed (stats m) + 1)%Z
          /\ downloadedSize (stats m')
             = (downloadedSize (stats m) + f_size file)%Z
          /\ skipped (stats m') = skipped (stats m)
          /\ s_failed (stats m') = s_failed (stats m)
          /\ (f_id file ∈ (f_id <$> d_files (dataFile m)) ->
              status_at (d_files (dataFile m')) (f_id file) = Some completed))
  /\ (forall (fs : FS) (now : string) (schedule : list Event)
             (finalEnv : SaveEnv) (disk' : FS) (result : DownloadStats)
             (data : DataFile),
        let candidates := getFilesToDownload opts data in
        loadDataFile now fs (dataFilePath opts) = Returned data ->
        (forall n, download_field retryAttempts (config opts) = Some n ->
                   (0 <= n)%Z) ->
        download_flag overwriteExisting (config opts) = false ->
        (forall f, f ∈ candidates ->
           output_exists fs (config opts) f (groupHandle_of data f) = true
           /\ path_dirname (output_path (config opts) f
                              (groupHandle_of data f))
              <> path_dirname (dataFilePath opts)) ->
        Forall save_unfaulted schedule ->
        start opts fs now schedule finalEnv = Some (disk', Returned result) ->
        result = mkStats (Z.of_nat (length candidates))
                         (Z.of_nat (length candidates)) 0 0
                         (reduce_size candidates) (reduce_size candidates)
        /\ forall q, path_dirname q <> path_dirname (dataFilePath opts) ->
                     disk' !! q = fs !! q).
Proof.
  split; [|split; [|split]].
  - intros fs now schedule finalEnv disk' result. apply start_skipped.
  - intros remote fs file groupHandle. apply downloadFile_existing.
  - intros m i file peer now Hretry Hflag Hi Hexists. simpl. rewrite Hi.
    rewrite (downloadFileWithRetry_existing _ _ _ _ _
               (retryAttempts_not_negative _ Hretry) Hflag Hexists).
    eexists. split; [reflexivity|]. simpl.
    repeat split; try reflexivity.
    intros Hid. apply status_at_update_same. exact Hid.
  - intros fs now schedule finalEnv disk' result data candidates
           Hload Hretry Hflag Hthere Hquiet.
    unfold start. rewrite Hload. fold candidates.
    destruct candidates as [|c rest] eqn:Hcands.
    { intros [= <- <-]. split; [reflexivity|auto]. }
    rewrite <- Hcands.
    destruct (run_events opts schedule _) as [m|] eqn:Hrun; [|discriminate].
    destruct (finished m) eqn:Hfinished; [|discriminate].
    destruct (saveDataFile finalEnv (disk m) (dataFilePath opts) (dataFile m)
                true) as [disk1 [[]|e]] eqn:Hsave; intros [= <- <-].
    assert (Hpre : outputs_there opts data fs).
    { split; [exact Hretry|]. split; [exact Hflag|].
      unfold candidates in Hcands. rewrite Hcands. exact Hthere. }
    assert (Hinv : all_there opts data fs m).
    { eapply run_events_all_there; [exact Hpre|exact Hquiet| |exact Hrun].
      unfold candidates. apply begin_run_all_there. }
    destruct Hinv as (_ & Hdisk & _ & _ & Hstats).
    unfold finished in Hfinished.
    destruct (queue m) eqn:Hq; [|discriminate].
    destruct (active m) eqn:Ha; [|discriminate].
    unfold open_count, open_size in Hstats. rewrite Hq, Ha in Hstats.
    simpl in Hstats. split.
    + rewrite Hstats. unfold candidates. f_equal; lia.
    + intros q Hne.
      rewrite (saveDataFile_other_directories _ _ _ _ _ _ _ Hsave Hne).
      apply Hdisk. exact Hne.
Qed.

Lemma skipped_is_never_counted_witness :
  match start sample_options both_there "2024-01-01T00:00:00.000Z"
          both_schedule quiet_env with
  | Some (_, Returned result) => result = mkStats 2 2 0 0 103 103
  | _ => False
  end.
Proof.
  destruct (start sample_options both_there "2024-01-01T00:00:00.000Z"
              both_schedule quiet_env) as [[disk' [result|e]]|] eqn:Hrun.
  - destruct (skipped_is_never_counted sample_options)
      as (_ & _ & _ & Hstart).
    assert (Hload : loadDataFile "2024-01-01T00:00:00.000Z" both_there
                      (dataFilePath sample_options)
                    = Returned (snapshot_of [job_of_3; job_of_100]))
      by (vm_compute; reflexivity).
    assert (Hretry : forall n,
              download_field retryAttempts (config sample_options) = Some n ->
              (0 <= n)%Z).
    { intros n [= <-]. lia. }
    assert (Hquiet : Forall save_unfaulted both_schedule).
    { repeat constructor. }
    destruct (Hstart both_there "2024-01-01T00:00:00.000Z" both_schedule
                quiet_env disk' result (snapshot_of [job_of_3; job_of_100])
                Hload Hretry eq_refl) as [Hresult _].
    + intros f Hf. apply list_elem_of_In in Hf.
      destruct Hf as [<-|[<-|[]]]; split;
        try (vm_compute; reflexivity); vm_compute; discriminate.
    + exact Hquiet.
    + exact Hrun.
    + exact Hresult.
  - assert (H : match start sample_options both_there
                        "2024-01-01T00:00:00.000Z" both_schedule quiet_env
                with
                | Some (_, Returned _) => true
                | _ => false
                end = true) by (vm_compute; reflexivity).
    rewrite Hrun in H. discriminate.
  - assert (H : match start sample_options both_there
                        "2024-01-01T00:00:00.000Z" both_schedule quiet_env
                with
                | Some (_, Returned _) => true
                | _ => false
                end = true) by (vm_compute; reflexivity).
    rewrite Hrun in H. discriminate.
Defined.

(** The claim of C10 fails for a negative [retryAttempts]: no attempt is
    made, so the job whose output is on the disk, with overwriting off,
    gets a failure outcome and is counted in [failed], not in
    [completed]. *)
Lemma existing_output_counted_as_failed :
  download_flag overwriteExisting (config no_tries_options) = false
  /\ output_exists already_there (config no_tries_options) job_of_3 "g1"
     = true
  /\ match start no_tries_options already_there "2024-01-01T00:00:00.000Z"
             [SaveSettled 0 quiet_env;
              TransferSettled 0 (fun _ => Media "abc")
                              "2024-01-01T00:00:01.000Z";
              SaveSettled 0 quiet_env]
             quiet_env with
     | Some (disk', Returned result) =>
         result = mkStats 1 0 1 0 3 0
         /\ (f_downloadStatus <$>
               match disk' !! ("data", "data.json") with
               | Some (Json saved) => d_files saved
               | _ => []
               end) = [failed]
     | _ => False
     end.
Proof. vm_compute. repeat split. Qed.
